(** * Anchor resolution, patch application and the persisted stores

    A shallow embedding of the comment/patch core of the editor:
    [findAnchorRange] (lib/anchors/findAnchorRange.ts), the patch store
    (lib/store/patchStore.ts), the comment store (lib/store/commentStore.ts)
    and the handlers of the comment panel ([refreshCommentData],
    [handleAcceptPatch], [handleRejectPatch]) together with the [PatchCard]
    that exposes them.

    Strings are sequences of code units ([string]); numbers that the code
    uses as positions, indices and timestamps are [nat]. *)

From Stdlib Require Import String Ascii.
From stdpp Require Import base option list strings pretty gmap fin_maps.

Open Scope string_scope.
Open Scope list_scope.
Open Scope nat_scope.

Set Warnings "-register-all".

(** ** The document: a ProseMirror node tree *)

Module PM.

(** A mark as the code reads it: [mark.type.name] and [mark.attrs.commentId]
    (absent on marks that are not comment anchors). *)
Record Mark := { mark_type : string; commentId : option string }.

#[export] Instance Mark_eq_dec : EqDecision Mark.
Proof. solve_decision. Defined.

(** Text nodes carry their text and marks; an element has content and is
    delimited by an opening and a closing token; a leaf (hard break, rule,
    image) takes one position and renders [leaf_text] as plain text. The
    elements of the editor's schema are block nodes. *)
Inductive Node :=
| Text (text : string) (marks : list Mark)
| Elem (content : list Node)
| Leaf (isBlock : bool) (leaf_text : string).

Definition isText (n : Node) : bool :=
  match n with Text _ _ => true | _ => false end.

Fixpoint nodeSize (n : Node) : nat :=
  match n with
  | Text s _ => String.length s
  | Elem c =>
      2 + (fix sizes (l : list Node) : nat :=
             match l with [] => 0 | x :: r => nodeSize x + sizes r end) c
  | Leaf _ _ => 1
  end.

(** Size of a fragment: [fragment.size]. *)
Fixpoint fragSize (l : list Node) : nat :=
  match l with [] => 0 | x :: r => nodeSize x + fragSize r end.

(** The calls [f(node, pos)] that [descendants] makes on a fragment whose
    first child starts at [pos], in order: every node, then (the callback of
    the code returns nothing, so the walk always descends) its content, whose
    first child sits one position after the opening token. *)
Fixpoint visits_node (pos : nat) (n : Node) : list (Node * nat) :=
  (n, pos) ::
  match n with
  | Elem c =>
      (fix each (p : nat) (l : list Node) : list (Node * nat) :=
         match l with
         | [] => []
         | x :: r => visits_node p x ++ each (p + nodeSize x) r
         end) (S pos) c
  | _ => []
  end.

Fixpoint visits (pos : nat) (l : list Node) : list (Node * nat) :=
  match l with
  | [] => []
  | x :: r => visits_node pos x ++ visits (pos + nodeSize x) r
  end.

(** [doc.descendants(f)], with the state the callback closes over threaded
    through the calls. [doc] is the content of the top node. *)
Definition descendants {A} (doc : list Node) (f : A → Node → nat → A) (a : A) : A :=
  fold_left (λ acc v, f acc v.1 v.2) (visits 0 doc) a.

End PM.
Export PM.

(** The editor handle: [editor.state.doc], the selection, and the number of
    transactions dispatched so far. *)
Record Editor := {
  doc : list Node;
  selection : nat * nat;
  transactions : nat
}.

(** ** lib/anchors/findAnchorRange.ts *)

Definition is_anchor (anchorId : string) (mark : Mark) : bool :=
  bool_decide (mark_type mark = "comment") &&
  bool_decide (commentId mark = Some anchorId).

(** The body of [for (const mark of node.marks)], on the two variables
    [foundFrom] and [foundTo]. *)
Definition scan_mark (anchorId : string) (pos size : nat)
    (found : option nat * option nat) (mark : Mark) : option nat * option nat :=
  if is_anchor anchorId mark then
    match found.1 with
    | None => (Some pos, Some (pos + size))
    | Some _ => (found.1, Some (pos + size))
    end
  else found.

(** The callback passed to [doc.descendants]. *)
Definition scan_node (anchorId : string)
    (found : option nat * option nat) (node : Node) (pos : nat)
    : option nat * option nat :=
  match node with
  | Text _ marks => fold_left (scan_mark anchorId pos (nodeSize node)) marks found
  | _ => found
  end.

Definition findAnchorRange (editor : option Editor) (anchorId : string)
    : option (nat * nat) :=
  match editor with
  | None => None
  | Some e =>
      match descendants (doc e) (scan_node anchorId) (None, None) with
      | (Some foundFrom, Some foundTo) => Some (foundFrom, foundTo)
      | _ => None
      end
  end.

(** ** Strings as the code uses them *)

(** [s.slice(0, n)] and [s.slice(n)]. *)
Fixpoint str_take (n : nat) (s : string) : string :=
  match n, s with
  | S n', String c r => String c (str_take n' r)
  | _, _ => EmptyString
  end.

Fixpoint str_drop (n : nat) (s : string) : string :=
  match n, s with
  | S n', String _ r => str_drop n' r
  | _, _ => s
  end.

(** The white space and line terminators that [trim] removes, among the code
    units below 256: TAB, LF, VT, FF, CR, SP and NBSP. *)
Definition isWhiteSpace (c : ascii) : bool :=
  let n := nat_of_ascii c in
  ((9 <=? n) && (n <=? 13)) || (n =? 32) || (n =? 160).

Fixpoint trimStart (s : string) : string :=
  match s with
  | String c r => if isWhiteSpace c then trimStart r else s
  | EmptyString => EmptyString
  end.

Fixpoint trimEnd (s : string) : string :=
  match s with
  | String c r =>
      match trimEnd r with
      | EmptyString => if isWhiteSpace c then EmptyString else String c EmptyString
      | r' => String c r'
      end
  | EmptyString => EmptyString
  end.

Definition trim (s : string) : string := trimEnd (trimStart s).

(** [s.indexOf(searchString)]: the least index at which [searchString]
    occurs, [None] for -1. *)
Definition indexOf (s searchString : string) : option nat :=
  String.index 0 searchString s.

(** ** The editor collaborator

    The editor framework is a dependency of the repository, not part of it.
    Its operations are modelled as the collaborator surface of the
    specification has them: the plain text, the replacement of a range by
    text, the removal of the annotation from a region, and the chain of
    commands that makes one transaction of them. *)

Definition blockSeparator : string :=
  String "010"%char (String "010"%char EmptyString).

(** [editor.getText()], the plain text: the text of the text nodes in
    document order, the rendering of leaves, and a block separator in front
    of every block that does not start the document. *)
Fixpoint text_of_node (pos : nat) (n : Node) : string :=
  match n with
  | Text s _ => s
  | Elem c =>
      (if 0 <? pos then blockSeparator else "") +:+
      (fix each (p : nat) (l : list Node) : string :=
         match l with
         | [] => ""
         | x :: r => text_of_node p x +:+ each (p + nodeSize x) r
         end) (S pos) c
  | Leaf b t => (if b && (0 <? pos) then blockSeparator else "") +:+ t
  end.

Fixpoint text_of (pos : nat) (l : list Node) : string :=
  match l with
  | [] => ""
  | x :: r => text_of_node pos x +:+ text_of (pos + nodeSize x) r
  end.

Definition getText (e : Editor) : string := text_of 0 (doc e).

(** A text node for [s], none when [s] is empty (the document has no empty
    text nodes). *)
Definition keep_text (s : string) (marks : list Mark) : list Node :=
  match s with
  | EmptyString => []
  | _ => [Text s marks]
  end.

(** What is left of the node [n], which starts at [pos], when the range
    [[from, to)] is deleted: the characters and leaves at positions in the
    range and the elements that lie entirely inside it go, an element that is
    only partly covered keeps its place with its content cut. *)
Fixpoint cutNode (from to pos : nat) (n : Node) : list Node :=
  match n with
  | Text s marks =>
      keep_text (str_take (from - pos) s) marks ++
      keep_text (str_drop (to - pos) s) marks
  | Elem c =>
      if (from <=? pos) && (pos + nodeSize n <=? to) then []
      else
        [Elem ((fix each (p : nat) (l : list Node) : list Node :=
                  match l with
                  | [] => []
                  | x :: r => cutNode from to p x ++ each (p + nodeSize x) r
                  end) (S pos) c)]
  | Leaf _ _ => if (from <=? pos) && (pos + 1 <=? to) then [] else [n]
  end.

Fixpoint cutFrag (from to pos : nat) (l : list Node) : list Node :=
  match l with
  | [] => []
  | x :: r => cutNode from to pos x ++ cutFrag from to (pos + nodeSize x) r
  end.

(** Insertion of the fragment [ins] at position [at_], which lies strictly
    inside the node [n] that starts at [pos]. *)
Fixpoint insertNode (at_ : nat) (ins : list Node) (pos : nat) (n : Node) : list Node :=
  match n with
  | Text s marks =>
      keep_text (str_take (at_ - pos) s) marks ++ ins ++
      keep_text (str_drop (at_ - pos) s) marks
  | Elem c =>
      [Elem ((fix each (p : nat) (l : list Node) : list Node :=
                match l with
                | [] => ins
                | x :: r =>
                    if at_ <=? p then ins ++ l
                    else if at_ <? p + nodeSize x then insertNode at_ ins p x ++ r
                    else x :: each (p + nodeSize x) r
                end) (S pos) c)]
  | Leaf _ _ => [n]
  end.

(** Insertion into a fragment whose first child starts at [pos]; a position
    past the end of the document inserts at its end. *)
Fixpoint insertFrag (at_ : nat) (ins : list Node) (pos : nat) (l : list Node) : list Node :=
  match l with
  | [] => ins
  | x :: r =>
      if at_ <=? pos then ins ++ l
      else if at_ <? pos + nodeSize x then insertNode at_ ins pos x ++ r
      else x :: insertFrag at_ ins (pos + nodeSize x) r
  end.

(** Modelled from the spec: [replaceRange(range, text)] of the editor
    collaborator surface, which the handlers reach through [insertContent] on
    a selection; the framework is not among the sources. The range is
    deleted and the text is inserted at position [from], as one text node
    that carries no mark. *)
Definition replaceRange (from to : nat) (text : string) (d : list Node) : list Node :=
  insertFrag from (keep_text text []) 0 (cutFrag from to 0 d).

(** The marks of a text node without its comment marks. *)
Definition strip_comment (marks : list Mark) : list Mark :=
  filter (λ m, mark_type m ≠ "comment") marks.

(** The node [n], which starts at [pos], without the comment marks on its
    text at positions in [[from, to)]: a text node that is only partly
    covered is split, a text node without such a mark is left as it is. *)
Fixpoint unmarkNode (from to pos : nat) (n : Node) : list Node :=
  match n with
  | Text s marks =>
      if bool_decide (strip_comment marks = marks) then [n]
      else
        keep_text (str_take (from - pos) s) marks ++
        keep_text (str_take (to - Nat.max from pos) (str_drop (from - pos) s))
                  (strip_comment marks) ++
        keep_text (str_drop (to - pos) s) marks
  | Elem c =>
      [Elem ((fix each (p : nat) (l : list Node) : list Node :=
                match l with
                | [] => []
                | x :: r => unmarkNode from to p x ++ each (p + nodeSize x) r
                end) (S pos) c)]
  | Leaf _ _ => [n]
  end.

(** Modelled from the spec: the removal of the anchor annotation from a
    region, which is what [unsetComment] of the Comment extension does on the
    selection; the extension is not among the sources. The command takes no
    identifier: every mark of type "comment" on the text at positions in
    [[from, to)] is removed. *)
Fixpoint unmarkFrag (from to pos : nat) (l : list Node) : list Node :=
  match l with
  | [] => []
  | x :: r => unmarkNode from to pos x ++ unmarkFrag from to (pos + nodeSize x) r
  end.

(** The commands the handlers chain. A chain builds one transaction, which
    [run] dispatches: [setTextSelection] selects a range, [insertContent]
    replaces the selection by text and leaves the cursor after it,
    [unsetComment] removes the annotation from the selection and does nothing
    to the document when the selection is empty. *)
Inductive Command :=
| focus
| setTextSelection (from to : nat)
| insertContent (value : string)
| unsetComment.

Record Transaction := { tr_doc : list Node; tr_selection : nat * nat }.

Definition apply_command (tr : Transaction) (c : Command) : Transaction :=
  match c with
  | focus => tr
  | setTextSelection a b =>
      {| tr_doc := tr_doc tr; tr_selection := (Nat.min a b, Nat.max a b) |}
  | insertContent value =>
      let '(from, to) := tr_selection tr in
      let after := from + String.length value in
      {| tr_doc := replaceRange from to value (tr_doc tr);
         tr_selection := (after, after) |}
  | unsetComment =>
      let '(from, to) := tr_selection tr in
      {| tr_doc := if from =? to then tr_doc tr else unmarkFrag from to 0 (tr_doc tr);
         tr_selection := tr_selection tr |}
  end.

Definition run (chain : list Command) (e : Editor) : Editor :=
  let tr := fold_left apply_command chain
              {| tr_doc := doc e; tr_selection := selection e |} in
  {| doc := tr_doc tr; selection := tr_selection tr;
     transactions := S (transactions e) |}.

(** One comment mark of a text node, added to the comment data. *)
Definition collect_mark (text : string) (pos : nat)
    (data : gmap string (string * nat)) (mark : Mark) : gmap string (string * nat) :=
  if bool_decide (mark_type mark = "comment") then
    match commentId mark with
    | Some cid =>
        match data !! cid with
        | Some entry => <[cid := (entry.1 +:+ text, entry.2)]> data
        | None => <[cid := (text, pos)]> data
        end
    | None => data
    end
  else data.

Definition collect_node (data : gmap string (string * nat)) (node : Node) (pos : nat)
    : gmap string (string * nat) :=
  match node with
  | Text s marks => fold_left (collect_mark s pos) marks data
  | _ => data
  end.

(** Modelled from the spec: [getAllAnnotatedRangesWithLiveText()], that is
    [getAllCommentData] of the editor methods, which is not among the
    sources: the mapping from every identifier that annotates text of the
    document to the live text it covers and the position where it starts. *)
Definition getAllCommentData (e : Editor) : gmap string (string * nat) :=
  descendants (doc e) collect_node ∅.

(** ** lib/types *)

Inductive AIPatchStatus := open | accepted | rejected.

#[export] Instance AIPatchStatus_eq_dec : EqDecision AIPatchStatus.
Proof. solve_decision. Defined.

Module AIPatch.
Record t := mk {
    id : string;
    documentId : string;
    anchorId : string;
    originalText : string;
    proposedText : string;
    status : AIPatchStatus;
    createdAt : nat;
    updatedAt : nat
  }.
End AIPatch.

(** [Partial<Omit<AIPatch, "id" | "documentId" | "createdAt">>]: a field
    that the object does not have is [None]. *)
Module Updates.
Record t := mk {
    anchorId : option string;
    originalText : option string;
    proposedText : option string;
    status : option AIPatchStatus;
    updatedAt : option nat
  }.
Definition only_status (s : AIPatchStatus) : t :=
    mk None None None (Some s) None.
End Updates.

Module CommentMessage.
Record t := mk {
    id : string;
    content : string;
    author : string;
    createdAt : nat;
    updatedAt : nat;
    status : option string
  }.
End CommentMessage.

Module CommentThread.
Record t := mk {
    id : string;
    documentId : string;
    highlightedText : string;
    messages : list CommentMessage.t;
    resolved : bool;
    createdAt : nat;
    updatedAt : nat;
    isAIThread : option bool;
    aiMode : option string
  }.
End CommentThread.

(** The record that commentStore.ts builds in [createComment]. *)
Module Comment.
Record t := mk {
    id : string;
    documentId : string;
    content : string;
    highlightedText : string;
    createdAt : nat;
    updatedAt : nat
  }.
End Comment.

(** What the comment store reads of its records, whichever of the two record
    types it keeps. *)
Class Stored (T : Type) := {
  rec_id : T → string;
  rec_documentId : T → string;
  rec_createdAt : T → nat
}.

#[export] Instance CommentThread_Stored : Stored CommentThread.t :=
  {| rec_id := CommentThread.id;
     rec_documentId := CommentThread.documentId;
     rec_createdAt := CommentThread.createdAt |}.

#[export] Instance Comment_Stored : Stored Comment.t :=
  {| rec_id := Comment.id;
     rec_documentId := Comment.documentId;
     rec_createdAt := Comment.createdAt |}.

(** ** The browser: localStorage, the clock and the console *)

(** What [localStorage.getItem] hands back when the key is set: the empty
    string, a string that [JSON.parse] rejects, or a string that parses to
    [value] (and is what [JSON.stringify value] writes). *)
Inductive Item (A : Type) :=
| Blank
| Garbage
| Json (value : A).
Arguments Blank {A}.
Arguments Garbage {A}.
Arguments Json {A} value.

(** [{ [documentId]: AIPatch[] }] *)
Abbreviation PatchStorage := (gmap string (list AIPatch.t)).

Record Browser (T : Type) := {
  has_window : bool;        (* typeof window !== "undefined" *)
  readable : bool;          (* localStorage.getItem does not throw *)
  writable : bool;          (* localStorage.setItem does not throw *)
  now : nat;                (* Date.now() *)
  random : string;          (* Math.random().toString(36).substr(2, 9) *)
  generated : string;       (* generateId() *)
  console : list string;    (* console.error *)
  patches_item : option (Item PatchStorage);     (* "playground:patches:v2" *)
  comments_item : option (Item (list T))         (* "playground:comments" *)
}.
Arguments has_window {T}.
Arguments readable {T}.
Arguments writable {T}.
Arguments now {T}.
Arguments random {T}.
Arguments generated {T}.
Arguments console {T}.
Arguments patches_item {T}.
Arguments comments_item {T}.

(** Computations that read and write a state and may throw. *)
Inductive Outcome (S A : Type) :=
| Return (a : A) (s : S)
| Raise (s : S).
Arguments Return {S A}.
Arguments Raise {S A}.

Definition M (S A : Type) : Type := S → Outcome S A.

Definition ret {S A} (a : A) : M S A := λ s, Return a s.

Definition bind {S A B} (m : M S A) (k : A → M S B) : M S B :=
  λ s, match m s with
       | Return a s' => k a s'
       | Raise s' => Raise s'
       end.

Definition throw {S A} : M S A := λ s, Raise s.

(** [try { body } catch { handler }] *)
Definition try_catch {S A} (body handler : M S A) : M S A :=
  λ s, match body s with
       | Return a s' => Return a s'
       | Raise s' => handler s'
       end.

Notation "'let*' x ':=' m 'in' k" := (bind m (λ x, k))
  (at level 10, x name, m at level 100, k at level 200).
Notation "m ';;;' k" := (bind m (λ _, k))
  (at level 100, k at level 200, right associativity).

(** [array.forEach(f)] *)
Fixpoint forEach {S A} (l : list A) (f : A → M S unit) : M S unit :=
  match l with
  | [] => ret tt
  | x :: r => f x ;;; forEach r f
  end.

Section BrowserOps.
Context {T : Type}.

Definition with_console (c : list string) (b : Browser T) : Browser T :=
    {| has_window := has_window b; readable := readable b; writable := writable b;
       now := now b; random := random b; generated := generated b;
       console := c;
       patches_item := patches_item b; comments_item := comments_item b |}.

Definition with_patches_item (i : option (Item PatchStorage)) (b : Browser T) : Browser T :=
    {| has_window := has_window b; readable := readable b; writable := writable b;
       now := now b; random := random b; generated := generated b;
       console := console b;
       patches_item := i; comments_item := comments_item b |}.

Definition with_comments_item (i : option (Item (list T))) (b : Browser T) : Browser T :=
    {| has_window := has_window b; readable := readable b; writable := writable b;
       now := now b; random := random b; generated := generated b;
       console := console b;
       patches_item := patches_item b; comments_item := i |}.

Definition console_error (msg : string) : M (Browser T) unit :=
    λ b, Return tt (with_console (console b ++ [msg]) b).

Definition Date_now : M (Browser T) nat := λ b, Return (now b) b.

  (** [localStorage.getItem(STORAGE_KEY)] of patchStore.ts. Outside a
      browser the name [localStorage] itself throws. *)
Definition getItem_patches : M (Browser T) (option (Item PatchStorage)) :=
    λ b, if has_window b && readable b then Return (patches_item b) b else Raise b.

Definition setItem_patches (v : PatchStorage) : M (Browser T) unit :=
    λ b, if has_window b && writable b
         then Return tt (with_patches_item (Some (Json v)) b)
         else Raise b.

  (** [localStorage.getItem(STORAGE_KEY)] of commentStore.ts. *)
Definition getItem_comments : M (Browser T) (option (Item (list T))) :=
    λ b, if has_window b && readable b then Return (comments_item b) b else Raise b.

Definition setItem_comments (v : list T) : M (Browser T) unit :=
    λ b, if has_window b && writable b
         then Return tt (with_comments_item (Some (Json v)) b)
         else Raise b.

  (** [JSON.parse(stored)] *)
Definition JSON_parse {A} (stored : Item A) : M (Browser T) A :=
    match stored with
    | Json v => ret v
    | _ => throw
    end.

  (** A string is truthy unless it is empty; [null] is falsy. *)
Definition truthy {A} (stored : option (Item A)) : bool :=
    match stored with
    | None | Some Blank => false
    | Some _ => true
    end.
End BrowserOps.

(** [array.findIndex(f)], [None] for -1. *)
Fixpoint findIndex {A} (f : A → bool) (l : list A) : option nat :=
  match l with
  | [] => None
  | x :: r => if f x then Some 0 else S <$> findIndex f r
  end.

(** The members that every JavaScript object inherits from
    [Object.prototype]: the lookup [object[key]] finds them under these keys
    when the object has no property of its own there. They are functions
    (under "__proto__", the prototype itself): truthy, and not arrays. *)
Definition inherited (key : string) : bool :=
  bool_decide (key ∈ ["constructor"; "hasOwnProperty"; "isPrototypeOf";
                      "propertyIsEnumerable"; "toLocaleString"; "toString";
                      "valueOf"; "__proto__"; "__defineGetter__";
                      "__defineSetter__"; "__lookupGetter__"; "__lookupSetter__"]).

(** What [storage[key]] finds on a parsed object: a property of its own, an
    inherited member, or nothing ([undefined]). *)
Inductive Property (A : Type) :=
| Own (value : A)
| Inherited
| Missing.
Arguments Own {A}.
Arguments Inherited {A}.
Arguments Missing {A}.

Definition property {A} (storage : gmap string A) (key : string) : Property A :=
  match storage !! key with
  | Some value => Own value
  | None => if inherited key then Inherited else Missing
  end.

(** ** lib/store/patchStore.ts *)

Module patchStore.
Section patchStore.
Context {T : Type}.
Abbreviation B := (Browser T).

  (** [{ ...old, ...updates }] *)
Definition spread (old : AIPatch.t) (updates : Updates.t) : AIPatch.t :=
    {| AIPatch.id := AIPatch.id old;
       AIPatch.documentId := AIPatch.documentId old;
       AIPatch.anchorId := default (AIPatch.anchorId old) (Updates.anchorId updates);
       AIPatch.originalText := default (AIPatch.originalText old) (Updates.originalText updates);
       AIPatch.proposedText := default (AIPatch.proposedText old) (Updates.proposedText updates);
       AIPatch.status := default (AIPatch.status old) (Updates.status updates);
       AIPatch.createdAt := AIPatch.createdAt old;
       AIPatch.updatedAt := default (AIPatch.updatedAt old) (Updates.updatedAt updates) |}.

Definition with_updatedAt (t : nat) (p : AIPatch.t) : AIPatch.t :=
    {| AIPatch.id := AIPatch.id p;
       AIPatch.documentId := AIPatch.documentId p;
       AIPatch.anchorId := AIPatch.anchorId p;
       AIPatch.originalText := AIPatch.originalText p;
       AIPatch.proposedText := AIPatch.proposedText p;
       AIPatch.status := AIPatch.status p;
       AIPatch.createdAt := AIPatch.createdAt p;
       AIPatch.updatedAt := t |}.

  (** [storage[documentId] || []] gives the list that the stored object has
      under [documentId] as a property of its own, and the empty list when
      it has none; under the name of an inherited member the code hands out
      that member, which is no list and has no counterpart here. *)
Definition getPatches (documentId : string) : M B (list AIPatch.t) :=
    λ b,
    if negb (has_window b) then Return [] b
    else
      try_catch
        (let* stored := getItem_patches in
         if negb (truthy stored) then ret []
         else
           let* storage := JSON_parse (default Blank stored) in
           let patches := default [] (storage !! documentId) in
           ret patches)
        (console_error "[patchStore] Failed to get patches:" ;;;
         ret [])
        b.

Definition getOpenPatchByAnchor (documentId anchorId : string) : M B (option AIPatch.t) :=
    let* patches := getPatches documentId in
    ret (List.find (λ p, bool_decide (AIPatch.anchorId p = anchorId) &&
                         bool_decide (AIPatch.status p = open)) patches).

  (** The argument [patch] of the code has the four fields that are passed
      here one by one. The test [!storage[patch.documentId]] sees an
      inherited member as well as a list of the object's own, and [push] is
      no function of an inherited member: the call throws, within the
      [try]. *)
Definition createPatch (documentId anchorId originalText proposedText : string)
      : M B AIPatch.t :=
    let* now := Date_now in
    λ b,
    let newPatch :=
      {| AIPatch.id := "patch_" +:+ pretty now +:+ "_" +:+ random b;
         AIPatch.documentId := documentId;
         AIPatch.anchorId := anchorId;
         AIPatch.originalText := originalText;
         AIPatch.proposedText := proposedText;
         AIPatch.status := open;
         AIPatch.createdAt := now;
         AIPatch.updatedAt := now |} in
    try_catch
      (let* stored := getItem_patches in
       let* storage :=
         (if truthy stored then JSON_parse (default Blank stored) else ret ∅) in
       let storage1 : PatchStorage :=
         match property storage documentId with
         | Missing => <[documentId := []]> storage
         | _ => storage
         end in
       match property storage1 documentId with
       | Own patches =>
           setItem_patches (<[documentId := patches ++ [newPatch]]> storage1) ;;;
           ret newPatch
       | _ => throw
       end)
      (console_error "[patchStore] Failed to create patch:" ;;;
       ret newPatch)
      b.

  (** [findIndex] is no function of an inherited member: under such a name
      the call throws, within the [try]. *)
Definition updatePatch (documentId patchId : string) (updates : Updates.t)
      : M B (option AIPatch.t) :=
    try_catch
      (let* stored := getItem_patches in
       if negb (truthy stored) then ret None
       else
         let* storage := JSON_parse (default Blank stored) in
         match property storage documentId with
         | Missing => ret None
         | Inherited => throw
         | Own patches =>
             match findIndex (λ p, bool_decide (AIPatch.id p = patchId)) patches with
             | None => ret None
             | Some patchIndex =>
                 let* now := Date_now in
                 match patches !! patchIndex with
                 | None => throw
                 | Some old =>
                     let updatedPatch := with_updatedAt now (spread old updates) in
                     let patches' := <[patchIndex := updatedPatch]> patches in
                     setItem_patches (<[documentId := patches']> storage) ;;;
                     ret (Some updatedPatch)
                 end
             end
         end)
      (console_error "[patchStore] Failed to update patch:" ;;;
       ret None).

  (** Likewise [filter]. *)
Definition deletePatch (documentId patchId : string) : M B unit :=
    try_catch
      (let* stored := getItem_patches in
       if negb (truthy stored) then ret tt
       else
         let* storage := JSON_parse (default Blank stored) in
         match property storage documentId with
         | Missing => ret tt
         | Inherited => throw
         | Own patches =>
             let kept := List.filter (λ p, negb (bool_decide (AIPatch.id p = patchId))) patches in
             setItem_patches (<[documentId := kept]> storage)
         end)
      (console_error "[patchStore] Failed to delete patch:").
End patchStore.
End patchStore.

(** ** lib/store/commentStore.ts *)

Module commentStore.
Section commentStore.
Context {T : Type} `{Stored T}.
Abbreviation B := (Browser T).

Definition readFromStorage : M B (list T) :=
    λ b,
    if negb (has_window b) then Return [] b
    else
      try_catch
        (let* data := getItem_comments in
         if truthy data then JSON_parse (default Blank data) else ret [])
        (console_error "Failed to read comments from localStorage" ;;;
         ret [])
        b.

Definition writeToStorage (comments : list T) : M B unit :=
    λ b,
    if negb (has_window b) then Return tt b
    else
      try_catch
        (setItem_comments comments)
        (console_error "Failed to write comments to localStorage")
        b.

  (** [array.sort((a, b) => a.createdAt - b.createdAt)]: a stable sort, the
      earlier of two records with equal keys stays first. *)
Fixpoint insert_by_createdAt (x : T) (l : list T) : list T :=
    match l with
    | [] => [x]
    | y :: r =>
        if rec_createdAt x <=? rec_createdAt y then x :: y :: r
        else y :: insert_by_createdAt x r
    end.

Definition sort_by_createdAt (l : list T) : list T :=
    foldr insert_by_createdAt [] l.

Definition getDocumentComments (documentId : string) : M B (list T) :=
    let* comments := readFromStorage in
    ret (sort_by_createdAt
           (List.filter (λ c, bool_decide (rec_documentId c = documentId)) comments)).

Definition getComment (id : string) : M B (option T) :=
    let* comments := readFromStorage in
    ret (List.find (λ c, bool_decide (rec_id c = id)) comments).

Definition deleteComment (id : string) : M B unit :=
    let* comments := readFromStorage in
    let filtered := List.filter (λ c, negb (bool_decide (rec_id c = id))) comments in
    writeToStorage filtered.

Definition deleteDocumentComments (documentId : string) : M B unit :=
    let* comments := readFromStorage in
    let filtered :=
      List.filter (λ c, negb (bool_decide (rec_documentId c = documentId))) comments in
    writeToStorage filtered.
End commentStore.

Definition createComment (documentId content highlightedText : string)
      : M (Browser Comment.t) Comment.t :=
    let* now := Date_now in
    λ b,
    let newComment :=
      {| Comment.id := generated b;
         Comment.documentId := documentId;
         Comment.content := content;
         Comment.highlightedText := highlightedText;
         Comment.createdAt := now;
         Comment.updatedAt := now |} in
    (let* comments := readFromStorage in
     writeToStorage (comments ++ [newComment]) ;;;
     ret newComment) b.

Definition updateComment (id content : string) : M (Browser Comment.t) unit :=
    let* comments := readFromStorage in
    match findIndex (λ c, bool_decide (Comment.id c = id)) comments with
    | None => ret tt
    | Some index =>
        match comments !! index with
        | None => throw
        | Some old =>
            let* now := Date_now in
            let updated :=
              {| Comment.id := Comment.id old;
                 Comment.documentId := Comment.documentId old;
                 Comment.content := content;
                 Comment.highlightedText := Comment.highlightedText old;
                 Comment.createdAt := Comment.createdAt old;
                 Comment.updatedAt := now |} in
            writeToStorage (<[index := updated]> comments)
        end
    end.

  (** Modelled from the spec: [toggleResolveThread] of the comment store,
      whose thread-level functions are not among the sources. The resolved
      flag goes from false to true and from true to false by explicit action
      (§3), and the panel binds this one function, which takes nothing but
      the thread identifier, to both the Resolve and the Reopen button: it
      flips the flag of the thread with that identifier, in the way
      [updateComment] rewrites a record. *)
Definition toggleResolveThread (threadId : string) : M (Browser CommentThread.t) unit :=
    let* threads := readFromStorage in
    match findIndex (λ t, bool_decide (CommentThread.id t = threadId)) threads with
    | None => ret tt
    | Some index =>
        match threads !! index with
        | None => throw
        | Some old =>
            let* now := Date_now in
            let updated :=
              {| CommentThread.id := CommentThread.id old;
                 CommentThread.documentId := CommentThread.documentId old;
                 CommentThread.highlightedText := CommentThread.highlightedText old;
                 CommentThread.messages := CommentThread.messages old;
                 CommentThread.resolved := negb (CommentThread.resolved old);
                 CommentThread.createdAt := CommentThread.createdAt old;
                 CommentThread.updatedAt := now;
                 CommentThread.isAIThread := CommentThread.isAIThread old;
                 CommentThread.aiMode := CommentThread.aiMode old |} in
            writeToStorage (<[index := updated]> threads)
        end
    end.
End commentStore.

(** ** components/editor/CommentPanel.tsx *)

Inductive Event :=
| alert (message : string)
| onDeleteComment (commentId : string).

(** What the panel works on: the editor instance handed out by the editor
    methods (absent until the editor is mounted), the browser, the calls made
    to the outside, and the panel's own state ([threads], [commentData],
    [patches]). *)
Record World := {
  editor : option Editor;
  browser : Browser CommentThread.t;
  events : list Event;
  threads : list CommentThread.t;
  commentData : gmap string (string * nat);
  patches : gmap string AIPatch.t
}.

Definition with_editor (e : option Editor) (w : World) : World :=
  {| editor := e; browser := browser w; events := events w;
     threads := threads w; commentData := commentData w; patches := patches w |}.

Definition with_browser (b : Browser CommentThread.t) (w : World) : World :=
  {| editor := editor w; browser := b; events := events w;
     threads := threads w; commentData := commentData w; patches := patches w |}.

Definition with_events (ev : list Event) (w : World) : World :=
  {| editor := editor w; browser := browser w; events := ev;
     threads := threads w; commentData := commentData w; patches := patches w |}.

Definition setThreads (t : list CommentThread.t) : M World unit :=
  λ w, Return tt
    {| editor := editor w; browser := browser w; events := events w;
       threads := t; commentData := commentData w; patches := patches w |}.

Definition setCommentData (d : gmap string (string * nat)) : M World unit :=
  λ w, Return tt
    {| editor := editor w; browser := browser w; events := events w;
       threads := threads w; commentData := d; patches := patches w |}.

Definition setPatches (p : gmap string AIPatch.t) : M World unit :=
  λ w, Return tt
    {| editor := editor w; browser := browser w; events := events w;
       threads := threads w; commentData := commentData w; patches := p |}.

(** A store operation, run on the browser of the world. *)
Definition liftB {A} (m : M (Browser CommentThread.t) A) : M World A :=
  λ w, match m (browser w) with
       | Return a b => Return a (with_browser b w)
       | Raise b => Raise (with_browser b w)
       end.

Definition emit (ev : Event) : M World unit :=
  λ w, Return tt (with_events (events w ++ [ev]) w).

Definition getEditorInstance : M World (option Editor) :=
  λ w, Return (editor w) w.

(** [editor.chain(). ... .run()] *)
Definition run_chain (e : Editor) (chain : list Command) : M World unit :=
  λ w, Return tt (with_editor (Some (run chain e)) w).

(** [!thread.isAIThread] is false only for the value [true]. *)
Definition isAI (thread : CommentThread.t) : bool :=
  match CommentThread.isAIThread thread with
  | Some true => true
  | _ => false
  end.

Definition refreshCommentData (documentId : string) : M World unit :=
  let* editorMethods := getEditorInstance in
  match editorMethods with
  | None => ret tt
  | Some e =>
      let data := getAllCommentData e in
      setCommentData data ;;;
      let* storedThreads := liftB (commentStore.getDocumentComments documentId) in
      let orphanedThreads :=
        List.filter
          (λ thread, negb (isAI thread) &&
                     negb (bool_decide (is_Some (data !! CommentThread.id thread))))
          storedThreads in
      if 0 <? length orphanedThreads then
        forEach orphanedThreads
          (λ thread,
             liftB (commentStore.deleteComment (CommentThread.id thread)) ;;;
             emit (onDeleteComment (CommentThread.id thread))) ;;;
        let* reloaded := liftB (commentStore.getDocumentComments documentId) in
        setThreads reloaded
      else ret tt
  end.

Definition loadPatches (documentId : string) : M World unit :=
  let* allPatches := liftB (patchStore.getPatches documentId) in
  let patchMap : gmap string AIPatch.t :=
    fold_left (λ m patch, <[AIPatch.anchorId patch := patch]> m) allPatches ∅ in
  setPatches patchMap.

(** The refresh that [loadThreads] schedules with [setTimeout] runs as an
    event of its own, after the handler has returned. *)
Definition loadThreads (documentId : string) : M World unit :=
  let* docs := liftB (commentStore.getDocumentComments documentId) in
  setThreads docs.

(** The range that [handleAcceptPatch] works on: the anchor's, or else that
    of the first occurrence of the trimmed original text. *)
Definition locate (e : Editor) (threadId : string) (patch : AIPatch.t)
    : option (nat * nat) :=
  match findAnchorRange (Some e) threadId with
  | Some range => Some range
  | None =>
      let docText := getText e in
      let searchText := trim (AIPatch.originalText patch) in
      match indexOf docText searchText with
      | Some index => Some (index + 1, index + 1 + String.length searchText)
      | None => None
      end
  end.

Definition handleAcceptPatch (documentId threadId : string) (patch : AIPatch.t)
    : M World unit :=
  let* instance := getEditorInstance in
  match instance with
  | None => liftB (console_error "[Patch] Editor instance not available")
  | Some e =>
      match locate e threadId patch with
      | None =>
          liftB (console_error "[Patch] Could not find original text in document") ;;;
          emit (alert "Could not find the original text in the document. It may have been edited.")
      | Some range =>
          run_chain e
            [focus;
             setTextSelection range.1 range.2;
             insertContent (AIPatch.proposedText patch);
             unsetComment] ;;;
          liftB (patchStore.updatePatch documentId (AIPatch.id patch)
                   (Updates.only_status accepted)) ;;;
          liftB (commentStore.toggleResolveThread threadId) ;;;
          loadPatches documentId ;;;
          loadThreads documentId
      end
  end.

Definition handleRejectPatch (documentId threadId : string) (patch : AIPatch.t)
    : M World unit :=
  let* instance := getEditorInstance in
  match instance with
  | None => liftB (console_error "[Patch] Editor instance not available")
  | Some e =>
      match findAnchorRange (Some e) threadId with
      | Some range =>
          run_chain e [focus; setTextSelection range.1 range.2; unsetComment]
      | None => ret tt
      end ;;;
      liftB (patchStore.updatePatch documentId (AIPatch.id patch)
               (Updates.only_status rejected)) ;;;
      liftB (commentStore.toggleResolveThread threadId) ;;;
      loadPatches documentId ;;;
      loadThreads documentId
  end.

(** ** components/ai/PatchCard.tsx *)

Inductive Button := RejectButton | AcceptButton.

#[export] Instance Button_eq_dec : EqDecision Button.
Proof. solve_decision. Defined.

(** What the card renders for the user to act on: the two buttons with their
    handlers, for an open patch only. *)
Definition PatchCard (patch : AIPatch.t) (onAccept onReject : M World unit)
    (disabled : bool) : list (Button * (bool * M World unit)) :=
  let isResolved := negb (bool_decide (AIPatch.status patch = open)) in
  if negb isResolved
  then [(RejectButton, (disabled, onReject)); (AcceptButton, (disabled, onAccept))]
  else [].

(** A click on a button of a rendered card; a button that is not there, or
    is disabled, has no handler to run. *)
Definition click (b : Button) (card : list (Button * (bool * M World unit)))
    : M World unit :=
  match List.find (λ entry, bool_decide (entry.1 = b)) card with
  | Some (_, (false, handler)) => handler
  | _ => ret tt
  end.

(** The card that a thread card of the panel shows for the patch of its
    thread: [patches[thread.id] || null], rendered when there is one, with
    the panel's two handlers. *)
Definition threadPatchCard (documentId threadId : string) (w : World)
    : list (Button * (bool * M World unit)) :=
  match patches w !! threadId with
  | Some patch =>
      PatchCard patch
        (handleAcceptPatch documentId threadId patch)
        (handleRejectPatch documentId threadId patch)
        false
  | None => []
  end.

(** ** Notions the statements use *)

(** The text node [n] carries the annotation of the anchor. *)
Definition carries (anchorId : string) (n : Node) : bool :=
  match n with
  | Text _ marks => existsb (is_anchor anchorId) marks
  | _ => false
  end.

(** Some text node of the node, or of the fragment, carries the annotation:
    the identifier is present as an annotation. *)
Fixpoint annotated_node (anchorId : string) (n : Node) : bool :=
  match n with
  | Text _ marks => existsb (is_anchor anchorId) marks
  | Elem c =>
      (fix any (l : list Node) : bool :=
         match l with [] => false | x :: r => annotated_node anchorId x || any r end) c
  | Leaf _ _ => false
  end.

Fixpoint annotated (anchorId : string) (l : list Node) : bool :=
  match l with
  | [] => false
  | x :: r => annotated_node anchorId x || annotated anchorId r
  end.

(** The matching text nodes of a document, in document order, each with the
    position where it starts. *)
Definition matching (anchorId : string) (d : list Node) : list (Node * nat) :=
  List.filter (λ v, carries anchorId v.1) (visits 0 d).



(** ** Sample documents and worlds *)

Definition anchor_mark (X : string) : Mark :=
  {| mark_type := "comment"; commentId := Some X |}.

Definition bold : Mark := {| mark_type := "bold"; commentId := None |}.

Definition editor_of (d : list Node) : Editor :=
  {| doc := d; selection := (0, 0); transactions := 0 |}.

(** "Hello world!" with "world" anchored to [t1], in two text nodes. *)
Definition doc_hello : list Node :=
  [Elem [Text "Hello " [];
         Text "wor" [anchor_mark "t1"];
         Text "ld" [bold; anchor_mark "t1"];
         Text "!" []]].

(** Two paragraphs; [t1] annotates "one" and, further on, "three". *)
Definition doc_disjoint : list Node :=
  [Elem [Text "intro" []];
   Elem [Text "one" [anchor_mark "t1"];
         Text " two " [];
         Text "three" [anchor_mark "t1"];
         Text " four" []]].

(** The state after a run of calls, from the matching nodes among them. *)
Definition scan_result (found : option nat * option nat) (ms : list (Node * nat))
    : option nat * option nat :=
  match ms with
  | [] => found
  | first :: rest =>
      let final := List.last rest first in
      (Some (default first.2 found.1), Some (final.2 + nodeSize final.1))
  end.

(** ** Outcomes of store operations *)

Definition returned {S A} (o : Outcome S A) : option A :=
  match o with Return a _ => Some a | Raise _ => None end.

Definition final {S A} (o : Outcome S A) : S :=
  match o with Return _ s => s | Raise s => s end.

(** Both persisted stores hold what they held. *)
Definition same_items {T} (b b' : Browser T) : Prop :=
  patches_item b' = patches_item b ∧ comments_item b' = comments_item b.

(** The failures of storage: it cannot be reached (no window, or access
    throws), or the stored string is not JSON, or writing throws. *)
Definition patches_unreadable {T} (b : Browser T) : Prop :=
  has_window b && readable b = false ∨ patches_item b = Some Garbage.

Definition comments_unreadable {T} (b : Browser T) : Prop :=
  has_window b && readable b = false ∨ comments_item b = Some Garbage.

Definition unwritable {T} (b : Browser T) : Prop :=
  has_window b && writable b = false.

(** The store, the document or the patch that [updatePatch] is to update
    does not exist. *)
Definition patch_missing {T} (b : Browser T) (documentId patchId : string) : Prop :=
  match patches_item b with
  | None | Some Blank => True
  | Some Garbage => False
  | Some (Json storage) =>
      match storage !! documentId with
      | None => True
      | Some patches => Forall (λ p, AIPatch.id p ≠ patchId) patches
      end
  end.

(** Sample records and browsers. *)
Definition patch1 : AIPatch.t :=
  AIPatch.mk "p1" "d" "t1" "foo" "XYZ" open 1 1.

Definition thread1 (resolved : bool) : CommentThread.t :=
  CommentThread.mk "t1" "d" "world" [] resolved 1 1 None None.

Definition ai_thread : CommentThread.t :=
  CommentThread.mk "t2" "d" "Hello" [] false 2 2 (Some true) (Some "critique").

Definition browser_with {T} (readable writable : bool)
    (p : option (Item PatchStorage)) (c : option (Item (list T))) : Browser T :=
  {| has_window := true; readable := readable; writable := writable;
     now := 5; random := "k3x9"; generated := "c7"; console := [];
     patches_item := p; comments_item := c |}.

Definition world_with (d : list Node) (b : Browser CommentThread.t) : World :=
  {| editor := Some (editor_of d); browser := b; events := [];
     threads := []; commentData := ∅; patches := ∅ |}.

(** Storage that works. *)
Definition healthy {T} (b : Browser T) : Prop :=
  has_window b = true ∧ readable b = true ∧ writable b = true.

(** An orphaned thread of the document: one of its threads, not an AI
    thread, whose anchor annotation is nowhere in the editor. *)
Definition orphaned (documentId : string) (e : Editor) (t : CommentThread.t) : bool :=
  bool_decide (CommentThread.documentId t = documentId) &&
  negb (isAI t) &&
  negb (annotated (CommentThread.id t) (doc e)).

(** "Hello world" with "world" anchored to the thread [t1]. *)
Definition doc_hello_world : list Node :=
  [Elem [Text "Hello " []; Text "world" [anchor_mark "t1"]]].

(** The threads that survive the deletion of the identifiers of [l]. *)
Definition survives (l : list CommentThread.t) (c : CommentThread.t) : bool :=
  forallb (λ t, negb (bool_decide (CommentThread.id c = CommentThread.id t))) l.

(** What the cleanup leaves of the stored threads: those that do not have the
    identifier of an orphaned thread. *)
Definition cleaned (documentId : string) (e : Editor) (stored : list CommentThread.t)
    : list CommentThread.t :=
  List.filter
    (λ t, negb (existsb
                  (λ o, orphaned documentId e o &&
                        bool_decide (CommentThread.id o = CommentThread.id t))
                  stored))
    stored.

(** What a handler does once the document is dealt with: the two store
    updates and the two reloads, in the order of the code. *)
Definition record_decision (documentId threadId : string) (patch : AIPatch.t)
    (decision : AIPatchStatus) : M World unit :=
  liftB (patchStore.updatePatch documentId (AIPatch.id patch)
           (Updates.only_status decision)) ;;;
  liftB (commentStore.toggleResolveThread threadId) ;;;
  loadPatches documentId ;;;
  loadThreads documentId.

(** The two persisted stores after the two store updates of a handler. *)
Definition decided (documentId threadId : string) (patch : AIPatch.t)
    (decision : AIPatchStatus) (b : Browser CommentThread.t) : Browser CommentThread.t :=
  final (commentStore.toggleResolveThread threadId
           (final (patchStore.updatePatch documentId (AIPatch.id patch)
                     (Updates.only_status decision) b))).

(** The chain of [handleAcceptPatch] on a range. *)
Definition accept_chain (range : nat * nat) (patch : AIPatch.t) : list Command :=
  [focus;
   setTextSelection range.1 range.2;
   insertContent (AIPatch.proposedText patch);
   unsetComment].

(** The chain of [handleRejectPatch] on a range. *)
Definition reject_chain (range : nat * nat) : list Command :=
  [focus; setTextSelection range.1 range.2; unsetComment].

Definition not_found_alert : Event :=
  alert "Could not find the original text in the document. It may have been edited.".

(** The range as the specification words it, to be compared with [locate]:
    the anchor's, or else that of the first occurrence of the original text
    snapshot, searched verbatim. *)
Definition locate_verbatim (e : Editor) (threadId : string) (patch : AIPatch.t)
    : option (nat * nat) :=
  match findAnchorRange (Some e) threadId with
  | Some range => Some range
  | None =>
      match indexOf (getText e) (AIPatch.originalText patch) with
      | Some index =>
          Some (index + 1, index + 1 + String.length (AIPatch.originalText patch))
      | None => None
      end
  end.

(** The patch that proposes "planet" for the anchored "world". *)
Definition patch_world : AIPatch.t :=
  AIPatch.mk "p1" "d" "t1" "world" "planet" open 1 1.

Definition world_hello (resolved : bool) : World :=
  world_with doc_hello_world
    (browser_with true true
       (Some (Json {[ "d" := [patch_world] ]}))
       (Some (Json [thread1 resolved]))).

(** A patch whose snapshot starts with a space, on a document without
    annotation. *)
Definition patch_spaced : AIPatch.t :=
  AIPatch.mk "p2" "d" "t9" " foo" "XYZ" open 1 1.

Definition world_plain (text : string) : World :=
  world_with [Elem [Text text []]] (browser_with true true None None).

(** The panel with its state loaded: the card of thread [t1] shows the open
    patch. *)
Definition world_loaded : World :=
  {| editor := Some (editor_of doc_hello_world);
     browser :=
       browser_with true true
         (Some (Json {[ "d" := [patch_world] ]}))
         (Some (Json [thread1 false]));
     events := [];
     threads := [thread1 false];
     commentData := ∅;
     patches := {[ "t1" := patch_world ]} |}.

(** "world world" with the first "world" anchored to the thread [t1], the
    open patch that proposes "planet" for it, and that patch as the store
    holds it once accepted. *)
Definition doc_world_world : list Node :=
  [Elem [Text "world" [anchor_mark "t1"]; Text " world" []]].

Definition world_twice : World :=
  world_with doc_world_world
    (browser_with true true
       (Some (Json {[ "d" := [patch_world] ]}))
       (Some (Json [thread1 false]))).

Definition patch_world_accepted : AIPatch.t :=
  AIPatch.mk "p1" "d" "t1" "world" "planet" accepted 1 5.

(** The panel after that accept: the document reads "planet world", the
    annotation is gone, and the card of [t1] shows the accepted patch. *)
Definition world_accepted : World :=
  {| editor := Some (editor_of [Elem [Text "planet world" []]]);
     browser :=
       browser_with true true
         (Some (Json {[ "d" := [patch_world_accepted] ]}))
         (Some (Json [thread1 true]));
     events := [];
     threads := [thread1 true];
     commentData := ∅;
     patches := {[ "t1" := patch_world_accepted ]} |}.

From stdpp Require Import sorting.

(** ** Further code of the panel (components/editor/CommentPanel.tsx) *)

(** [commentData[thread.id]?.position ?? Infinity]: [None] is Infinity. *)
Definition position_of (data : gmap string (string * nat)) (thread : CommentThread.t)
    : option nat :=
  snd <$> data !! CommentThread.id thread.

(** [posA - posB <= 0], the comparator of [sortedThreads] not asking for a
    swap: Infinity minus Infinity is NaN, which a sort takes for 0. *)
Definition position_le (posA posB : option nat) : bool :=
  match posA, posB with
  | Some a, Some b => a <=? b
  | Some _, None => true
  | None, Some _ => false
  | None, None => true
  end.

(** [[...threads].sort((a, b) => posA - posB)], a stable sort. *)
Fixpoint insert_by_position (data : gmap string (string * nat))
    (x : CommentThread.t) (l : list CommentThread.t) : list CommentThread.t :=
  match l with
  | [] => [x]
  | y :: r =>
      if position_le (position_of data x) (position_of data y) then x :: y :: r
      else y :: insert_by_position data x r
  end.

Definition sortedThreads (data : gmap string (string * nat))
    (threads : list CommentThread.t) : list CommentThread.t :=
  foldr (insert_by_position data) [] threads.

(** [t.isAIThread && t.messages.length === 0] *)
Definition awaitsPrompt (t : CommentThread.t) : bool :=
  isAI t && (length (CommentThread.messages t) =? 0).

Definition aiThreadsAwaitingPrompt (sorted : list CommentThread.t) : list CommentThread.t :=
  List.filter awaitsPrompt sorted.

Definition unresolvedThreads (sorted : list CommentThread.t) : list CommentThread.t :=
  List.filter (λ t, negb (CommentThread.resolved t) && negb (awaitsPrompt t)) sorted.

Definition resolvedThreads (sorted : list CommentThread.t) : list CommentThread.t :=
  List.filter CommentThread.resolved sorted.

(** The updater that [toggleExpanded] passes to [setExpandedThreads]. *)
Definition toggleExpanded (threadId : string) (prev : gset string) : gset string :=
  if decide (threadId ∈ prev) then prev ∖ {[threadId]} else prev ∪ {[threadId]}.

(** [handleMouseMove]: the panel width after a mouse move, in pixels. *)
Definition handleMouseMove (isResizing : bool) (innerWidth clientX panelWidth : Z) : Z :=
  if negb isResizing then panelWidth
  else
    let newWidth := (innerWidth - clientX)%Z in
    let constrainedWidth := Z.min (Z.max newWidth 280) 800 in
    constrainedWidth.

(** The [disabled] attribute of the resolve button of a thread card:
    [patch && patch.status !== "open"]. *)
Definition resolveDisabled (patch : option AIPatch.t) : bool :=
  match patch with
  | Some p => negb (bool_decide (AIPatch.status p = open))
  | None => false
  end.

(** ** The first comment panel (src/components/editor/CommentPanel.tsx) *)

(** [formatTime], with [Date.now()] and the rendering of
    [new Date(timestamp).toLocaleDateString()] passed in. *)
Definition formatTime (toLocaleDateString : Z → string) (now timestamp : Z) : string :=
  let diff := (now - timestamp)%Z in
  if (diff <? 60000)%Z then "just now"
  else if (diff <? 3600000)%Z then pretty (diff / 60000)%Z +:+ "m ago"
  else if (diff <? 86400000)%Z then pretty (diff / 3600000)%Z +:+ "h ago"
  else toLocaleDateString timestamp.

(** ** components/editor/SelectionBubble.tsx *)

Module SelectionBubble.

(** The state of the bubble: where it is shown (not shown for [None]; the
    coordinates are of no concern here and stay abstract), the selected
    text, the clicking flag, and the calls made to [onAddComment]. *)
Record State (Pos : Type) := {
  position : option Pos;
  selectedText : string;
  isClicking : bool;
  added : list string
}.
Arguments position {Pos}.
Arguments selectedText {Pos}.
Arguments isClicking {Pos}.
Arguments added {Pos}.

Definition initial {Pos} : State Pos :=
  {| position := None; selectedText := ""; isClicking := false; added := [] |}.

(** What [updatePosition] reads: the editor, if any, with its selection and
    the text between its ends, and the place computed from the selection of
    the page, if it has one. *)
Record Reading (Pos : Type) := {
  editor_selection : option (nat * nat * string);
  page_selection : option Pos
}.
Arguments editor_selection {Pos}.
Arguments page_selection {Pos}.

Definition updatePosition {Pos} (r : Reading Pos) (s : State Pos) : State Pos :=
  match editor_selection r with
  | None =>
      {| position := None; selectedText := selectedText s;
         isClicking := isClicking s; added := added s |}
  | Some (from, to, text) =>
      if from =? to then
        {| position := None; selectedText := "";
           isClicking := isClicking s; added := added s |}
      else if String.length (trim text) <? 2 then
        {| position := None; selectedText := "";
           isClicking := isClicking s; added := added s |}
      else
        {| position := page_selection r; selectedText := text;
           isClicking := isClicking s; added := added s |}
  end.

Definition handleBlur {Pos} (s : State Pos) : State Pos :=
  if isClicking s then s
  else {| position := None; selectedText := selectedText s;
          isClicking := isClicking s; added := added s |}.

Definition handleClick {Pos} (s : State Pos) : State Pos :=
  match selectedText s with
  | EmptyString =>
      {| position := position s; selectedText := selectedText s;
         isClicking := false; added := added s |}
  | text =>
      {| position := None; selectedText := "";
         isClicking := false; added := added s ++ [text] |}
  end.

Definition handleMouseDown {Pos} (s : State Pos) : State Pos :=
  {| position := position s; selectedText := selectedText s;
     isClicking := true; added := added s |}.

(** The events of the component. The button, and with it its two handlers,
    is there only while the bubble is shown; a scroll updates the position
    only while the bubble is shown. *)
Inductive Event (Pos : Type) :=
| SelectionUpdate (r : Reading Pos)
| Blur
| Scroll (r : Reading Pos)
| MouseDownOnButton
| ClickOnButton.
Arguments SelectionUpdate {Pos}.
Arguments Blur {Pos}.
Arguments Scroll {Pos}.
Arguments MouseDownOnButton {Pos}.
Arguments ClickOnButton {Pos}.

Definition step {Pos} (s : State Pos) (ev : Event Pos) : State Pos :=
  match ev with
  | SelectionUpdate r => updatePosition r s
  | Blur => handleBlur s
  | Scroll r => match position s with Some _ => updatePosition r s | None => s end
  | MouseDownOnButton =>
      match position s with Some _ => handleMouseDown s | None => s end
  | ClickOnButton =>
      match position s with Some _ => handleClick s | None => s end
  end.

Definition run {Pos} (events : list (Event Pos)) : State Pos :=
  fold_left step events initial.

End SelectionBubble.

(** ** What the stores hold, as their readers see it *)

Definition patches_of {T} (b : Browser T) : PatchStorage :=
  match patches_item b with
  | Some (Json storage) => storage
  | _ => ∅
  end.

Definition comments_of {T} (b : Browser T) : list T :=
  match comments_item b with
  | Some (Json comments) => comments
  | _ => []
  end.

(** The stored string, if any, parses: it is the JSON of a value of the
    store's shape. *)
Definition patches_parse {T} (b : Browser T) : Prop :=
  patches_item b ≠ Some Garbage.

Definition comments_parse {T} (b : Browser T) : Prop :=
  comments_item b ≠ Some Garbage.

Set Warnings "-clear-no-such-hyp".
(** * Properties *)

(** ** The node tree *)

Lemma Node_nested_ind (P : Node → Prop) :
  (∀ s marks, P (Text s marks)) →
  (∀ c, Forall P c → P (Elem c)) →
  (∀ b t, P (Leaf b t)) →
  ∀ n, P n.
Proof.
  intros HT HE HL.
  fix IH 1. intros [s marks|c|b t].
  - apply HT.
  - apply HE. induction c as [|x r IHr]; constructor; [apply IH | exact IHr].
  - apply HL.
Qed.

Lemma nodeSize_Elem c : nodeSize (Elem c) = 2 + fragSize c.
Proof. reflexivity. Qed.

Lemma visits_node_Elem pos c :
  visits_node pos (Elem c) = (Elem c, pos) :: visits (S pos) c.
Proof. reflexivity. Qed.

Lemma annotated_node_Elem X c : annotated_node X (Elem c) = annotated X c.
Proof. simpl. induction c as [|x r IH]; simpl; congruence. Qed.

Lemma fragSize_app l1 l2 : fragSize (l1 ++ l2) = fragSize l1 + fragSize l2.
Proof. induction l1 as [|x r IH]; simpl; lia. Qed.


Lemma annotated_app X l1 l2 :
  annotated X (l1 ++ l2) = annotated X l1 || annotated X l2.
Proof. induction l1 as [|x r IH]; simpl; [done|]. by rewrite IH, orb_assoc. Qed.

(** ** findAnchorRange *)

(** The loop over the marks of one text node. *)
Lemma scan_marks X pos size marks found :
  fold_left (scan_mark X pos size) marks found =
  if existsb (is_anchor X) marks
  then (Some (default pos found.1), Some (pos + size))
  else found.
Proof.
  revert found. induction marks as [|m r IH]; intros found; simpl; [done|].
  rewrite IH. unfold scan_mark.
  destruct (is_anchor X m); simpl.
  - destruct found as [[f|] t]; simpl; by destruct (existsb _ r).
  - done.
Qed.

Lemma scan_node_carries X found n pos :
  scan_node X found n pos =
  if carries X n
  then (Some (default pos found.1), Some (pos + nodeSize n))
  else found.
Proof. destruct n; simpl; [apply scan_marks|done..]. Qed.

Lemma last_cons {A} (x d : A) l : List.last (x :: l) d = List.last l x.
Proof.
  revert x d. induction l as [|y r IH]; intros x d; [done|].
  change (List.last (x :: y :: r) d) with (List.last (y :: r) d).
  by rewrite !IH.
Qed.

Lemma scan_visits X vs found :
  fold_left (λ acc v, scan_node X acc v.1 v.2) vs found =
  scan_result found (List.filter (λ v, carries X v.1) vs).
Proof.
  revert found. induction vs as [|[n p] r IH]; intros found; simpl; [done|].
  rewrite IH, scan_node_carries. destruct (carries X n) eqn:Hc; simpl; [|done].
  destruct (List.filter _ r) as [|v r'] eqn:Hf; [done|].
  unfold scan_result. by rewrite (last_cons v).
Qed.

(** What the code computes, in terms of the matching text nodes. *)
Lemma findAnchorRange_matching e X :
  findAnchorRange (Some e) X =
  match matching X (doc e) with
  | [] => None
  | first :: rest =>
      let final := List.last rest first in
      Some (first.2, final.2 + nodeSize final.1)
  end.
Proof.
  unfold findAnchorRange, descendants, matching. rewrite scan_visits.
  by destruct (List.filter _ _).
Qed.

Lemma matching_none_node X n pos :
  annotated_node X n = false →
  List.filter (λ v, carries X v.1) (visits_node pos n) = [].
Proof.
  revert pos. induction n as [s marks|c IH|b t] using Node_nested_ind; intros pos Hn.
  - simpl in *. by rewrite Hn.
  - rewrite visits_node_Elem, annotated_node_Elem in *. simpl.
    generalize (S pos). clear pos.
    induction IH as [|x r Hx _ IHr]; intros p; simpl in *; [done|].
    apply orb_false_iff in Hn as [Hn1 Hn2].
    rewrite List.filter_app, Hx, IHr; done.
  - done.
Qed.

Lemma matching_none X l pos :
  annotated X l = false →
  List.filter (λ v, carries X v.1) (visits pos l) = [].
Proof.
  revert pos. induction l as [|x r IH]; intros pos Hl; simpl in *; [done|].
  apply orb_false_iff in Hl as [H1 H2].
  by rewrite List.filter_app, matching_none_node, IH.
Qed.

(** Conversely, a document without matching text node is not annotated. *)
Lemma matching_some_node X n pos :
  annotated_node X n = true →
  List.filter (λ v, carries X v.1) (visits_node pos n) ≠ [].
Proof.
  revert pos. induction n as [s marks|c IH|b t] using Node_nested_ind; intros pos Hn.
  - simpl in *. by rewrite Hn.
  - rewrite visits_node_Elem, annotated_node_Elem in *. simpl.
    revert Hn. generalize (S pos). clear pos.
    induction IH as [|x r Hx _ IHr]; intros p Hn; simpl in *; [done|].
    rewrite List.filter_app. apply orb_true_iff in Hn as [Hn|Hn].
    + specialize (Hx p Hn). by destruct (List.filter _ (visits_node p x)).
    + specialize (IHr (p + nodeSize x) Hn).
      destruct (List.filter _ (visits_node p x)); [done|done].
  - done.
Qed.

Lemma matching_some X l pos :
  annotated X l = true →
  List.filter (λ v, carries X v.1) (visits pos l) ≠ [].
Proof.
  revert pos. induction l as [|x r IH]; intros pos Hl; simpl in *; [done|].
  rewrite List.filter_app. apply orb_true_iff in Hl as [Hl|Hl].
  - pose proof (matching_some_node X x pos Hl). by destruct (List.filter _ (visits_node pos x)).
  - specialize (IH (pos + nodeSize x) Hl). by destruct (List.filter _ (visits_node pos x)).
Qed.

Lemma findAnchorRange_None e X :
  findAnchorRange (Some e) X = None ↔ annotated X (doc e) = false.
Proof.
  rewrite findAnchorRange_matching. unfold matching. split.
  - intros H. destruct (annotated X (doc e)) eqn:Ha; [|done].
    apply (matching_some X _ 0) in Ha. by destruct (List.filter _ _).
  - intros Ha. by rewrite matching_none.
Qed.




Lemma visits_cons pos x r :
  visits pos (x :: r) = visits_node pos x ++ visits (pos + nodeSize x) r.
Proof. reflexivity. Qed.






(** C6. When the identifier is not present as an annotation of the document,
    and when there is no editor, anchor resolution returns "not found"; the
    function is total, there is no other outcome. *)
Theorem C6_findAnchorRange_not_found (editor : option Editor) (X : string) :
  (∀ e, editor = Some e → annotated X (doc e) = false) →
  findAnchorRange editor X = None.
Proof.
  intros H. destruct editor as [e|]; [|done].
  apply findAnchorRange_None. by apply H.
Qed.

Lemma C6_witness :
  findAnchorRange (Some (editor_of doc_hello)) "t2" = None ∧
  findAnchorRange None "t1" = None.
Proof.
  split.
  - apply C6_findAnchorRange_not_found. intros e [= <-]. reflexivity.
  - apply C6_findAnchorRange_not_found. intros e [=].
Defined.

(** ** The stores *)

Lemma findIndex_Some {A} (f : A → bool) l i :
  findIndex f l = Some i →
  ∃ x, l !! i = Some x ∧ f x = true ∧ ∀ j y, j < i → l !! j = Some y → f y = false.
Proof.
  revert i. induction l as [|a r IH]; intros i; simpl; [done|].
  destruct (f a) eqn:Ha.
  - intros [= <-]. exists a. repeat split; [done|]. intros j y Hj. lia.
  - destruct (findIndex f r) as [k|] eqn:Hk; simpl; [|done].
    intros [= <-]. destruct (IH k eq_refl) as (x & Hx & Hfx & Hlt).
    exists x. repeat split; [done..|].
    intros [|j] y Hj; simpl; [by intros [= <-]|].
    apply Hlt. lia.
Qed.

Lemma findIndex_None {A} (f : A → bool) l :
  findIndex f l = None → Forall (λ x, f x = false) l.
Proof.
  induction l as [|a r IH]; simpl; [constructor|].
  destruct (f a) eqn:Ha; [done|].
  destruct (findIndex f r); simpl; [done|]. intros _. constructor; auto.
Qed.

Lemma findIndex_missing {A} (f : A → bool) l :
  Forall (λ x, f x = false) l → findIndex f l = None.
Proof.
  induction 1 as [|a r Ha _ IH]; simpl; [done|]. by rewrite Ha, IH.
Qed.

Ltac unfold_store :=
  unfold patchStore.getOpenPatchByAnchor, patchStore.getPatches,
    patchStore.createPatch, patchStore.updatePatch, patchStore.deletePatch,
    commentStore.createComment, commentStore.updateComment,
    commentStore.getDocumentComments, commentStore.getComment,
    commentStore.deleteComment, commentStore.deleteDocumentComments,
    commentStore.readFromStorage, commentStore.writeToStorage,
    JSON_parse, getItem_patches, setItem_patches, getItem_comments,
    setItem_comments, console_error, Date_now, truthy,
    property, bind, ret, throw, try_catch,
    same_items, unwritable, patches_unreadable, comments_unreadable in *.

(** [updatePatch], case by case. *)
Lemma updatePatch_run {T} (b : Browser T) d pid u :
  patchStore.updatePatch d pid u b =
  if has_window b && readable b then
    match patches_item b with
    | None | Some Blank => Return None b
    | Some Garbage =>
        Return None (with_console (console b ++ ["[patchStore] Failed to update patch:"]) b)
    | Some (Json storage) =>
        match storage !! d with
        | None =>
            if inherited d
            then Return None
                   (with_console (console b ++ ["[patchStore] Failed to update patch:"]) b)
            else Return None b
        | Some patches =>
            match findIndex (λ p, bool_decide (AIPatch.id p = pid)) patches with
            | None => Return None b
            | Some i =>
                match patches !! i with
                | None =>
                    Return None
                      (with_console (console b ++ ["[patchStore] Failed to update patch:"]) b)
                | Some old =>
                    let updated := patchStore.with_updatedAt (now b) (patchStore.spread old u) in
                    if has_window b && writable b then
                      Return (Some updated)
                        (with_patches_item
                           (Some (Json (<[d := <[i := updated]> patches]> storage))) b)
                    else
                      Return None
                        (with_console (console b ++ ["[patchStore] Failed to update patch:"]) b)
                end
            end
        end
    end
  else Return None (with_console (console b ++ ["[patchStore] Failed to update patch:"]) b).
Proof.
  unfold_store.
  destruct (has_window b && readable b); [|done].
  destruct (patches_item b) as [[| |storage]|]; simpl; try done.
  destruct (storage !! d) as [patches|]; [|by destruct (inherited d)].
  destruct (findIndex _ patches) as [i|]; [|done].
  destruct (patches !! i) as [old|]; [|done].
  by destruct (has_window b && writable b).
Qed.

(** With working storage, a patch that exists is updated. *)
Lemma updatePatch_succeeds {T} (b : Browser T) d pid u storage patches :
  healthy b →
  patches_item b = Some (Json storage) →
  storage !! d = Some patches →
  Exists (λ p, AIPatch.id p = pid) patches →
  ∃ updated b', patchStore.updatePatch d pid u b = Return (Some updated) b'.
Proof.
  intros (Hw & Hr & Hwr) Hitem Hd Hex.
  rewrite updatePatch_run, Hw, Hr, Hwr, Hitem, Hd. cbn [andb].
  destruct (findIndex _ patches) as [i|] eqn:Hidx.
  - destruct (findIndex_Some _ _ _ Hidx) as (old & -> & _). by eexists _, _.
  - apply findIndex_None in Hidx. apply Exists_exists in Hex as (p & Hp & Hid).
    rewrite Forall_forall in Hidx. specialize (Hidx p Hp).
    by rewrite bool_decide_eq_true_2 in Hidx.
Qed.

(** C10. [updatePatch] keeps the identifier, the document and the creation
    time of the record it updates and sets its update time to the current
    time; the other patches of the document and the patches of the other
    documents stay as they are; when the store, the document or the patch
    does not exist, the store is unchanged and the result is null. With
    working storage a patch that exists is updated. *)
Theorem C10_updatePatch_frame {T} (b : Browser T) (documentId patchId : string)
    (updates : Updates.t) :
  ∃ r b',
    patchStore.updatePatch documentId patchId updates b = Return r b' ∧
    comments_item b' = comments_item b ∧
    match r with
    | Some updated =>
        ∃ storage patches i old,
          patches_item b = Some (Json storage) ∧
          storage !! documentId = Some patches ∧
          patches !! i = Some old ∧
          AIPatch.id old = patchId ∧
          updated = patchStore.with_updatedAt (now b) (patchStore.spread old updates) ∧
          AIPatch.id updated = AIPatch.id old ∧
          AIPatch.documentId updated = AIPatch.documentId old ∧
          AIPatch.createdAt updated = AIPatch.createdAt old ∧
          AIPatch.updatedAt updated = now b ∧
          ∃ storage' patches',
            patches_item b' = Some (Json storage') ∧
            storage' !! documentId = Some patches' ∧
            patches' !! i = Some updated ∧
            length patches' = length patches ∧
            (∀ j, j ≠ i → patches' !! j = patches !! j) ∧
            (∀ d, d ≠ documentId → storage' !! d = storage !! d)
    | None => patches_item b' = patches_item b
    end ∧
    (patch_missing b documentId patchId → r = None ∧ patches_item b' = patches_item b) ∧
    (healthy b →
     ∀ storage patches,
       patches_item b = Some (Json storage) →
       storage !! documentId = Some patches →
       Exists (λ p, AIPatch.id p = patchId) patches →
       is_Some r).
Proof.
  assert (Hok : ∀ r b',
    patchStore.updatePatch documentId patchId updates b = Return r b' →
    healthy b →
    ∀ storage patches,
      patches_item b = Some (Json storage) →
      storage !! documentId = Some patches →
      Exists (λ p, AIPatch.id p = patchId) patches →
      is_Some r).
  { intros r b' Hrun Hh storage patches Hitem Hd Hex.
    destruct (updatePatch_succeeds b documentId patchId updates storage patches)
      as (updated & b'' & Hrun'); try done.
    rewrite Hrun in Hrun'. injection Hrun' as -> _. by eexists. }
  cut (∃ r b',
    patchStore.updatePatch documentId patchId updates b = Return r b' ∧
    comments_item b' = comments_item b ∧
    match r with
    | Some updated =>
        ∃ storage patches i old,
          patches_item b = Some (Json storage) ∧
          storage !! documentId = Some patches ∧
          patches !! i = Some old ∧
          AIPatch.id old = patchId ∧
          updated = patchStore.with_updatedAt (now b) (patchStore.spread old updates) ∧
          AIPatch.id updated = AIPatch.id old ∧
          AIPatch.documentId updated = AIPatch.documentId old ∧
          AIPatch.createdAt updated = AIPatch.createdAt old ∧
          AIPatch.updatedAt updated = now b ∧
          ∃ storage' patches',
            patches_item b' = Some (Json storage') ∧
            storage' !! documentId = Some patches' ∧
            patches' !! i = Some updated ∧
            length patches' = length patches ∧
            (∀ j, j ≠ i → patches' !! j = patches !! j) ∧
            (∀ d, d ≠ documentId → storage' !! d = storage !! d)
    | None => patches_item b' = patches_item b
    end ∧
    (patch_missing b documentId patchId → r = None ∧ patches_item b' = patches_item b)).
  { intros (r & b' & Hrun & H1 & H2 & H3). exists r, b'.
    split; [done|]. split; [done|]. split; [done|]. split; [done|].
    by apply (Hok r b'). }
  clear Hok.
  rewrite updatePatch_run. unfold patch_missing.
  destruct (has_window b && readable b); [|by eauto 10].
  destruct (patches_item b) as [[| |storage]|] eqn:Hitem; try by eauto 10.
  destruct (storage !! documentId) as [patches|] eqn:Hdoc;
    [|destruct (inherited documentId); by eauto 10].
  destruct (findIndex _ patches) as [i|] eqn:Hidx.
  - destruct (findIndex_Some _ _ _ Hidx) as (old & Hold & Hid & _).
    apply bool_decide_eq_true in Hid. rewrite Hold. cbv zeta.
    assert (Hnot : ¬ Forall (λ p, AIPatch.id p ≠ patchId) patches).
    { intros Hall. rewrite Forall_lookup in Hall. by apply (Hall i old). }
    destruct (has_window b && writable b); [|by eauto 10].
    eexists _, _. split; [done|]. split; [done|]. split; [|done].
    exists storage, patches, i, old. repeat split; try done.
    eexists _, _. split; [done|]. split; [apply lookup_insert_eq|].
    split; [apply list_lookup_insert_eq; by eapply lookup_lt_Some|].
    split; [apply length_insert|].
    split; [intros j Hj; by apply list_lookup_insert_ne|].
    intros d Hd. by apply lookup_insert_ne.
  - eexists _, _. repeat split; try done.
Qed.

(** The primitive read and write of each store, case by case. *)
Lemma getPatches_run {T} (b : Browser T) d :
  patchStore.getPatches d b =
  if negb (has_window b) then Return [] b
  else if readable b then
    match patches_item b with
    | None | Some Blank => Return [] b
    | Some Garbage =>
        Return [] (with_console (console b ++ ["[patchStore] Failed to get patches:"]) b)
    | Some (Json storage) => Return (default [] (storage !! d)) b
    end
  else Return [] (with_console (console b ++ ["[patchStore] Failed to get patches:"]) b).
Proof.
  unfold_store. destruct (has_window b); [|done]. simpl.
  destruct (readable b); [|done].
  by destruct (patches_item b) as [[| |storage]|].
Qed.

Lemma readFromStorage_run {T} `{Stored T} (b : Browser T) :
  commentStore.readFromStorage b =
  if negb (has_window b) then Return [] b
  else if readable b then
    match comments_item b with
    | None | Some Blank => Return [] b
    | Some Garbage =>
        Return [] (with_console (console b ++ ["Failed to read comments from localStorage"]) b)
    | Some (Json comments) => Return comments b
    end
  else Return [] (with_console (console b ++ ["Failed to read comments from localStorage"]) b).
Proof.
  unfold_store. destruct (has_window b); [|done]. simpl.
  destruct (readable b); [|done].
  by destruct (comments_item b) as [[| |comments]|].
Qed.

Lemma writeToStorage_run {T} `{Stored T} (b : Browser T) comments :
  commentStore.writeToStorage comments b =
  if negb (has_window b) then Return tt b
  else if writable b then Return tt (with_comments_item (Some (Json comments)) b)
  else Return tt (with_console (console b ++ ["Failed to write comments to localStorage"]) b).
Proof.
  unfold_store. destruct (has_window b); [|done]. simpl. by destruct (writable b).
Qed.

(** A read leaves everything but the console as it was. *)
Lemma readFromStorage_frame {T} `{Stored T} (b : Browser T) :
  ∃ comments b', commentStore.readFromStorage b = Return comments b' ∧
    has_window b' = has_window b ∧ readable b' = readable b ∧
    writable b' = writable b ∧ now b' = now b ∧
    patches_item b' = patches_item b ∧ comments_item b' = comments_item b ∧
    (comments_unreadable b → comments = []) ∧
    (has_window b && readable b = true →
     ∀ stored, comments_item b = Some (Json stored) → comments = stored ∧ b' = b).
Proof.
  rewrite readFromStorage_run. unfold comments_unreadable.
  destruct b as [hw rd wr nw rn gn cs pit cit]; simpl.
  destruct hw, rd; simpl; [destruct cit as [[| |stored]|]|..];
    eexists _, _; (split; [reflexivity|]); simpl; repeat split; try done;
    try (intros [?|?]; done); try (by intros ? ? [= <-]); congruence.
Qed.

Lemma writeToStorage_frame {T} `{Stored T} (b : Browser T) comments :
  ∃ b', commentStore.writeToStorage comments b = Return tt b' ∧
    has_window b' = has_window b ∧ readable b' = readable b ∧
    writable b' = writable b ∧ now b' = now b ∧
    patches_item b' = patches_item b ∧
    (unwritable b → comments_item b' = comments_item b) ∧
    (has_window b && writable b = true →
     b' = with_comments_item (Some (Json comments)) b).
Proof.
  rewrite writeToStorage_run. unfold unwritable.
  destruct b as [hw rd wr nw rn gn cs pit cit]; simpl.
  destruct hw, wr; simpl;
    eexists; (split; [reflexivity|]); simpl; repeat split; done.
Qed.

Ltac store_cases b :=
  destruct b as [hw rd wr nw rn gn cs pit cit]; unfold_store; simpl in *;
  repeat match goal with
    | H : _ ∨ _ |- _ => destruct H
    | H : _ && _ = false |- _ => apply andb_false_iff in H
    end;
  simplify_eq;
  repeat match goal with
    | x : bool |- _ => destruct x
    | x : option (Item _) |- _ => destruct x as [[| |?]|]
    end;
  simplify_eq; simpl in *;
  repeat match goal with
    | |- context [@lookup _ _ (gmap _ _) _ ?k ?m] =>
        destruct (@lookup _ _ (gmap _ _) _ k m) eqn:?; simpl in *
    | |- context [inherited ?k] => destruct (inherited k) eqn:?; simpl in *
    | |- context [findIndex ?f ?l] => destruct (findIndex f l) eqn:?; simpl in *
    | |- context [@lookup _ _ (list _) _ ?k ?m] =>
        destruct (@lookup _ _ (list _) _ k m) eqn:?; simpl in *
    end;
  simplify_eq; try done; eauto.

(** No operation of the patch store lets an exception out. *)
Lemma patchStore_contained {T} (b : Browser T) d a o p pid u :
  is_Some (returned (patchStore.getPatches d b)) ∧
  is_Some (returned (patchStore.getOpenPatchByAnchor d a b)) ∧
  is_Some (returned (patchStore.createPatch d a o p b)) ∧
  is_Some (returned (patchStore.updatePatch d pid u b)) ∧
  is_Some (returned (patchStore.deletePatch d pid b)).
Proof. repeat split; store_cases b. Qed.

(** Nor does one of the comment store. *)
Lemma commentStore_contained {T} `{Stored T} (b : Browser T) d i l :
  is_Some (returned (commentStore.readFromStorage b)) ∧
  is_Some (returned (commentStore.writeToStorage l b)) ∧
  is_Some (returned (commentStore.getDocumentComments d b)) ∧
  is_Some (returned (commentStore.getComment i b)) ∧
  is_Some (returned (commentStore.deleteComment i b)) ∧
  is_Some (returned (commentStore.deleteDocumentComments d b)).
Proof. repeat split; store_cases b. Qed.

Lemma createComment_contained (b : Browser Comment.t) d c h :
  is_Some (returned (commentStore.createComment d c h b)).
Proof. store_cases b. Qed.

Lemma updateComment_contained (b : Browser Comment.t) i c :
  is_Some (returned (commentStore.updateComment i c b)).
Proof.
  unfold commentStore.updateComment, bind.
  destruct (readFromStorage_frame b) as (comments & b' & -> & _).
  destruct (findIndex _ comments) as [index|] eqn:Hidx; [|done].
  destruct (findIndex_Some _ _ _ Hidx) as (old & -> & _).
  unfold Date_now.
  destruct (writeToStorage_frame b' (<[index := 
    {| Comment.id := Comment.id old; Comment.documentId := Comment.documentId old;
       Comment.content := c; Comment.highlightedText := Comment.highlightedText old;
       Comment.createdAt := Comment.createdAt old; Comment.updatedAt := now b' |}]> comments))
    as (b'' & -> & _).
  done.
Qed.

(** A failing read yields the empty result. *)
Lemma reads_degrade_patches {T} (b : Browser T) d a :
  patches_unreadable b →
  returned (patchStore.getPatches d b) = Some [] ∧
  returned (patchStore.getOpenPatchByAnchor d a b) = Some None.
Proof. intros Hu. split; store_cases b. Qed.

Lemma reads_degrade_comments {T} `{Stored T} (b : Browser T) d i :
  comments_unreadable b →
  returned (commentStore.readFromStorage b) = Some [] ∧
  returned (commentStore.getDocumentComments d b) = Some [] ∧
  returned (commentStore.getComment i b) = Some None.
Proof. intros Hu. repeat split; store_cases b. Qed.

(** The reads write nothing. *)
Lemma reads_keep_items {T} `{Stored T} (b : Browser T) d a i :
  same_items b (final (patchStore.getPatches d b)) ∧
  same_items b (final (patchStore.getOpenPatchByAnchor d a b)) ∧
  same_items b (final (commentStore.readFromStorage b)) ∧
  same_items b (final (commentStore.getDocumentComments d b)) ∧
  same_items b (final (commentStore.getComment i b)).
Proof. repeat split; store_cases b. Qed.

(** A write or delete that fails changes neither store. *)
Lemma writes_degrade_patches {T} (b : Browser T) d a o p pid u :
  unwritable b ∨ patches_unreadable b →
  same_items b (final (patchStore.createPatch d a o p b)) ∧
  same_items b (final (patchStore.updatePatch d pid u b)) ∧
  same_items b (final (patchStore.deletePatch d pid b)).
Proof. intros Hu. repeat split; store_cases b. Qed.

Lemma writes_degrade_comments {T} `{Stored T} (b : Browser T) d i l :
  unwritable b →
  same_items b (final (commentStore.writeToStorage l b)) ∧
  same_items b (final (commentStore.deleteComment i b)) ∧
  same_items b (final (commentStore.deleteDocumentComments d b)).
Proof. intros Hu. repeat split; store_cases b. Qed.

Lemma writes_degrade_Comment (b : Browser Comment.t) d c h i :
  unwritable b →
  same_items b (final (commentStore.createComment d c h b)) ∧
  same_items b (final (commentStore.updateComment i c b)).
Proof. intros Hu. repeat split; store_cases b. Qed.

(** A delete on a comment store that cannot be read leaves it empty for its
    readers, as it was. *)
Lemma deletes_degrade_comments {T} `{Stored T} (b : Browser T) d i :
  comments_unreadable b →
  returned (commentStore.readFromStorage (final (commentStore.deleteComment i b))) = Some [] ∧
  returned (commentStore.readFromStorage
              (final (commentStore.deleteDocumentComments d b))) = Some [].
Proof. intros Hu. split; store_cases b. Qed.

(** C9 as stated fails: in the comment store a delete (and so every write
    that starts from a read) is not a no-op on a store whose content cannot
    be read. On a stored string that is not JSON, [deleteComment] reads the
    empty list, filters it and writes it back: the stored string is
    replaced. *)
Lemma C9_counterexample :
  ¬ (∀ T (HT : Stored T) (b : Browser T) i,
       comments_unreadable b →
       same_items b (final (commentStore.deleteComment i b))).
Proof.
  intros H.
  destruct (H CommentThread.t _ (browser_with true true None (Some Garbage)) "t1")
    as [_ Hc]; [by right|].
  vm_compute in Hc. discriminate.
Qed.

(** A comment-store write on a store that cannot be read returns, and
    starts from the empty list. *)
Lemma writes_on_unreadable_comments {T} `{Stored T} (b : Browser T) d i :
  comments_unreadable b →
  returned (commentStore.deleteComment i b) = Some tt ∧
  returned (commentStore.deleteDocumentComments d b) = Some tt ∧
  (has_window b && writable b = true →
   comments_item (final (commentStore.deleteComment i b)) = Some (Json []) ∧
   comments_item (final (commentStore.deleteDocumentComments d b)) = Some (Json [])).
Proof. intros Hu. repeat split; try intros ?; store_cases b. Qed.

Lemma writes_on_unreadable_Comment (b : Browser Comment.t) d c h i :
  comments_unreadable b →
  (∃ newComment,
     returned (commentStore.createComment d c h b) = Some newComment ∧
     (has_window b && writable b = true →
      comments_item (final (commentStore.createComment d c h b)) =
        Some (Json [newComment]))) ∧
  returned (commentStore.updateComment i c b) = Some tt ∧
  same_items b (final (commentStore.updateComment i c b)).
Proof.
  intros Hu. split; [|split].
  - destruct b as [hw rd wr nw rn gn cs pit cit]; unfold_store; simpl in *.
    destruct Hu as [Hu|Hu]; simplify_eq;
      destruct hw, rd, wr; simplify_eq; simpl;
      try (destruct cit as [[| |?]|]; simpl);
      eexists; (split; [reflexivity|]); done.
  - store_cases b.
  - store_cases b.
Qed.

(** On content of the store's shape the operations that work on what they
    have read return as well. *)
Lemma parsed_content_returns {T} `{Stored T} (b : Browser T) d a i :
  (patches_parse b → inherited d = false →
   is_Some (returned (patchStore.getOpenPatchByAnchor d a b))) ∧
  (comments_parse b →
   is_Some (returned (commentStore.getDocumentComments d b)) ∧
   is_Some (returned (commentStore.getComment i b)) ∧
   is_Some (returned (commentStore.deleteComment i b)) ∧
   is_Some (returned (commentStore.deleteDocumentComments d b))).
Proof.
  split.
  - intros _ _. by destruct (patchStore_contained b d a "" "" "" (Updates.only_status open)) as (_ & ? & _).
  - intros _. by destruct (commentStore_contained b d i []) as (_ & _ & ? & ? & ? & ?).
Qed.

(** C9, amended. The failures of storage (storage that cannot be reached
    or written, a stored string that is not JSON) are caught inside the
    stores. [getPatches], [createPatch], [updatePatch], [deletePatch],
    [readFromStorage] and [writeToStorage] never let an exception out. A
    read that fails gives the empty result, and no read writes. A write or
    delete of the patch store that fails leaves both stores as they were,
    and so does every write or delete of the comment store when storage
    cannot be written. But a write or delete of the comment store on a
    store that cannot be read is no no-op: it returns, having started from
    the empty list, so that, where writing works, a delete leaves the empty
    list stored and [createComment] the new comment alone; only
    [updateComment] writes nothing there. The operations that work on what
    a read has handed them ([getOpenPatchByAnchor] and those of the comment
    store) return on content of the store's shape, the patch lookup for a
    document identifier that names no inherited member. *)
Theorem C9_storage_failures_degrade :
  (∀ T (b : Browser T) d a o p pid u,
     is_Some (returned (patchStore.getPatches d b)) ∧
     is_Some (returned (patchStore.createPatch d a o p b)) ∧
     is_Some (returned (patchStore.updatePatch d pid u b)) ∧
     is_Some (returned (patchStore.deletePatch d pid b))) ∧
  (∀ T (HT : Stored T) (b : Browser T) l,
     is_Some (returned (commentStore.readFromStorage b)) ∧
     is_Some (returned (commentStore.writeToStorage l b))) ∧
  (∀ T (b : Browser T) d a,
     patches_unreadable b →
     returned (patchStore.getPatches d b) = Some [] ∧
     returned (patchStore.getOpenPatchByAnchor d a b) = Some None) ∧
  (∀ T (HT : Stored T) (b : Browser T) d i,
     comments_unreadable b →
     returned (commentStore.readFromStorage b) = Some [] ∧
     returned (commentStore.getDocumentComments d b) = Some [] ∧
     returned (commentStore.getComment i b) = Some None) ∧
  (∀ T (HT : Stored T) (b : Browser T) d a i,
     same_items b (final (patchStore.getPatches d b)) ∧
     same_items b (final (patchStore.getOpenPatchByAnchor d a b)) ∧
     same_items b (final (commentStore.readFromStorage b)) ∧
     same_items b (final (commentStore.getDocumentComments d b)) ∧
     same_items b (final (commentStore.getComment i b))) ∧
  (∀ T (b : Browser T) d a o p pid u,
     unwritable b ∨ patches_unreadable b →
     same_items b (final (patchStore.createPatch d a o p b)) ∧
     same_items b (final (patchStore.updatePatch d pid u b)) ∧
     same_items b (final (patchStore.deletePatch d pid b))) ∧
  (∀ T (HT : Stored T) (b : Browser T) d i l,
     unwritable b →
     same_items b (final (commentStore.writeToStorage l b)) ∧
     same_items b (final (commentStore.deleteComment i b)) ∧
     same_items b (final (commentStore.deleteDocumentComments d b))) ∧
  (∀ (b : Browser Comment.t) d c h i,
     unwritable b →
     same_items b (final (commentStore.createComment d c h b)) ∧
     same_items b (final (commentStore.updateComment i c b))) ∧
  (∀ T (HT : Stored T) (b : Browser T) d i,
     comments_unreadable b →
     returned (commentStore.deleteComment i b) = Some tt ∧
     returned (commentStore.deleteDocumentComments d b) = Some tt ∧
     (has_window b && writable b = true →
      comments_item (final (commentStore.deleteComment i b)) = Some (Json []) ∧
      comments_item (final (commentStore.deleteDocumentComments d b)) = Some (Json []))) ∧
  (∀ (b : Browser Comment.t) d c h i,
     comments_unreadable b →
     (∃ newComment,
        returned (commentStore.createComment d c h b) = Some newComment ∧
        (has_window b && writable b = true →
         comments_item (final (commentStore.createComment d c h b)) =
           Some (Json [newComment]))) ∧
     returned (commentStore.updateComment i c b) = Some tt ∧
     same_items b (final (commentStore.updateComment i c b))) ∧
  (∀ T (HT : Stored T) (b : Browser T) d a i,
     (patches_parse b → inherited d = false →
      is_Some (returned (patchStore.getOpenPatchByAnchor d a b))) ∧
     (comments_parse b →
      is_Some (returned (commentStore.getDocumentComments d b)) ∧
      is_Some (returned (commentStore.getComment i b)) ∧
      is_Some (returned (commentStore.deleteComment i b)) ∧
      is_Some (returned (commentStore.deleteDocumentComments d b)))) ∧
  (∀ (b : Browser Comment.t) d c h i,
     comments_parse b →
     is_Some (returned (commentStore.createComment d c h b)) ∧
     is_Some (returned (commentStore.updateComment i c b))).
Proof.
  split.
  { intros. destruct (patchStore_contained b d a o p pid u) as (? & _ & ? & ? & ?).
    by repeat split. }
  split.
  { intros. destruct (commentStore_contained b "" "" l) as (? & ? & _). by split. }
  split; [intros; by apply reads_degrade_patches|].
  split; [intros; by apply reads_degrade_comments|].
  split; [intros; by apply reads_keep_items|].
  split; [intros; by apply writes_degrade_patches|].
  split; [intros; by apply writes_degrade_comments|].
  split; [intros; by apply writes_degrade_Comment|].
  split; [intros; by apply writes_on_unreadable_comments|].
  split; [intros; by apply writes_on_unreadable_Comment|].
  split; [intros; by apply parsed_content_returns|].
  intros b d c h i _. split; [apply createComment_contained|apply updateComment_contained].
Qed.

Lemma C9_witness :
  returned (patchStore.getPatches "d"
              (browser_with (T:=CommentThread.t) true true (Some Garbage) None)) = Some [] ∧
  returned (commentStore.readFromStorage
              (browser_with (T:=CommentThread.t) false true None (Some (Json [ai_thread]))))
    = Some [] ∧
  same_items (browser_with true false None (Some (Json [ai_thread])))
    (final (commentStore.deleteComment "t2"
              (browser_with true false None (Some (Json [ai_thread]))))) ∧
  comments_item
    (final (commentStore.deleteComment "t2"
              (browser_with (T:=CommentThread.t) true true None (Some Garbage)))) =
    Some (Json []).
Proof.
  destruct C9_storage_failures_degrade
    as (_ & _ & Hp & Hc & _ & _ & Hw & _ & Hd & _).
  split; [|split; [|split]].
  - apply (Hp CommentThread.t _ "d" "t1"). right. reflexivity.
  - apply (Hc CommentThread.t _ _ "d" "t1"). left. reflexivity.
  - apply (Hw CommentThread.t _ _ "d" "t2" []). reflexivity.
  - destruct (Hd CommentThread.t _ (browser_with true true None (Some Garbage)) "d" "t2")
      as (_ & _ & Hover); [by right|].
    apply Hover. reflexivity.
Defined.

Lemma C10_witness :
  (∃ r b',
     patchStore.updatePatch "d" "p9" (Updates.only_status accepted)
       (browser_with (T:=CommentThread.t) true true
          (Some (Json {[ "d" := [patch1] ]})) None) = Return r b' ∧
     r = None ∧
     patches_item b' = Some (Json {[ "d" := [patch1] ]})) ∧
  (∃ r b',
     patchStore.updatePatch "d" "p1" (Updates.only_status accepted)
       (browser_with (T:=CommentThread.t) true true
          (Some (Json {[ "d" := [patch1] ]})) None) = Return r b' ∧
     is_Some r).
Proof.
  split.
  - destruct (C10_updatePatch_frame
                (browser_with (T:=CommentThread.t) true true
                   (Some (Json {[ "d" := [patch1] ]})) None)
                "d" "p9" (Updates.only_status accepted))
      as (r & b' & Hrun & _ & _ & Hmiss & _).
    exists r, b'. split; [exact Hrun|]. apply Hmiss.
    unfold patch_missing. simpl. rewrite lookup_singleton_eq.
    repeat constructor. discriminate.
  - destruct (C10_updatePatch_frame
                (browser_with (T:=CommentThread.t) true true
                   (Some (Json {[ "d" := [patch1] ]})) None)
                "d" "p1" (Updates.only_status accepted))
      as (r & b' & Hrun & _ & _ & _ & Hok).
    exists r, b'. split; [exact Hrun|].
    apply (Hok ltac:(repeat split) {[ "d" := [patch1] ]} [patch1]).
    + reflexivity.
    + apply lookup_singleton_eq.
    + by left.
Defined.

(** ** Orphan cleanup *)

(** The identifiers in the comment data are those that annotate text. *)
Lemma collect_marks_lookup X s pos marks data :
  is_Some (fold_left (collect_mark s pos) marks data !! X) ↔
  is_Some (data !! X) ∨ existsb (is_anchor X) marks = true.
Proof.
  revert data. induction marks as [|m r IH]; intros data; simpl.
  - naive_solver.
  - rewrite IH, orb_true_iff. unfold collect_mark, is_anchor.
    destruct (bool_decide (mark_type m = "comment")); simpl; [|naive_solver].
    destruct (commentId m) as [cid|]; simpl.
    + destruct (decide (cid = X)) as [->|Hne].
      * rewrite bool_decide_eq_true_2 by done.
        destruct (data !! X); rewrite lookup_insert_eq; naive_solver.
      * rewrite bool_decide_eq_false_2 by congruence.
        destruct (data !! cid); rewrite lookup_insert_ne by done; naive_solver.
    + naive_solver.
Qed.

Lemma collect_visits_lookup X vs data :
  is_Some (fold_left (λ acc v, collect_node acc v.1 v.2) vs data !! X) ↔
  is_Some (data !! X) ∨ List.filter (λ v, carries X v.1) vs ≠ [].
Proof.
  revert data. induction vs as [|[n p] r IH]; intros data; simpl.
  - naive_solver.
  - rewrite IH. destruct n as [s marks|c|b t]; simpl.
    + rewrite collect_marks_lookup. destruct (existsb _ marks); naive_solver.
    + naive_solver.
    + naive_solver.
Qed.

Lemma getAllCommentData_lookup e X :
  is_Some (getAllCommentData e !! X) ↔ annotated X (doc e) = true.
Proof.
  unfold getAllCommentData, descendants. rewrite collect_visits_lookup, lookup_empty.
  split.
  - intros [[? [=]]|Hne]. destruct (annotated X (doc e)) eqn:Ha; [done|].
    by rewrite matching_none in Hne.
  - intros Ha. right. by apply matching_some.
Qed.

(** The sort keeps the records it is given. *)
Lemma insert_by_createdAt_In {T} `{Stored T} (x y : T) l :
  In y (commentStore.insert_by_createdAt x l) ↔ y = x ∨ In y l.
Proof.
  induction l as [|z r IH]; simpl; [naive_solver|].
  destruct (rec_createdAt x <=? rec_createdAt z); simpl; [naive_solver|].
  rewrite IH. naive_solver.
Qed.

Lemma sort_by_createdAt_In {T} `{Stored T} (y : T) l :
  In y (commentStore.sort_by_createdAt l) ↔ In y l.
Proof.
  induction l as [|x r IH]; simpl; [done|].
  rewrite insert_by_createdAt_In, IH. naive_solver.
Qed.

Lemma filter_all {A} (f : A → bool) l :
  (∀ x, In x l → f x = true) → List.filter f l = l.
Proof.
  induction l as [|x r IH]; intros Hall; simpl; [done|].
  rewrite (Hall x) by (by left). f_equal. apply IH. intros y Hy. apply Hall. by right.
Qed.

Lemma filter_filter {A} (f g : A → bool) l :
  List.filter f (List.filter g l) = List.filter (λ x, g x && f x) l.
Proof.
  induction l as [|x r IH]; simpl; [done|].
  destruct (g x); simpl; [destruct (f x)|]; by rewrite IH.
Qed.

Lemma NoDup_ids_inj {A B} (f : A → B) l x y :
  NoDup (map f l) → In x l → In y l → f x = f y → x = y.
Proof.
  induction l as [|a r IH]; simpl; [done|].
  rewrite NoDup_cons. intros [Ha Hr] [->|Hx] [->|Hy] Hf; auto.
  - exfalso. apply Ha. rewrite Hf. apply list_elem_of_In, in_map, Hy.
  - exfalso. apply Ha. rewrite <- Hf. apply list_elem_of_In, in_map, Hx.
Qed.


Lemma getDocumentComments_healthy (b : Browser CommentThread.t) d stored :
  healthy b → comments_item b = Some (Json stored) →
  commentStore.getDocumentComments d b =
  Return (commentStore.sort_by_createdAt
            (List.filter (λ c, bool_decide (CommentThread.documentId c = d)) stored)) b.
Proof.
  intros (Hw & Hr & _) Hitem.
  unfold commentStore.getDocumentComments, bind. rewrite readFromStorage_run.
  by rewrite Hw, Hr, Hitem.
Qed.

Lemma deleteComment_healthy (b : Browser CommentThread.t) i stored :
  healthy b → comments_item b = Some (Json stored) →
  commentStore.deleteComment i b =
  Return tt (with_comments_item
       (Some (Json (List.filter (λ c, negb (bool_decide (CommentThread.id c = i))) stored))) b).
Proof.
  intros (Hw & Hr & Hwr) Hitem.
  unfold commentStore.deleteComment, bind. rewrite readFromStorage_run.
  rewrite Hw, Hr, Hitem. simpl. rewrite writeToStorage_run. by rewrite Hw, Hwr.
Qed.

(** The loop that deletes the orphaned threads one by one. *)
Lemma forEach_delete (l : list CommentThread.t) (w : World) stored :
  healthy (browser w) → comments_item (browser w) = Some (Json stored) →
  forEach l (λ thread,
     liftB (commentStore.deleteComment (CommentThread.id thread)) ;;;
     emit (onDeleteComment (CommentThread.id thread))) w =
  Return tt
    (with_events (events w ++ map (λ t, onDeleteComment (CommentThread.id t)) l)
       (with_browser
          (with_comments_item (Some (Json (List.filter (survives l) stored))) (browser w))
          w)).
Proof.
  revert w stored. induction l as [|t r IH]; intros w stored Hh Hitem.
  - simpl. unfold ret. f_equal. destruct w as [ed b ev th cd pa]; simpl in *.
    unfold with_events, with_browser; simpl. rewrite app_nil_r. f_equal.
    destruct b; simpl in *. unfold with_comments_item; simpl. f_equal.
    rewrite Hitem. do 2 f_equal. symmetry. by apply filter_all.
  - simpl forEach. unfold bind at 1 2, liftB at 1.
    rewrite (deleteComment_healthy _ _ stored) by done.
    unfold emit at 1. rewrite (IH _ (List.filter
      (λ c, negb (bool_decide (CommentThread.id c = CommentThread.id t))) stored));
      [|done|done].
    f_equal. destruct w as [ed b ev th cd pa]; simpl.
    unfold with_events, with_browser; simpl. rewrite <- app_assoc. simpl. f_equal.
    unfold with_comments_item; simpl. do 3 f_equal. apply filter_filter.
Qed.

(** C8. A refresh of the comment data, with the editor at hand and storage
    that works, deletes from the persisted store every thread of the
    document that is not an AI thread and whose anchor annotation is nowhere
    in the editor; it does so silently (nothing is logged, nobody is
    alerted). With identifiers that are unique in the store it deletes no
    other thread, and AI threads stay. *)
Theorem C8_refresh_deletes_orphans (documentId : string) (w : World) (e : Editor)
    (stored : list CommentThread.t) :
  editor w = Some e →
  healthy (browser w) →
  comments_item (browser w) = Some (Json stored) →
  ∃ w',
    refreshCommentData documentId w = Return tt w' ∧
    comments_item (browser w') = Some (Json (cleaned documentId e stored)) ∧
    (∀ t, In t stored → orphaned documentId e t = true →
          ¬ In t (cleaned documentId e stored)) ∧
    (NoDup (map CommentThread.id stored) →
       cleaned documentId e stored =
         List.filter (λ t, negb (orphaned documentId e t)) stored ∧
       ∀ t, In t stored → isAI t = true → In t (cleaned documentId e stored)) ∧
    patches_item (browser w') = patches_item (browser w) ∧
    console (browser w') = console (browser w) ∧
    editor w' = editor w ∧
    ∃ deleted, events w' = events w ++ map onDeleteComment deleted.
Proof.
  intros He Hh Hitem.
  set (data := getAllCommentData e).
  set (inDoc := List.filter (λ c, bool_decide (CommentThread.documentId c = documentId)) stored).
  set (orphans := List.filter
         (λ thread, negb (isAI thread) &&
                    negb (bool_decide (is_Some (data !! CommentThread.id thread))))
         (commentStore.sort_by_createdAt inDoc)).
  assert (Horph : ∀ t, In t orphans ↔ In t stored ∧ orphaned documentId e t = true).
  { intros t. unfold orphans. rewrite filter_In, sort_by_createdAt_In.
    unfold inDoc. rewrite filter_In. unfold orphaned.
    rewrite !andb_true_iff, !negb_true_iff, !bool_decide_eq_true, bool_decide_eq_false.
    unfold data. rewrite getAllCommentData_lookup.
    destruct (annotated (CommentThread.id t) (doc e)); naive_solver. }
  assert (Hkeep : List.filter (survives orphans) stored = cleaned documentId e stored).
  { apply filter_ext_in. intros c Hc. unfold survives.
    apply Bool.eq_iff_eq_true.
    rewrite forallb_forall, negb_true_iff, <- not_true_iff_false, existsb_exists.
    split.
    - intros Hall (o & Ho & Hoc). apply andb_true_iff in Hoc as [Horp Hid].
      apply bool_decide_eq_true in Hid.
      specialize (Hall o (proj2 (Horph o) (conj Ho Horp))).
      by rewrite bool_decide_eq_true_2 in Hall.
    - intros Hnone o Ho. apply negb_true_iff, bool_decide_eq_false. intros Hid.
      apply Horph in Ho as [Ho Horp]. apply Hnone. exists o. split; [done|].
      by rewrite Horp, bool_decide_eq_true_2. }
  assert (Hgone : ∀ t, In t stored → orphaned documentId e t = true →
                       ¬ In t (cleaned documentId e stored)).
  { intros t Ht Ho. unfold cleaned. rewrite filter_In, negb_true_iff.
    intros [_ Hex]. apply not_true_iff_false in Hex. apply Hex.
    apply existsb_exists. exists t. split; [done|].
    by rewrite Ho, bool_decide_eq_true_2. }
  assert (Hexact : NoDup (map CommentThread.id stored) →
     cleaned documentId e stored =
       List.filter (λ t, negb (orphaned documentId e t)) stored ∧
     ∀ t, In t stored → isAI t = true → In t (cleaned documentId e stored)).
  { intros Hnd.
    assert (Heq : cleaned documentId e stored =
                  List.filter (λ t, negb (orphaned documentId e t)) stored).
    { apply filter_ext_in. intros c Hc. f_equal. apply Bool.eq_iff_eq_true.
      rewrite existsb_exists. split.
      - intros (o & Ho & Hoc). apply andb_true_iff in Hoc as [Horp Hid].
        apply bool_decide_eq_true in Hid.
        by rewrite <- (NoDup_ids_inj CommentThread.id stored o c Hnd Ho Hc Hid).
      - intros Horp. exists c. split; [done|]. by rewrite Horp, bool_decide_eq_true_2. }
    split; [done|]. intros t Ht Hai. rewrite Heq.
    apply filter_In. split; [done|]. unfold orphaned. rewrite Hai. simpl.
    by rewrite andb_false_r. }
  assert (Hfinal : ∃ w',
    refreshCommentData documentId w = Return tt w' ∧
    comments_item (browser w') = Some (Json (cleaned documentId e stored)) ∧
    patches_item (browser w') = patches_item (browser w) ∧
    console (browser w') = console (browser w) ∧
    editor w' = editor w ∧
    ∃ deleted, events w' = events w ++ map onDeleteComment deleted).
  { unfold refreshCommentData, bind at 1, getEditorInstance. rewrite He.
    unfold bind at 1, setCommentData. unfold bind at 1, liftB at 1. simpl browser.
    rewrite (getDocumentComments_healthy _ _ stored) by done.
    fold data inDoc orphans.
    destruct (0 <? length orphans) eqn:Hlen.
    - unfold bind at 1. rewrite (forEach_delete _ _ stored) by done.
      unfold bind, liftB. simpl browser.
      rewrite (getDocumentComments_healthy _ _ (List.filter (survives orphans) stored));
        [|by destruct Hh|done].
      unfold setThreads. eexists. split; [done|]. simpl. rewrite Hkeep.
      repeat split; try done.
      exists (map CommentThread.id orphans). by rewrite map_map.
    - apply Nat.ltb_ge in Hlen. destruct orphans as [|? ?] eqn:Eo; [|simpl in Hlen; lia].
      unfold ret. eexists. split; [done|]. simpl. rewrite Hitem, <- Hkeep.
      repeat split; try done.
      + do 2 f_equal. symmetry. by apply filter_all.
      + exists []. by rewrite app_nil_r. }
  destruct Hfinal as (w' & Hrun & Hc & Hp & Hcons & Hed & Hev).
  exists w'. split; [done|]. split; [done|]. split; [exact Hgone|].
  split; [exact Hexact|]. by repeat split.
Qed.

Lemma C8_witness :
  ∃ w',
    refreshCommentData "d"
      (world_with (replaceRange 7 12 "" doc_hello_world)
         (browser_with true true None (Some (Json [thread1 false; ai_thread])))) =
      Return tt w' ∧
    comments_item (browser w') = Some (Json [ai_thread]).
Proof.
  destruct (C8_refresh_deletes_orphans "d"
              (world_with (replaceRange 7 12 "" doc_hello_world)
                 (browser_with true true None (Some (Json [thread1 false; ai_thread]))))
              (editor_of (replaceRange 7 12 "" doc_hello_world))
              [thread1 false; ai_thread])
    as (w' & Hrun & Hitem & _).
  - reflexivity.
  - repeat split.
  - reflexivity.
  - exists w'. split; [exact Hrun|]. exact Hitem.
Defined.

(** ** The handlers of the panel *)

Lemma toggleResolveThread_frame (b : Browser CommentThread.t) t :
  ∃ b', commentStore.toggleResolveThread t b = Return tt b' ∧
        patches_item b' = patches_item b.
Proof.
  unfold commentStore.toggleResolveThread, bind.
  destruct (readFromStorage_frame b) as (threads & b1 & -> & _ & _ & _ & _ & Hp & _).
  destruct (findIndex _ threads) as [index|] eqn:Hidx; [|by eexists].
  destruct (findIndex_Some _ _ _ Hidx) as (old & -> & _).
  unfold Date_now.
  match goal with |- context [commentStore.writeToStorage ?l b1] =>
    destruct (writeToStorage_frame b1 l) as (b2 & -> & _ & _ & _ & _ & Hp2 & _) end.
  exists b2. split; [done|]. congruence.
Qed.

Lemma updatePatch_returns {T} (b : Browser T) d pid u :
  ∃ r b', patchStore.updatePatch d pid u b = Return r b'.
Proof.
  destruct (patchStore_contained b d "" "" "" pid u) as (_ & _ & _ & [r Hr] & _).
  destruct (patchStore.updatePatch d pid u b) as [r' b'|]; [by eauto|done].
Qed.

Lemma getPatches_frame {T} (b : Browser T) d :
  ∃ l b', patchStore.getPatches d b = Return l b' ∧ same_items b b'.
Proof.
  rewrite getPatches_run. unfold same_items.
  destruct b as [hw rd wr nw rn gn cs pit cit]; simpl.
  destruct hw, rd; simpl; [destruct pit as [[| |?]|]|..]; by eauto.
Qed.

Lemma getDocumentComments_frame {T} `{Stored T} (b : Browser T) d :
  ∃ l b', commentStore.getDocumentComments d b = Return l b' ∧ same_items b b'.
Proof.
  unfold commentStore.getDocumentComments, bind, ret.
  destruct (readFromStorage_frame b) as (l & b' & -> & _ & _ & _ & _ & Hp & Hc & _).
  by eexists _, _.
Qed.

Lemma record_decision_run d t p st w :
  ∃ w', record_decision d t p st w = Return tt w' ∧
        editor w' = editor w ∧
        events w' = events w ∧
        same_items (decided d t p st (browser w)) (browser w').
Proof.
  unfold record_decision, decided, loadPatches, loadThreads, bind, liftB.
  destruct (updatePatch_returns (browser w) d (AIPatch.id p) (Updates.only_status st))
    as (r & b1 & ->). simpl.
  destruct (toggleResolveThread_frame b1 t) as (b2 & -> & _). simpl.
  destruct (getPatches_frame b2 d) as (l & b3 & -> & Hp3 & Hc3). simpl.
  destruct (getDocumentComments_frame b3 d) as (l' & b4 & -> & Hp4 & Hc4). simpl.
  eexists. split; [done|]. simpl. unfold same_items. repeat split; congruence.
Qed.

(** What [handleAcceptPatch] does when it has a range. *)
Lemma handleAcceptPatch_located d t p w e range :
  editor w = Some e → locate e t p = Some range →
  handleAcceptPatch d t p w =
  record_decision d t p accepted (with_editor (Some (run (accept_chain range p) e)) w).
Proof.
  intros He Hl. unfold handleAcceptPatch, bind at 1, getEditorInstance.
  by rewrite He, Hl.
Qed.

(** C7. When neither the anchor resolver nor the text search finds the
    patch's text, accept mutates nothing: the editor, both persisted stores
    (and so the status of the patch) and the panel's state are as before,
    and the user is alerted that the text could not be found. *)
Theorem C7_accept_not_located (documentId threadId : string) (patch : AIPatch.t)
    (w : World) (e : Editor) :
  editor w = Some e →
  findAnchorRange (Some e) threadId = None →
  indexOf (getText e) (trim (AIPatch.originalText patch)) = None →
  ∃ w',
    handleAcceptPatch documentId threadId patch w = Return tt w' ∧
    editor w' = editor w ∧
    same_items (browser w) (browser w') ∧
    threads w' = threads w ∧
    patches w' = patches w ∧
    events w' = events w ++ [not_found_alert].
Proof.
  intros He Hr Hi. unfold handleAcceptPatch, bind at 1, getEditorInstance.
  rewrite He. unfold locate. rewrite Hr, Hi.
  eexists. split; [reflexivity|]. by repeat split.
Qed.

(** ** Strings *)

#[local] Arguments String.append !s1 s2 : simpl nomatch.

Lemma str_app_nil_r s : s +:+ "" = s.
Proof. induction s as [|c r IH]; simpl; congruence. Qed.

Lemma str_app_assoc s1 s2 s3 : (s1 +:+ s2) +:+ s3 = s1 +:+ s2 +:+ s3.
Proof. induction s1 as [|c r IH]; simpl; congruence. Qed.

Lemma str_length_app s1 s2 :
  String.length (s1 +:+ s2) = String.length s1 + String.length s2.
Proof. induction s1 as [|c r IH]; simpl; congruence. Qed.

Lemma str_take_0 s : str_take 0 s = "".
Proof. by destruct s. Qed.

Lemma str_take_drop n s : str_take n s +:+ str_drop n s = s.
Proof.
  revert s. induction n as [|n IH]; intros [|c r]; simpl; try done.
  by rewrite IH.
Qed.

Lemma str_take_ge n s : String.length s ≤ n → str_take n s = s.
Proof.
  revert s. induction n as [|n IH]; intros [|c r]; simpl; try done; [lia|].
  intros Hn. rewrite IH; [done|lia].
Qed.

Lemma str_drop_ge n s : String.length s ≤ n → str_drop n s = "".
Proof.
  revert s. induction n as [|n IH]; intros [|c r]; simpl; try done; [lia|].
  intros Hn. apply IH. lia.
Qed.

Lemma str_take_app n s1 s2 :
  str_take n (s1 +:+ s2) = str_take n s1 +:+ str_take (n - String.length s1) s2.
Proof.
  revert n. induction s1 as [|c r IH]; intros [|n]; simpl;
    rewrite ?str_take_0, ?IH; done.
Qed.

Lemma str_drop_app n s1 s2 :
  str_drop n (s1 +:+ s2) = str_drop n s1 +:+ str_drop (n - String.length s1) s2.
Proof.
  revert n. induction s1 as [|c r IH]; intros [|n]; simpl; rewrite ?IH; try done.
Qed.

Lemma str_drop_drop n m s : str_drop m (str_drop n s) = str_drop (n + m) s.
Proof.
  revert s. induction n as [|n IH]; intros s; simpl; [done|].
  destruct s as [|c r]; simpl; [by destruct m|]. apply IH.
Qed.

Lemma str_length_take n s : String.length (str_take n s) = Nat.min n (String.length s).
Proof.
  revert s. induction n as [|n IH]; intros [|c r]; simpl; try done. by rewrite IH.
Qed.

(** The three parts a range cuts a string into. *)
Lemma str_three_parts a c s :
  a ≤ c →
  str_take a s +:+ str_take (c - a) (str_drop a s) +:+ str_drop c s = s.
Proof.
  intros Hac. replace c with (a + (c - a)) at 2 by lia.
  by rewrite <- str_drop_drop, str_take_drop, str_take_drop.
Qed.

Lemma substring_take_drop n m s : substring n m s = str_take m (str_drop n s).
Proof.
  revert m s. induction n as [|n IH]; intros m s.
  - simpl str_drop. revert m. induction s as [|c r IHs]; intros [|m]; simpl; try done.
    by rewrite IHs.
  - destruct s as [|c r]; simpl; [by destruct m|]. apply IH.
Qed.

(** ** Text and sizes of fragments *)

Lemma text_of_node_Elem pos c :
  text_of_node pos (Elem c) =
  (if 0 <? pos then blockSeparator else "") +:+ text_of (S pos) c.
Proof. reflexivity. Qed.

Lemma text_of_app pos l1 l2 :
  text_of pos (l1 ++ l2) = text_of pos l1 +:+ text_of (pos + fragSize l1) l2.
Proof.
  revert pos. induction l1 as [|x r IH]; intros pos; simpl.
  - by rewrite Nat.add_0_r.
  - rewrite IH, str_app_assoc. do 3 f_equal. lia.
Qed.

Lemma keep_text_size s marks : fragSize (keep_text s marks) = String.length s.
Proof. destruct s; simpl; lia. Qed.

Lemma keep_text_text pos s marks : text_of pos (keep_text s marks) = s.
Proof. destruct s; simpl; [done|]. by rewrite str_app_nil_r. Qed.

Lemma unmarkNode_Elem from to pos c :
  unmarkNode from to pos (Elem c) = [Elem (unmarkFrag from to (S pos) c)].
Proof.
  simpl. do 2 f_equal. generalize (S pos).
  induction c as [|x r IH]; intros p; simpl; [done|]. by rewrite IH.
Qed.

(** Removing marks moves nothing and changes no text. *)
Lemma unmarkNode_keeps from to n :
  from ≤ to →
  ∀ pos, fragSize (unmarkNode from to pos n) = nodeSize n ∧
         text_of pos (unmarkNode from to pos n) = text_of_node pos n.
Proof.
  intros Hft. induction n as [s marks|c IH|b t] using Node_nested_ind; intros pos.
  - simpl unmarkNode. case_bool_decide; [simpl; by rewrite Nat.add_0_r, str_app_nil_r|].
    rewrite !fragSize_app, !text_of_app, !keep_text_size, !keep_text_text.
    replace (to - Nat.max from pos) with ((to - pos) - (from - pos)) by lia.
    assert (Hs := str_three_parts (from - pos) (to - pos) s ltac:(lia)).
    split; [|exact Hs].
    rewrite <- !str_length_app. simpl. by rewrite Hs.
  - rewrite unmarkNode_Elem, text_of_node_Elem, nodeSize_Elem.
    assert (Hc : ∀ p, fragSize (unmarkFrag from to p c) = fragSize c ∧
                      text_of p (unmarkFrag from to p c) = text_of p c).
    { induction IH as [|x r Hx _ IHr]; intros p; [done|].
      simpl unmarkFrag. rewrite fragSize_app, text_of_app.
      destruct (Hx p) as [-> ->]. destruct (IHr (p + nodeSize x)) as [-> ->]. done. }
    destruct (Hc (S pos)) as [Hsz Htx]. cbn [fragSize text_of].
    rewrite nodeSize_Elem, text_of_node_Elem, Hsz, Htx, str_app_nil_r.
    split; [lia|done].
  - simpl. split; [done|]. by rewrite str_app_nil_r.
Qed.

Lemma unmarkFrag_keeps from to l :
  from ≤ to →
  ∀ pos, fragSize (unmarkFrag from to pos l) = fragSize l ∧
         text_of pos (unmarkFrag from to pos l) = text_of pos l.
Proof.
  intros Hft. induction l as [|x r IH]; intros pos; [done|].
  simpl unmarkFrag. rewrite fragSize_app, text_of_app.
  destruct (unmarkNode_keeps from to x Hft pos) as [-> ->].
  destruct (IH (pos + nodeSize x)) as [-> ->]. done.
Qed.

(** The chain of reject changes neither the text nor the size of the
    document. *)
Lemma reject_chain_keeps e range :
  getText (run (reject_chain range) e) = getText e ∧
  fragSize (doc (run (reject_chain range) e)) = fragSize (doc e).
Proof.
  unfold getText, run, reject_chain. simpl.
  destruct (Nat.min range.1 range.2 =? Nat.max range.1 range.2); [done|].
  destruct (unmarkFrag_keeps (Nat.min range.1 range.2) (Nat.max range.1 range.2)
              (doc e) ltac:(lia) 0) as [-> ->]. done.
Qed.

(** ** Replacement inside one paragraph of text *)

Lemma cutNode_Elem from to pos c :
  cutNode from to pos (Elem c) =
  if (from <=? pos) && (pos + nodeSize (Elem c) <=? to) then []
  else [Elem (cutFrag from to (S pos) c)].
Proof.
  simpl. destruct (_ && _); [done|]. do 2 f_equal. generalize (S pos).
  induction c as [|x r IH]; intros p; simpl; [done|]. by rewrite IH.
Qed.

Lemma insertNode_Elem at_ ins pos c :
  insertNode at_ ins pos (Elem c) = [Elem (insertFrag at_ ins (S pos) c)].
Proof.
  simpl. do 2 f_equal. generalize (S pos).
  induction c as [|x r IH]; intros p; simpl; [done|]. by rewrite IH.
Qed.

(** The text of text nodes does not depend on where they are. *)
Lemma text_of_texts l pos pos' :
  Forall (λ n, isText n = true) l → text_of pos l = text_of pos' l.
Proof.
  intros Hl. revert pos pos'. induction Hl as [|x r Hx _ IH]; intros pos pos'; [done|].
  destruct x; try done. simpl. f_equal. apply IH.
Qed.

Lemma fragSize_texts l pos :
  Forall (λ n, isText n = true) l → fragSize l = String.length (text_of pos l).
Proof.
  intros Hl. revert pos. induction Hl as [|x r Hx _ IH]; intros pos; [done|].
  destruct x; try done. simpl. rewrite str_length_app. f_equal. apply IH.
Qed.

Lemma keep_text_isText s marks :
  Forall (λ n, isText n = true) (keep_text s marks).
Proof. destruct s; repeat constructor. Qed.

Lemma cutFrag_texts from to l :
  from ≤ to → Forall (λ n, isText n = true) l →
  ∀ pos,
    Forall (λ n, isText n = true) (cutFrag from to pos l) ∧
    text_of pos (cutFrag from to pos l) =
      str_take (from - pos) (text_of pos l) +:+ str_drop (to - pos) (text_of pos l).
Proof.
  intros Hft Hl. induction Hl as [|x r Hx _ IH]; intros pos.
  { split; [constructor|]. simpl. by destruct (from - pos), (to - pos). }
  destruct x as [s marks| |]; try done.
  destruct (IH (pos + nodeSize (Text s marks))) as [IH1 IH2].
  cbn [cutFrag cutNode text_of text_of_node nodeSize] in *. split.
  - rewrite !Forall_app. repeat split; [apply keep_text_isText..|done].
  - rewrite !text_of_app, !keep_text_text.
    rewrite (text_of_texts (cutFrag from to (pos + String.length s) r) _
               (pos + String.length s)) by done.
    rewrite IH2, str_take_app, str_drop_app, !str_app_assoc.
    f_equal.
    replace (from - (pos + String.length s)) with (from - pos - String.length s) by lia.
    replace (to - (pos + String.length s)) with (to - pos - String.length s) by lia.
    rewrite <- !str_app_assoc. f_equal.
    destruct (decide (from - pos ≤ String.length s)) as [Hle|Hgt].
    + replace (from - pos - String.length s) with 0 by lia.
      by rewrite str_take_0, str_app_nil_r.
    + rewrite (str_drop_ge (to - pos) s) by lia. by rewrite str_app_nil_r.
Qed.

Lemma insertFrag_texts at_ ins l :
  Forall (λ n, isText n = true) ins → Forall (λ n, isText n = true) l →
  ∀ pos,
    text_of pos (insertFrag at_ ins pos l) =
      str_take (at_ - pos) (text_of pos l) +:+ text_of pos ins +:+
      str_drop (at_ - pos) (text_of pos l).
Proof.
  intros Hins Hl. induction Hl as [|x r Hx Hr IH]; intros pos.
  - cbn [insertFrag text_of].
    destruct (at_ - pos); cbn [str_take str_drop String.append]; by rewrite str_app_nil_r.
  - destruct x as [s marks| |]; try done.
    cbn [insertFrag insertNode text_of text_of_node nodeSize].
    rewrite (text_of_texts r (pos + String.length s) pos) by done.
    destruct (at_ <=? pos) eqn:H1; [|destruct (at_ <? pos + String.length s) eqn:H2].
    + apply Nat.leb_le in H1. replace (at_ - pos) with 0 by lia.
      rewrite str_take_0. cbn [str_drop String.append].
      rewrite text_of_app. f_equal. cbn [text_of text_of_node]. f_equal.
      by apply text_of_texts.
    + apply Nat.leb_gt in H1. apply Nat.ltb_lt in H2.
      rewrite !text_of_app, !keep_text_text, str_take_app, str_drop_app.
      replace (at_ - pos - String.length s) with 0 by lia.
      rewrite str_take_0, str_app_nil_r. cbn [str_drop].
      rewrite !str_app_assoc. do 2 f_equal; [by apply text_of_texts|].
      f_equal. by apply text_of_texts.
    + apply Nat.leb_gt in H1. apply Nat.ltb_ge in H2.
      cbn [text_of text_of_node]. rewrite IH, str_take_app, str_drop_app.
      rewrite (str_take_ge (at_ - pos) s), (str_drop_ge (at_ - pos) s) by lia.
      cbn [String.append]. rewrite !str_app_assoc.
      replace (at_ - (pos + String.length s)) with (at_ - pos - String.length s) by lia.
      rewrite (text_of_texts r (pos + String.length s) pos) by done.
      do 2 f_equal. f_equal. by apply text_of_texts.
Qed.

Lemma text_of_paragraph c : text_of 0 [Elem c] = text_of 1 c.
Proof.
  cbn [text_of]. rewrite text_of_node_Elem, str_app_nil_r. reflexivity.
Qed.

Lemma cutFrag_paragraph from to c :
  0 < from → cutFrag from to 0 [Elem c] = [Elem (cutFrag from to 1 c)].
Proof.
  intros Hf. cbn [cutFrag]. rewrite cutNode_Elem, app_nil_r.
  by replace (from <=? 0) with false by (symmetry; apply Nat.leb_gt; lia).
Qed.

Lemma insertFrag_paragraph at_ ins c :
  0 < at_ →
  insertFrag at_ ins 0 [Elem c] =
  if at_ <? 2 + fragSize c then [Elem (insertFrag at_ ins 1 c)] else Elem c :: ins.
Proof.
  intros Ha. cbn [insertFrag]. rewrite nodeSize_Elem, insertNode_Elem, app_nil_r.
  by replace (at_ <=? 0) with false by (symmetry; apply Nat.leb_gt; lia).
Qed.

(** In a document that is one paragraph of text, replacing the range that
    starts one position after the character offset [i] and spans [n]
    positions replaces the [n] characters at offset [i] of the plain text. *)
Lemma replaceRange_paragraph texts i n value :
  Forall (λ n, isText n = true) texts →
  text_of 0 (replaceRange (i + 1) (i + 1 + n) value [Elem texts]) =
    str_take i (text_of 0 [Elem texts]) +:+ value +:+
    str_drop (i + n) (text_of 0 [Elem texts]).
Proof.
  intros Ht. unfold replaceRange.
  destruct (cutFrag_texts (i + 1) (i + 1 + n) texts ltac:(lia) Ht 1) as [Hcut Htext].
  rewrite cutFrag_paragraph, insertFrag_paragraph, !text_of_paragraph by lia.
  set (kept := cutFrag (i + 1) (i + 1 + n) 1 texts) in *.
  set (T := text_of 1 texts) in *.
  assert (Hins := keep_text_isText value []).
  replace (i + 1 - 1) with i in Htext by lia.
  replace (i + 1 + n - 1) with (i + n) in Htext by lia.
  assert (Hsplit : str_take i (text_of 1 kept) +:+ value +:+ str_drop i (text_of 1 kept) =
                   str_take i T +:+ value +:+ str_drop (i + n) T).
  { rewrite Htext, str_take_app, str_drop_app, str_length_take.
    destruct (decide (i ≤ String.length T)) as [Hle|Hgt].
    - rewrite Nat.min_l by done. rewrite Nat.sub_diag, str_take_0, str_app_nil_r.
      rewrite (str_take_ge i (str_take i T)) by (rewrite str_length_take; lia).
      rewrite (str_drop_ge i (str_take i T)) by (rewrite str_length_take; lia).
      done.
    - rewrite (str_take_ge i T), (str_drop_ge (i + n) T) by lia.
      rewrite Nat.min_r by lia. rewrite !str_app_nil_r.
      rewrite (str_take_ge i T), (str_drop_ge i T) by lia.
      destruct (i - String.length T); cbn [str_take str_drop String.append];
        by rewrite !str_app_nil_r. }
  destruct (i + 1 <? 2 + fragSize kept) eqn:Hin.
  - rewrite text_of_paragraph, (insertFrag_texts _ _ _ Hins Hcut 1), keep_text_text.
    replace (i + 1 - 1) with i by lia. exact Hsplit.
  - apply Nat.ltb_ge in Hin. rewrite (fragSize_texts kept 1 Hcut) in Hin.
    change (Elem kept :: keep_text value []) with ([Elem kept] ++ keep_text value []).
    rewrite text_of_app, text_of_paragraph, keep_text_text, <- Hsplit.
    rewrite (str_take_ge i (text_of 1 kept)), (str_drop_ge i (text_of 1 kept)) by lia.
    by rewrite str_app_nil_r.
Qed.

(** What [handleRejectPatch] does on an editor. *)
Lemma handleRejectPatch_run d t p w e :
  editor w = Some e →
  handleRejectPatch d t p w =
  record_decision d t p rejected
    (match findAnchorRange (Some e) t with
     | Some range => with_editor (Some (run (reject_chain range) e)) w
     | None => w
     end).
Proof.
  intros He. unfold handleRejectPatch, bind at 1, getEditorInstance. rewrite He.
  unfold bind at 1. by destruct (findAnchorRange (Some e) t).
Qed.

(** C1. A closed world in which the claim fails: the thread of the patch
    is already resolved when the patch is accepted. The document content in
    the anchor's range is replaced by the proposed text in one transaction,
    the annotation is gone and the patch is [accepted] in the store, but the
    thread is not marked resolved: [toggleResolveThread] reopens it. *)
Theorem C1_accept_reopens_resolved_thread :
  ∃ w',
    handleAcceptPatch "d" "t1" patch_world (world_hello true) = Return tt w' ∧
    doc <$> editor w' = Some [Elem [Text "Hello " []; Text "planet" []]] ∧
    transactions <$> editor w' = Some 1 ∧
    findAnchorRange (editor w') "t1" = None ∧
    (∃ storage, patches_item (browser w') = Some (Json storage) ∧
                fmap (M:=list) AIPatch.status <$> storage !! "d" = Some [accepted]) ∧
    (∃ stored, comments_item (browser w') = Some (Json stored) ∧
               map CommentThread.id stored = ["t1"] ∧
               map CommentThread.resolved stored = [false]).
Proof.
  eexists. split; [vm_compute; reflexivity|].
  repeat split; try reflexivity.
  - eexists. split; [reflexivity|]. vm_compute. reflexivity.
  - eexists. split; [reflexivity|]. split; reflexivity.
Qed.

(** C2 as stated fails: with the snapshot " foo" in the text "a foo", the
    verbatim first occurrence is the range from 2 to 6, but accept replaces
    the range from 3 to 6, where the trimmed snapshot "foo" is. *)
Lemma C2_counterexample :
  ¬ (∀ documentId threadId patch w e,
       editor w = Some e →
       ∀ range, locate_verbatim e threadId patch = Some range →
       ∃ w', handleAcceptPatch documentId threadId patch w = Return tt w' ∧
             editor w' = Some (run (accept_chain range patch) e)).
Proof.
  intros H.
  destruct (H "d" "t9" patch_spaced (world_plain "a foo")
              (editor_of [Elem [Text "a foo" []]]) eq_refl (2, 6) eq_refl)
    as (w' & Hrun & He).
  vm_compute in Hrun. injection Hrun as <-. vm_compute in He. discriminate.
Qed.

(** C2, amended. When the anchor resolver returns a range, accept works on
    that range whatever the original text is. Otherwise the fallback finds
    the first occurrence of the trimmed original text in the plain text and
    maps the offset [index] to the position [index + 1], and accept replaces
    that range: in a document that is one paragraph of text, the plain text
    becomes what was before the occurrence, the proposed text, and what was
    after it. *)
Theorem C2_accept_range_resolution (documentId threadId : string) (patch : AIPatch.t)
    (w : World) (e : Editor) :
  editor w = Some e →
  (∀ range,
     findAnchorRange (Some e) threadId = Some range →
     locate e threadId patch = Some range ∧
     ∃ w', handleAcceptPatch documentId threadId patch w = Return tt w' ∧
           editor w' = Some (run (accept_chain range patch) e)) ∧
  (∀ index,
     findAnchorRange (Some e) threadId = None →
     indexOf (getText e) (trim (AIPatch.originalText patch)) = Some index →
     let searchText := trim (AIPatch.originalText patch) in
     let range := (index + 1, index + 1 + String.length searchText) in
     substring index (String.length searchText) (getText e) = searchText ∧
     (∀ j, j < index →
           substring j (String.length searchText) (getText e) ≠ searchText) ∧
     locate e threadId patch = Some range ∧
     ∃ w' e',
       handleAcceptPatch documentId threadId patch w = Return tt w' ∧
       editor w' = Some e' ∧
       e' = run (accept_chain range patch) e ∧
       (∀ texts,
          doc e = [Elem texts] → Forall (λ n, isText n = true) texts →
          getText e' =
            str_take index (getText e) +:+ AIPatch.proposedText patch +:+
            str_drop (index + String.length searchText) (getText e))).
Proof.
  intros He. split.
  - intros range Hr.
    assert (Hl : locate e threadId patch = Some range) by (unfold locate; by rewrite Hr).
    split; [done|].
    rewrite (handleAcceptPatch_located _ _ _ _ _ _ He Hl).
    destruct (record_decision_run documentId threadId patch accepted
                (with_editor (Some (run (accept_chain range patch) e)) w))
      as (w' & -> & Hed & _).
    by exists w'.
  - intros index Hr Hi searchText range.
    assert (Hl : locate e threadId patch = Some range) by (unfold locate; by rewrite Hr, Hi).
    split; [exact (index_correct1 _ _ _ _ Hi)|].
    split; [intros j Hj; apply (index_correct2 _ _ _ _ Hi); lia|].
    split; [done|].
    rewrite (handleAcceptPatch_located _ _ _ _ _ _ He Hl).
    destruct (record_decision_run documentId threadId patch accepted
                (with_editor (Some (run (accept_chain range patch) e)) w))
      as (w' & -> & Hed & _).
    exists w', (run (accept_chain range patch) e). repeat split; [done|].
    intros texts Hdoc Htexts. unfold getText, run, accept_chain, range.
    cbn [fold_left apply_command tr_doc tr_selection doc fst snd].
    rewrite Nat.min_l, Nat.max_r by lia. rewrite Nat.eqb_refl, Hdoc.
    by apply replaceRange_paragraph.
Qed.

Lemma C2_witness :
  ∃ w' e',
    handleAcceptPatch "d" "t1" patch1 (world_plain "abc foo bar") = Return tt w' ∧
    editor w' = Some e' ∧
    getText e' = "abc XYZ bar".
Proof.
  destruct (C2_accept_range_resolution "d" "t1" patch1 (world_plain "abc foo bar")
              (editor_of [Elem [Text "abc foo bar" []]]) eq_refl) as [_ Hfallback].
  destruct (Hfallback 4 eq_refl eq_refl) as (_ & _ & _ & w' & e' & Hrun & He & _ & Htext).
  exists w', e'. split; [exact Hrun|]. split; [exact He|].
  rewrite (Htext [Text "abc foo bar" []] eq_refl); [reflexivity|].
  repeat constructor.
Defined.

(** C4 as stated fails: rejecting a patch whose anchor resolves removes the
    anchor's annotation, so the document is not what it was. *)
Lemma C4_counterexample :
  ¬ (∀ documentId threadId patch w w',
       handleRejectPatch documentId threadId patch w = Return tt w' →
       doc <$> editor w' = doc <$> editor w).
Proof.
  intros H.
  assert (Hrun : ∃ w', handleRejectPatch "d" "t1" patch_world (world_hello false) =
                       Return tt w') by (eexists; vm_compute; reflexivity).
  destruct Hrun as (w' & Hrun). specialize (H _ _ _ _ _ Hrun).
  vm_compute in Hrun. injection Hrun as <-. vm_compute in H. discriminate.
Qed.

(** C4, amended. Reject never changes the text of the document nor the
    position of anything in it: when the anchor resolves it removes, in one
    transaction, the comment marks in the anchor's range, and when the
    anchor does not resolve it leaves the editor untouched. Beyond that it
    makes the two store updates (the patch's status to [rejected], the
    thread's resolved state) and alerts nobody. *)
Theorem C4_reject_keeps_text (documentId threadId : string) (patch : AIPatch.t)
    (w : World) (e : Editor) :
  editor w = Some e →
  ∃ w' e',
    handleRejectPatch documentId threadId patch w = Return tt w' ∧
    editor w' = Some e' ∧
    e' = match findAnchorRange (Some e) threadId with
         | Some range => run (reject_chain range) e
         | None => e
         end ∧
    getText e' = getText e ∧
    fragSize (doc e') = fragSize (doc e) ∧
    (annotated threadId (doc e) = false → e' = e) ∧
    events w' = events w ∧
    same_items (decided documentId threadId patch rejected (browser w)) (browser w').
Proof.
  intros He. rewrite (handleRejectPatch_run _ _ _ _ _ He).
  match goal with |- context [record_decision _ _ _ _ ?w0] =>
    destruct (record_decision_run documentId threadId patch rejected w0)
      as (w' & -> & Hed & Hev & Hitems) end.
  exists w'. destruct (findAnchorRange (Some e) threadId) as [range|] eqn:Hr.
  - exists (run (reject_chain range) e).
    cbn [with_editor editor events browser] in Hed, Hev, Hitems.
    destruct (reject_chain_keeps e range) as [Ht Hs].
    split; [done|]. split; [done|]. split; [done|]. split; [done|]. split; [done|].
    split; [|done].
    intros Ha. apply findAnchorRange_None in Ha. congruence.
  - exists e. split; [done|]. split; [congruence|].
    split; [done|]. split; [done|]. split; [done|]. split; [done|]. by split.
Qed.

Lemma C4_witness :
  ∃ w' e',
    handleRejectPatch "d" "t1" patch_world (world_hello false) = Return tt w' ∧
    editor w' = Some e' ∧
    getText e' = "Hello world".
Proof.
  destruct (C4_reject_keeps_text "d" "t1" patch_world (world_hello false)
              (editor_of doc_hello_world) eq_refl)
    as (w' & e' & Hrun & He & _ & Htext & _).
  exists w', e'. split; [exact Hrun|]. split; [exact He|]. exact Htext.
Defined.

Lemma C7_witness :
  ∃ w',
    handleAcceptPatch "d" "t1" patch_world (world_plain "Hello there") = Return tt w' ∧
    editor w' = editor (world_plain "Hello there") ∧
    events w' = [not_found_alert].
Proof.
  destruct (C7_accept_not_located "d" "t1" patch_world (world_plain "Hello there")
              (editor_of [Elem [Text "Hello there" []]]) eq_refl eq_refl eq_refl)
    as (w' & Hrun & He & _ & _ & _ & Hev).
  exists w'. split; [exact Hrun|]. split; [exact He|]. exact Hev.
Defined.

(** ** Accepting through the card, twice *)

Lemma toggleResolveThread_flags (b : Browser CommentThread.t) t :
  ∃ b', commentStore.toggleResolveThread t b = Return tt b' ∧
        patches_item b' = patches_item b ∧
        has_window b' = has_window b ∧ readable b' = readable b.
Proof.
  unfold commentStore.toggleResolveThread, bind.
  destruct (readFromStorage_frame b) as (threads & b1 & -> & Hw & Hr & _ & _ & Hp & _).
  destruct (findIndex _ threads) as [index|] eqn:Hidx; [|by eexists].
  destruct (findIndex_Some _ _ _ Hidx) as (old & -> & _).
  unfold Date_now.
  match goal with |- context [commentStore.writeToStorage ?l b1] =>
    destruct (writeToStorage_frame b1 l) as (b2 & -> & Hw2 & Hr2 & _ & _ & Hp2 & _) end.
  exists b2. split; [done|]. repeat split; congruence.
Qed.

(** The map that [loadPatches] builds: a key that one record only has maps
    to that record. *)
Lemma patchMap_other (l : list AIPatch.t) (m : gmap string AIPatch.t) t :
  Forall (λ q, AIPatch.anchorId q ≠ t) l →
  fold_left (λ m patch, <[AIPatch.anchorId patch := patch]> m) l m !! t = m !! t.
Proof.
  intros Hl. revert m. induction Hl as [|q r Hq _ IH]; intros m; simpl; [done|].
  by rewrite IH, lookup_insert_ne.
Qed.

Lemma patchMap_unique (l : list AIPatch.t) (m : gmap string AIPatch.t) t i x :
  l !! i = Some x → AIPatch.anchorId x = t →
  (∀ j y, l !! j = Some y → j ≠ i → AIPatch.anchorId y ≠ t) →
  fold_left (λ m patch, <[AIPatch.anchorId patch := patch]> m) l m !! t = Some x.
Proof.
  revert m i. induction l as [|q r IH]; intros m i Hi Hx Hothers; [done|].
  destruct i as [|i]; simpl in *.
  - injection Hi as ->. rewrite patchMap_other; [by rewrite <- Hx, lookup_insert_eq|].
    apply Forall_lookup. intros j y Hy. by apply (Hothers (S j)).
  - apply (IH _ i); [done..|].
    intros j y Hy Hj. apply (Hothers (S j)); [done|lia].
Qed.

(** After an accept that reaches the store, the card of the thread shows
    the patch as accepted. *)
Lemma accept_closes_card d t p w e range storage ps :
  editor w = Some e → locate e t p = Some range →
  healthy (browser w) →
  patches_item (browser w) = Some (Json storage) →
  storage !! d = Some ps →
  In p ps → NoDup (map AIPatch.id ps) →
  AIPatch.anchorId p = t →
  (∀ q, In q ps → AIPatch.anchorId q = t → q = p) →
  ∃ w1 p1,
    handleAcceptPatch d t p w = Return tt w1 ∧
    editor w1 = Some (run (accept_chain range p) e) ∧
    patches w1 !! t = Some p1 ∧
    AIPatch.status p1 = accepted.
Proof.
  intros He Hl (Hw & Hr & Hwr) Hitem Hd Hin Hnd Ha Honly.
  rewrite (handleAcceptPatch_located _ _ _ _ _ _ He Hl).
  unfold record_decision, bind at 1, liftB at 1. cbn [browser with_editor].
  rewrite updatePatch_run, Hw, Hr, Hwr, Hitem, Hd. cbn [andb].
  destruct (findIndex (λ q, bool_decide (AIPatch.id q = AIPatch.id p)) ps) as [i|] eqn:Hidx.
  2:{ apply findIndex_None in Hidx. rewrite Forall_forall in Hidx.
      rewrite <- list_elem_of_In in Hin. specialize (Hidx p Hin).
      by rewrite bool_decide_eq_true_2 in Hidx. }
  destruct (findIndex_Some _ _ _ Hidx) as (old & Hold & Hid & _).
  apply bool_decide_eq_true in Hid. rewrite Hold. cbv zeta.
  assert (old = p) as ->.
  { apply (NoDup_ids_inj AIPatch.id ps); [done| |done..].
    apply list_elem_of_In, list_elem_of_lookup. by exists i. }
  set (p' := patchStore.with_updatedAt _ _).
  set (b1 := with_patches_item _ _).
  unfold bind at 1, liftB at 1. cbn [browser with_browser].
  destruct (toggleResolveThread_flags b1 t) as (b2 & -> & Hp2 & Hw2 & Hr2).
  unfold loadPatches, bind at 1 2, liftB at 1. cbn [browser with_browser].
  rewrite getPatches_run, Hw2, Hr2, Hp2. cbn [b1 has_window readable patches_item
    with_patches_item negb]. rewrite Hw, Hr, lookup_insert_eq. cbn [default].
  unfold setPatches, loadThreads, bind, liftB, id.
  cbn [negb browser with_browser editor events threads commentData patches].
  match goal with |- context [commentStore.getDocumentComments d ?b] =>
    destruct (getDocumentComments_frame b d) as (l' & b4 & -> & _) end.
  unfold setThreads. eexists _, p'. split; [reflexivity|]. cbn [editor patches].
  split; [done|]. split; [|done].
  apply (patchMap_unique _ _ _ i).
  - apply list_lookup_insert_eq. by eapply lookup_lt_Some.
  - exact Ha.
  - intros j y Hy Hj Hay. rewrite list_lookup_insert_ne in Hy by done.
    assert (y = p) as ->.
    { apply Honly; [|done]. apply list_elem_of_In, list_elem_of_lookup. by exists j. }
    apply Hj. eapply NoDup_lookup; [|exact Hy|exact Hold].
    by eapply NoDup_fmap_1.
Qed.

(** What [handleAcceptPatch] does to the document, whatever the status of
    the patch is: it works on the range that [locate] gives, and leaves the
    document alone when there is none. *)
Lemma handleAcceptPatch_editor d t p w e :
  editor w = Some e →
  ∃ w', handleAcceptPatch d t p w = Return tt w' ∧
        editor w' = Some match locate e t p with
                         | Some range => run (accept_chain range p) e
                         | None => e
                         end.
Proof.
  intros He. destruct (locate e t p) as [range|] eqn:Hl.
  - rewrite (handleAcceptPatch_located _ _ _ _ _ _ He Hl).
    destruct (record_decision_run d t p accepted
                (with_editor (Some (run (accept_chain range p) e)) w))
      as (w' & Hrun & Hed & _).
    exists w'. split; [done|]. by rewrite Hed.
  - unfold handleAcceptPatch, bind at 1, getEditorInstance. rewrite He, Hl.
    eexists. split; [reflexivity|]. done.
Qed.

(** C3 as stated fails: [handleAcceptPatch] does not look at the status of
    the patch. In "world world" with the first "world" anchored, the
    accept of the patch that proposes "planet" gives "planet world" and
    leaves the patch accepted; accepting that accepted patch once more
    finds the other "world" by the text search and gives "planet planet". *)
Lemma C3_counterexample :
  ¬ (∀ documentId threadId patch w w1 acceptedPatch w2,
       handleAcceptPatch documentId threadId patch w = Return tt w1 →
       patches w1 !! threadId = Some acceptedPatch →
       AIPatch.status acceptedPatch = accepted →
       handleAcceptPatch documentId threadId acceptedPatch w1 = Return tt w2 →
       (getText <$> editor w2) = (getText <$> editor w1)).
Proof.
  intros H.
  pose proof (H "d" "t1" patch_world world_twice
                (final (handleAcceptPatch "d" "t1" patch_world world_twice))
                patch_world_accepted
                (final (handleAcceptPatch "d" "t1" patch_world_accepted
                          (final (handleAcceptPatch "d" "t1" patch_world world_twice))))
                ltac:(vm_compute; reflexivity) ltac:(vm_compute; reflexivity)
                eq_refl ltac:(vm_compute; reflexivity)) as Hc.
  vm_compute in Hc. discriminate.
Qed.

(** C3, amended. The guard against a second accept is in the card, not in
    the handler. A patch that is not open shows a card without buttons, so
    that no click on it runs a handler or changes anything; once an accept
    made through the card has reached the store, the card of the thread is
    such a card, and a second click on Accept leaves the world as the first
    one left it. [handleAcceptPatch] itself treats every patch alike,
    whatever its status: it replaces the range that the anchor or the text
    search gives, and leaves the document as it is only when there is
    none. *)
Theorem C3_accept_guard_is_in_card (documentId threadId : string) (patch : AIPatch.t)
    (w : World) :
  patches w !! threadId = Some patch →
  (AIPatch.status patch ≠ open →
   threadPatchCard documentId threadId w = [] ∧
   (∀ button, click button (threadPatchCard documentId threadId w) w = Return tt w) ∧
   ∀ disabled button,
     click button
       (PatchCard patch (handleAcceptPatch documentId threadId patch)
          (handleRejectPatch documentId threadId patch) disabled) w = Return tt w) ∧
  (∀ e range storage ps,
     AIPatch.status patch = open →
     editor w = Some e → locate e threadId patch = Some range →
     healthy (browser w) →
     patches_item (browser w) = Some (Json storage) →
     storage !! documentId = Some ps →
     In patch ps → NoDup (map AIPatch.id ps) →
     AIPatch.anchorId patch = threadId →
     (∀ q, In q ps → AIPatch.anchorId q = threadId → q = patch) →
     ∃ w1,
       click AcceptButton (threadPatchCard documentId threadId w) w = Return tt w1 ∧
       editor w1 = Some (run (accept_chain range patch) e) ∧
       threadPatchCard documentId threadId w1 = [] ∧
       click AcceptButton (threadPatchCard documentId threadId w1) w1 = Return tt w1) ∧
  (∀ e, editor w = Some e →
     ∃ w',
       handleAcceptPatch documentId threadId patch w = Return tt w' ∧
       editor w' = Some match locate e threadId patch with
                        | Some range => run (accept_chain range patch) e
                        | None => e
                        end).
Proof.
  intros Hp. split; [|split].
  - intros Hs.
    assert (Hcard : ∀ disabled,
              PatchCard patch (handleAcceptPatch documentId threadId patch)
                (handleRejectPatch documentId threadId patch) disabled = []).
    { intros disabled. unfold PatchCard. by rewrite bool_decide_eq_false_2. }
    unfold threadPatchCard. rewrite Hp, Hcard.
    split; [done|]. split; [done|]. intros disabled button. by rewrite Hcard.
  - intros e range storage ps Hs He Hl Hh Hitem Hd Hin Hnd Ha Honly.
    destruct (accept_closes_card documentId threadId patch w e range storage ps)
      as (w1 & p1 & Hrun & Hed & Hp1 & Hs1); try done.
    assert (Hcard : threadPatchCard documentId threadId w1 = []).
    { unfold threadPatchCard, PatchCard. by rewrite Hp1, Hs1. }
    exists w1. split; [|split; [done|split; [done|]]].
    + unfold threadPatchCard, PatchCard. rewrite Hp, Hs. exact Hrun.
    + by rewrite Hcard.
  - intros e He. by apply handleAcceptPatch_editor.
Qed.

Lemma C3_witness :
  (∃ w1,
     click AcceptButton (threadPatchCard "d" "t1" world_loaded) world_loaded = Return tt w1 ∧
     (getText <$> editor w1) = Some "Hello planet" ∧
     click AcceptButton (threadPatchCard "d" "t1" w1) w1 = Return tt w1) ∧
  click AcceptButton (threadPatchCard "d" "t1" world_accepted) world_accepted =
    Return tt world_accepted ∧
  (∃ w2,
     handleAcceptPatch "d" "t1" patch_world_accepted world_accepted = Return tt w2 ∧
     (getText <$> editor w2) = Some "planet planet").
Proof.
  split; [|split].
  - destruct (C3_accept_guard_is_in_card "d" "t1" patch_world world_loaded)
      as (_ & Htwice & _).
    { apply lookup_singleton_eq. }
    destruct (Htwice (editor_of doc_hello_world) (7, 12) {[ "d" := [patch_world] ]}
                [patch_world])
      as (w1 & Hfirst & Hed & _ & Hsecond).
    + reflexivity.
    + reflexivity.
    + reflexivity.
    + repeat split.
    + reflexivity.
    + apply lookup_singleton_eq.
    + by left.
    + repeat constructor. set_solver.
    + reflexivity.
    + intros q [<-|[]] _. reflexivity.
    + exists w1. split; [exact Hfirst|]. split; [|exact Hsecond].
      rewrite Hed. reflexivity.
  - destruct (C3_accept_guard_is_in_card "d" "t1" patch_world_accepted world_accepted)
      as (Hcard & _).
    { apply lookup_singleton_eq. }
    destruct Hcard as (_ & Hclick & _); [discriminate|]. apply Hclick.
  - destruct (C3_accept_guard_is_in_card "d" "t1" patch_world_accepted world_accepted)
      as (_ & _ & Hhandler).
    { apply lookup_singleton_eq. }
    destruct (Hhandler (editor_of [Elem [Text "planet world" []]]) eq_refl)
      as (w2 & Hrun & Hed).
    exists w2. split; [exact Hrun|]. rewrite Hed. reflexivity.
Defined.

(** * Further properties *)

(** ** The patch store, operation after operation *)

Lemma getPatches_healthy {T} (b : Browser T) d :
  healthy b → patches_parse b →
  patchStore.getPatches d b = Return (default [] (patches_of b !! d)) b.
Proof.
  intros (Hw & Hr & _) Hp. rewrite getPatches_run, Hw, Hr. unfold patches_of, patches_parse in *.
  destruct (patches_item b) as [[| |storage]|]; simpl; by rewrite ?lookup_empty.
Qed.

Lemma createPatch_healthy {T} (b : Browser T) d a o p :
  healthy b → patches_parse b → inherited d = false →
  ∃ newPatch,
    newPatch =
      {| AIPatch.id := "patch_" +:+ pretty (now b) +:+ "_" +:+ random b;
         AIPatch.documentId := d; AIPatch.anchorId := a;
         AIPatch.originalText := o; AIPatch.proposedText := p;
         AIPatch.status := open;
         AIPatch.createdAt := now b; AIPatch.updatedAt := now b |} ∧
    patchStore.createPatch d a o p b =
      Return newPatch
        (with_patches_item
           (Some (Json (<[d := default [] (patches_of b !! d) ++ [newPatch]]> (patches_of b))))
           b).
Proof.
  intros (Hw & Hr & Hwr) Hp Hown. eexists. split; [reflexivity|].
  unfold patches_of, patches_parse in *.
  destruct b as [hw rd wr nw rn gn cs pit cit]; simpl in *. subst.
  unfold_store. simpl.
  destruct pit as [[| |storage]|]; simpl; try done.
  - by rewrite lookup_empty, Hown, lookup_insert_eq, insert_insert_eq.
  - destruct (storage !! d) as [ps|] eqn:Hd; simpl.
    + by rewrite Hd.
    + by rewrite Hown, lookup_insert_eq, insert_insert_eq.
  - by rewrite lookup_empty, Hown, lookup_insert_eq, insert_insert_eq.
Qed.

Lemma healthy_with_patches_item {T} (b : Browser T) i :
  healthy b → healthy (with_patches_item i b).
Proof. by intros (? & ? & ?). Qed.

Lemma healthy_with_comments_item {T} (b : Browser T) i :
  healthy b → healthy (with_comments_item i b).
Proof. by intros (? & ? & ?). Qed.

(** [createPatch] returns the patch it has built, stored or not. *)
Lemma createPatch_returns {T} (b : Browser T) d a o p :
  ∃ b',
    patchStore.createPatch d a o p b =
      Return {| AIPatch.id := "patch_" +:+ pretty (now b) +:+ "_" +:+ random b;
                AIPatch.documentId := d; AIPatch.anchorId := a;
                AIPatch.originalText := o; AIPatch.proposedText := p;
                AIPatch.status := open;
                AIPatch.createdAt := now b; AIPatch.updatedAt := now b |} b'.
Proof.
  destruct b as [hw rd wr nw rn gn cs pit cit]. unfold_store. simpl.
  repeat case_match; simplify_eq; by eexists.
Qed.

(** Under the name of an inherited member that the stored object does not
    have as a property of its own, [createPatch] stores nothing. *)
Lemma createPatch_inherited {T} (b : Browser T) d a o p :
  inherited d = true → patches_of b !! d = None →
  same_items b (final (patchStore.createPatch d a o p b)).
Proof.
  intros Hown Hd. unfold patches_of in Hd.
  destruct b as [hw rd wr nw rn gn cs pit cit]. unfold_store. simpl in *.
  destruct hw, rd; simpl; try done.
  destruct pit as [[| |storage]|]; simpl in *;
    rewrite ?lookup_empty, ?Hd, ?Hown; simpl; rewrite ?lookup_empty, ?Hd, ?Hown; done.
Qed.

(** X1. On working storage, for a document identifier that names no
    inherited member of an object, [createPatch] returns an open patch with
    the four given fields, stamped with the current time, and appends it to
    the patches of its document: [getPatches] then returns the former list
    with the new patch at its end, and the lists of the other documents and
    the comment store are as before. Under the name of an inherited member
    (such as "constructor") that the stored object does not have as a
    property of its own, nothing is stored: the patch is returned, and both
    stores are as before. *)
Theorem X1_createPatch_appends {T} (b : Browser T)
    (documentId anchorId originalText proposedText : string) :
  healthy b → patches_parse b →
  ∃ newPatch b',
    patchStore.createPatch documentId anchorId originalText proposedText b =
      Return newPatch b' ∧
    AIPatch.documentId newPatch = documentId ∧
    AIPatch.anchorId newPatch = anchorId ∧
    AIPatch.originalText newPatch = originalText ∧
    AIPatch.proposedText newPatch = proposedText ∧
    AIPatch.status newPatch = open ∧
    AIPatch.createdAt newPatch = now b ∧
    AIPatch.updatedAt newPatch = now b ∧
    (inherited documentId = false →
     (∀ old, returned (patchStore.getPatches documentId b) = Some old →
             returned (patchStore.getPatches documentId b') = Some (old ++ [newPatch])) ∧
     (∀ d, d ≠ documentId →
           returned (patchStore.getPatches d b') = returned (patchStore.getPatches d b)) ∧
     comments_item b' = comments_item b) ∧
    (inherited documentId = true → patches_of b !! documentId = None →
     same_items b b').
Proof.
  intros Hh Hp.
  destruct (createPatch_returns b documentId anchorId originalText proposedText)
    as (b' & Hrun).
  eexists _, b'. split; [exact Hrun|]. cbn [AIPatch.documentId AIPatch.anchorId
    AIPatch.originalText AIPatch.proposedText AIPatch.status AIPatch.createdAt
    AIPatch.updatedAt].
  do 7 (split; [done|]). split.
  - intros Hown.
    destruct (createPatch_healthy b documentId anchorId originalText proposedText Hh Hp Hown)
      as (newPatch & Hnew & Hrun').
    rewrite Hrun' in Hrun. injection Hrun as Hnew' <-. subst newPatch.
    match goal with |- context [with_patches_item ?i b] =>
      assert (Hh' : healthy (with_patches_item i b)) by (by apply healthy_with_patches_item);
      assert (Hp' : patches_parse (with_patches_item i b)) by done
    end.
    split; [|split; [|done]].
    + intros old. rewrite (getPatches_healthy b _ Hh Hp), (getPatches_healthy _ _ Hh' Hp').
      simpl. intros [= <-]. unfold patches_of at 1. simpl. by rewrite lookup_insert_eq.
    + intros d Hd. rewrite (getPatches_healthy b _ Hh Hp), (getPatches_healthy _ _ Hh' Hp').
      simpl. unfold patches_of at 1. simpl. by rewrite lookup_insert_ne.
  - intros Hown Hd.
    pose proof (createPatch_inherited b documentId anchorId originalText proposedText Hown Hd)
      as Hsame.
    by rewrite Hrun in Hsame.
Qed.

Lemma X1_witness :
  (∃ newPatch b',
     patchStore.createPatch "d" "t1" "foo" "bar"
       (browser_with (T:=CommentThread.t) true true (Some (Json {[ "d" := [patch1] ]})) None) =
       Return newPatch b' ∧
     returned (patchStore.getPatches "d" b') = Some [patch1; newPatch]) ∧
  (∃ newPatch b',
     patchStore.createPatch "constructor" "t1" "foo" "bar"
       (browser_with (T:=CommentThread.t) true true (Some (Json {[ "d" := [patch1] ]})) None) =
       Return newPatch b' ∧
     patches_item b' = Some (Json {[ "d" := [patch1] ]})).
Proof.
  split.
  - destruct (X1_createPatch_appends
                (browser_with (T:=CommentThread.t) true true
                   (Some (Json {[ "d" := [patch1] ]})) None) "d" "t1" "foo" "bar")
      as (newPatch & b' & Hrun & _ & _ & _ & _ & _ & _ & _ & Hown & _).
    + repeat split.
    + discriminate.
    + destruct (Hown eq_refl) as (Hget & _).
      exists newPatch, b'. split; [exact Hrun|]. apply (Hget [patch1]). reflexivity.
  - destruct (X1_createPatch_appends
                (browser_with (T:=CommentThread.t) true true
                   (Some (Json {[ "d" := [patch1] ]})) None) "constructor" "t1" "foo" "bar")
      as (newPatch & b' & Hrun & _ & _ & _ & _ & _ & _ & _ & _ & Hinh).
    + repeat split.
    + discriminate.
    + destruct (Hinh eq_refl eq_refl) as (Hp & _).
      exists newPatch, b'. split; [exact Hrun|exact Hp].
Defined.

Lemma find_first {A} (f : A → bool) (l : list A) :
  match List.find f l with
  | Some x =>
      ∃ i, l !! i = Some x ∧ f x = true ∧
           ∀ j y, j < i → l !! j = Some y → f y = false
  | None => Forall (λ y, f y = false) l
  end.
Proof.
  induction l as [|a r IH]; simpl; [constructor|].
  destruct (f a) eqn:Ha.
  - exists 0. repeat split; [done|]. intros j y Hj. lia.
  - destruct (List.find f r) as [x|].
    + destruct IH as (i & Hi & Hx & Hlt). exists (S i). repeat split; [done..|].
      intros [|j] y Hj; simpl; [by intros [= <-]|]. apply Hlt. lia.
    + by constructor.
Qed.

(** X2. On working storage, for a document identifier that names no
    inherited member of an object, [getOpenPatchByAnchor] returns the first
    of the document's stored patches that is open and anchored to the
    identifier, and null exactly when the document has no such patch. *)
Theorem X2_getOpenPatchByAnchor_first_open {T} (b : Browser T) (documentId anchorId : string) :
  healthy b → patches_parse b → inherited documentId = false →
  ∃ found,
    returned (patchStore.getOpenPatchByAnchor documentId anchorId b) = Some found ∧
    match found with
    | Some p =>
        AIPatch.anchorId p = anchorId ∧ AIPatch.status p = open ∧
        ∃ i, default [] (patches_of b !! documentId) !! i = Some p ∧
             ∀ j q, j < i → default [] (patches_of b !! documentId) !! j = Some q →
                    ¬ (AIPatch.anchorId q = anchorId ∧ AIPatch.status q = open)
    | None =>
        ∀ q, In q (default [] (patches_of b !! documentId)) →
             ¬ (AIPatch.anchorId q = anchorId ∧ AIPatch.status q = open)
    end.
Proof.
  intros Hh Hp _.
  unfold patchStore.getOpenPatchByAnchor, bind, ret.
  rewrite (getPatches_healthy b _ Hh Hp).
  set (stored := default [] (patches_of b !! documentId)).
  eexists. split; [done|].
  pose proof (find_first
    (λ p, bool_decide (AIPatch.anchorId p = anchorId) && bool_decide (AIPatch.status p = open))
    stored) as Hf.
  destruct (List.find _ stored) as [p|].
  - destruct Hf as (i & Hi & Hfp & Hlt).
    apply andb_true_iff in Hfp as [Ha Hs].
    apply bool_decide_eq_true in Ha, Hs. repeat split; [done..|].
    exists i. split; [done|]. intros j q Hj Hq [Hqa Hqs].
    specialize (Hlt j q Hj Hq). by rewrite !bool_decide_eq_true_2 in Hlt.
  - intros q Hq [Hqa Hqs]. rewrite Forall_forall in Hf.
    apply list_elem_of_In in Hq. specialize (Hf q Hq).
    by rewrite !bool_decide_eq_true_2 in Hf.
Qed.

Lemma X2_witness :
  returned (patchStore.getOpenPatchByAnchor "d" "t9"
              (browser_with (T:=CommentThread.t) true true
                 (Some (Json {[ "d" := [patch1; patch_spaced] ]})) None)) =
    Some (Some patch_spaced).
Proof.
  destruct (X2_getOpenPatchByAnchor_first_open
              (browser_with (T:=CommentThread.t) true true
                 (Some (Json {[ "d" := [patch1; patch_spaced] ]})) None) "d" "t9")
    as (found & Hrun & Hfound).
  - repeat split.
  - discriminate.
  - reflexivity.
  - rewrite Hrun. vm_compute in Hrun. by injection Hrun as <-.
Defined.

Lemma getOpenPatchByAnchor_healthy {T} (b : Browser T) d a :
  healthy b → patches_parse b →
  patchStore.getOpenPatchByAnchor d a b =
  Return (List.find (λ p, bool_decide (AIPatch.anchorId p = a) &&
                          bool_decide (AIPatch.status p = open))
            (default [] (patches_of b !! d))) b.
Proof.
  intros Hh Hp. unfold patchStore.getOpenPatchByAnchor, bind, ret.
  by rewrite getPatches_healthy.
Qed.

Lemma find_app_l {A} (f : A → bool) l1 l2 x :
  List.find f l1 = Some x → List.find f (l1 ++ l2) = Some x.
Proof.
  induction l1 as [|a r IH]; simpl; [done|]. destruct (f a); [done|]. apply IH.
Qed.

Lemma find_app_r {A} (f : A → bool) l1 l2 :
  List.find f l1 = None → List.find f (l1 ++ l2) = List.find f l2.
Proof.
  induction l1 as [|a r IH]; simpl; [done|]. destruct (f a); [done|]. apply IH.
Qed.

(** X3. After [createPatch] for an anchor, on working storage and for a
    document identifier that names no inherited member of an object, the
    lookup of the open patch of that anchor succeeds: it gives the patch
    that was open before, if there was one, and the new patch otherwise. *)
Theorem X3_createPatch_then_open_lookup {T} (b : Browser T)
    (documentId anchorId originalText proposedText : string) :
  healthy b → patches_parse b → inherited documentId = false →
  ∃ newPatch b' before,
    patchStore.createPatch documentId anchorId originalText proposedText b =
      Return newPatch b' ∧
    returned (patchStore.getOpenPatchByAnchor documentId anchorId b) = Some before ∧
    returned (patchStore.getOpenPatchByAnchor documentId anchorId b') =
      Some (Some (default newPatch before)).
Proof.
  intros Hh Hp Hown.
  destruct (createPatch_healthy b documentId anchorId originalText proposedText Hh Hp Hown)
    as (newPatch & Hnew & Hrun).
  eexists newPatch, _, _. split; [exact Hrun|].
  match goal with |- context [with_patches_item ?i b] =>
    assert (Hh' : healthy (with_patches_item i b)) by (by apply healthy_with_patches_item);
    assert (Hp' : patches_parse (with_patches_item i b)) by done
  end.
  rewrite (getOpenPatchByAnchor_healthy b _ _ Hh Hp),
    (getOpenPatchByAnchor_healthy _ _ _ Hh' Hp').
  split; [reflexivity|]. simpl. unfold patches_of at 1. simpl.
  rewrite lookup_insert_eq. simpl. f_equal.
  destruct (List.find _ (default [] (patches_of b !! documentId))) as [p|] eqn:Hf.
  - by apply find_app_l.
  - rewrite find_app_r by done. subst newPatch. simpl.
    by rewrite !bool_decide_eq_true_2.
Qed.

Lemma X3_witness :
  ∃ newPatch b',
    patchStore.createPatch "d" "t7" "foo" "bar"
      (browser_with (T:=CommentThread.t) true true (Some (Json {[ "d" := [patch1] ]})) None) =
      Return newPatch b' ∧
    returned (patchStore.getOpenPatchByAnchor "d" "t7" b') = Some (Some newPatch).
Proof.
  destruct (X3_createPatch_then_open_lookup
              (browser_with (T:=CommentThread.t) true true
                 (Some (Json {[ "d" := [patch1] ]})) None) "d" "t7" "foo" "bar")
    as (newPatch & b' & before & Hrun & Hbefore & Hafter).
  - repeat split.
  - discriminate.
  - reflexivity.
  - exists newPatch, b'. split; [exact Hrun|].
    vm_compute in Hbefore. injection Hbefore as <-. exact Hafter.
Defined.

Lemma deletePatch_healthy {T} (b : Browser T) d pid :
  healthy b → patches_parse b →
  ∃ b',
    patchStore.deletePatch d pid b = Return tt b' ∧
    healthy b' ∧ patches_parse b' ∧
    comments_item b' = comments_item b ∧
    patches_of b' =
      match patches_of b !! d with
      | Some patches =>
          <[d := List.filter (λ p, negb (bool_decide (AIPatch.id p = pid))) patches]>
            (patches_of b)
      | None => patches_of b
      end.
Proof.
  intros (Hw & Hr & Hwr) Hp. unfold patches_of, patches_parse, healthy in *.
  destruct b as [hw rd wr nw rn gn cs pit cit]; simpl in *. subst.
  unfold_store. simpl.
  destruct pit as [[| |storage]|]; simpl; try done;
    try (eexists; split; [reflexivity|]; by rewrite ?lookup_empty).
  destruct (storage !! d) as [patches|]; simpl; [by eexists|].
  destruct (inherited d); simpl; by eexists.
Qed.

(** X4. On working storage [deletePatch] removes from the document's list
    every patch with the identifier and keeps the others in their order;
    the lists of the other documents and the comment store are as before,
    and deleting the same identifier again changes nothing. *)
Theorem X4_deletePatch_removes {T} (b : Browser T) (documentId patchId : string) :
  healthy b → patches_parse b →
  ∃ b',
    patchStore.deletePatch documentId patchId b = Return tt b' ∧
    (∀ old, returned (patchStore.getPatches documentId b) = Some old →
       returned (patchStore.getPatches documentId b') =
         Some (List.filter (λ p, negb (bool_decide (AIPatch.id p = patchId))) old)) ∧
    (∀ d, d ≠ documentId →
          returned (patchStore.getPatches d b') = returned (patchStore.getPatches d b)) ∧
    comments_item b' = comments_item b ∧
    ∃ b'', patchStore.deletePatch documentId patchId b' = Return tt b'' ∧
           ∀ d, returned (patchStore.getPatches d b'') = returned (patchStore.getPatches d b').
Proof.
  intros Hh Hp.
  set (keep := λ p, negb (bool_decide (AIPatch.id p = patchId))).
  destruct (deletePatch_healthy b documentId patchId Hh Hp)
    as (b' & Hrun & Hh' & Hp' & Hc & Hof).
  destruct (deletePatch_healthy b' documentId patchId Hh' Hp')
    as (b'' & Hrun' & Hh'' & Hp'' & _ & Hof').
  fold keep in Hof, Hof'.
  exists b'. split; [done|]. split; [|split; [|split; [done|]]].
  - intros old. rewrite (getPatches_healthy b _ Hh Hp), (getPatches_healthy _ _ Hh' Hp').
    rewrite Hof. destruct (patches_of b !! documentId) as [patches|] eqn:Hd; simpl.
    + rewrite lookup_insert_eq. by intros [= <-].
    + rewrite Hd. by intros [= <-].
  - intros d Hne. rewrite (getPatches_healthy b _ Hh Hp), (getPatches_healthy _ _ Hh' Hp').
    rewrite Hof. destruct (patches_of b !! documentId); [|done].
    by rewrite lookup_insert_ne.
  - exists b''. split; [done|]. intros d.
    rewrite (getPatches_healthy b' _ Hh' Hp'), (getPatches_healthy b'' _ Hh'' Hp'').
    rewrite Hof'. destruct (patches_of b' !! documentId) as [patches'|] eqn:Hd'; [|done].
    assert (Hkept : List.filter keep patches' = patches').
    { rewrite Hof in Hd'. destruct (patches_of b !! documentId) as [patches|] eqn:Hd.
      - rewrite lookup_insert_eq in Hd'. injection Hd' as <-.
        rewrite filter_filter. apply filter_ext. intros p. apply andb_diag.
      - rewrite Hd in Hd'. done. }
    rewrite Hkept. destruct (decide (d = documentId)) as [->|Hne].
    + by rewrite lookup_insert_eq, Hd'.
    + by rewrite lookup_insert_ne.
Qed.

Lemma X4_witness :
  ∃ b',
    patchStore.deletePatch "d" "p1"
      (browser_with (T:=CommentThread.t) true true
         (Some (Json {[ "d" := [patch1; patch_spaced] ]})) None) = Return tt b' ∧
    returned (patchStore.getPatches "d" b') = Some [patch_spaced].
Proof.
  destruct (X4_deletePatch_removes
              (browser_with (T:=CommentThread.t) true true
                 (Some (Json {[ "d" := [patch1; patch_spaced] ]})) None) "d" "p1")
    as (b' & Hrun & Hget & _).
  - repeat split.
  - discriminate.
  - exists b'. split; [exact Hrun|]. apply (Hget [patch1; patch_spaced]). reflexivity.
Defined.

(** What [updatePatch] leaves for [getPatches] to read. *)
Lemma updatePatch_then_getPatches {T} (b : Browser T) (documentId patchId : string)
    (updates : Updates.t) (old : list AIPatch.t) :
  healthy b → patches_parse b →
  returned (patchStore.getPatches documentId b) = Some old →
  Exists (λ p, AIPatch.id p = patchId) old →
  ∃ i before updated b',
    patchStore.updatePatch documentId patchId updates b = Return (Some updated) b' ∧
    old !! i = Some before ∧
    AIPatch.id before = patchId ∧
    (∀ j q, j < i → old !! j = Some q → AIPatch.id q ≠ patchId) ∧
    returned (patchStore.getPatches documentId b') = Some (<[i := updated]> old) ∧
    AIPatch.anchorId updated =
      default (AIPatch.anchorId before) (Updates.anchorId updates) ∧
    AIPatch.originalText updated =
      default (AIPatch.originalText before) (Updates.originalText updates) ∧
    AIPatch.proposedText updated =
      default (AIPatch.proposedText before) (Updates.proposedText updates) ∧
    AIPatch.status updated = default (AIPatch.status before) (Updates.status updates) ∧
    AIPatch.updatedAt updated = now b.
Proof.
  intros Hh Hp Hget Hex. pose proof Hh as (Hw & Hr & Hwr).
  rewrite (getPatches_healthy b _ Hh Hp) in Hget. simpl in Hget. injection Hget as Hold.
  assert (Hitem : ∃ storage, patches_item b = Some (Json storage) ∧
                             storage !! documentId = Some old).
  { unfold patches_of in Hold. destruct (patches_item b) as [[| |storage]|];
      try (rewrite lookup_empty in Hold; simpl in Hold; subst; by apply Exists_nil in Hex).
    exists storage. split; [done|].
    destruct (storage !! documentId); simpl in Hold; subst; [done|].
    by apply Exists_nil in Hex. }
  destruct Hitem as (storage & Hitem & Hd).
  rewrite updatePatch_run, Hw, Hr, Hwr, Hitem, Hd. cbn [andb].
  destruct (findIndex _ old) as [i|] eqn:Hidx.
  2:{ apply findIndex_None in Hidx. apply Exists_exists in Hex as (p & Hp' & Hid).
      rewrite Forall_forall in Hidx. specialize (Hidx p Hp').
      by rewrite bool_decide_eq_true_2 in Hidx. }
  destruct (findIndex_Some _ _ _ Hidx) as (before & Hbefore & Hid & Hfirst).
  apply bool_decide_eq_true in Hid. rewrite Hbefore. cbv zeta.
  eexists i, before, _, _. split; [reflexivity|]. split; [done|]. split; [done|].
  split.
  { intros j q Hj Hq Hqid. specialize (Hfirst j q Hj Hq).
    by rewrite bool_decide_eq_true_2 in Hfirst. }
  split; [|done].
  rewrite getPatches_healthy; [|by apply healthy_with_patches_item|done].
  simpl. unfold patches_of. simpl. by rewrite lookup_insert_eq.
Qed.


(** X5. On working storage [updatePatch] rewrites the first patch of the
    document that has the identifier, and [getPatches] then returns the
    list with that one record replaced: a field that [updates] has takes
    its value from there, the others keep theirs, and the update time is
    the current time even when [updates] names another. *)
Theorem X5_updatePatch_then_getPatches {T} (b : Browser T) (documentId patchId : string)
    (updates : Updates.t) (old : list AIPatch.t) :
  healthy b → patches_parse b →
  returned (patchStore.getPatches documentId b) = Some old →
  Exists (λ p, AIPatch.id p = patchId) old →
  ∃ i before updated b',
    patchStore.updatePatch documentId patchId updates b = Return (Some updated) b' ∧
    old !! i = Some before ∧
    AIPatch.id before = patchId ∧
    (∀ j q, j < i → old !! j = Some q → AIPatch.id q ≠ patchId) ∧
    returned (patchStore.getPatches documentId b') = Some (<[i := updated]> old) ∧
    AIPatch.anchorId updated =
      default (AIPatch.anchorId before) (Updates.anchorId updates) ∧
    AIPatch.originalText updated =
      default (AIPatch.originalText before) (Updates.originalText updates) ∧
    AIPatch.proposedText updated =
      default (AIPatch.proposedText before) (Updates.proposedText updates) ∧
    AIPatch.status updated = default (AIPatch.status before) (Updates.status updates) ∧
    AIPatch.updatedAt updated = now b.
Proof. apply updatePatch_then_getPatches. Qed.

Lemma X5_witness :
  ∃ updated b',
    patchStore.updatePatch "d" "p1"
      (Updates.mk None None (Some "new text") None (Some 99))
      (browser_with (T:=CommentThread.t) true true
         (Some (Json {[ "d" := [patch_spaced; patch1] ]})) None) = Return (Some updated) b' ∧
    returned (patchStore.getPatches "d" b') = Some [patch_spaced; updated] ∧
    AIPatch.proposedText updated = "new text" ∧
    AIPatch.updatedAt updated = 5.
Proof.
  destruct (X5_updatePatch_then_getPatches
              (browser_with (T:=CommentThread.t) true true
                 (Some (Json {[ "d" := [patch_spaced; patch1] ]})) None)
              "d" "p1" (Updates.mk None None (Some "new text") None (Some 99))
              [patch_spaced; patch1])
    as (i & before & updated & b' & Hrun & Hi & Hid & Hfirst & Hget & _ & _ & Hp & _ & Hu).
  - repeat split.
  - discriminate.
  - reflexivity.
  - right. by left.
  - exists updated, b'. split; [exact Hrun|].
    destruct i as [|[|i]]; simpl in Hi; [by injection Hi as <-| |done].
    injection Hi as <-. split; [exact Hget|]. split; [exact Hp|exact Hu].
Defined.

(** X6. Once the patch of an anchor is decided, the anchor has no open
    patch: on working storage, with identifiers that are unique in the
    document's list, setting the status of a patch to [accepted] or
    [rejected] makes [getOpenPatchByAnchor] return null for every anchor
    whose open patches all had that identifier. *)
Theorem X6_decided_patch_is_not_open {T} (b : Browser T) (documentId patchId anchorId : string)
    (decision : AIPatchStatus) (old : list AIPatch.t) :
  healthy b → patches_parse b →
  returned (patchStore.getPatches documentId b) = Some old →
  Exists (λ p, AIPatch.id p = patchId) old →
  NoDup (map AIPatch.id old) →
  (∀ q, In q old → AIPatch.anchorId q = anchorId → AIPatch.status q = open →
        AIPatch.id q = patchId) →
  decision ≠ open →
  ∃ updated b',
    patchStore.updatePatch documentId patchId (Updates.only_status decision) b =
      Return (Some updated) b' ∧
    AIPatch.status updated = decision ∧
    returned (patchStore.getOpenPatchByAnchor documentId anchorId b') = Some None.
Proof.
  intros Hh Hp Hget Hex Hnd Honly Hdec.
  destruct (updatePatch_then_getPatches b documentId patchId
              (Updates.only_status decision) old Hh Hp Hget Hex)
    as (i & before & updated & b' & Hrun & Hi & Hid & _ & Hget' & Ha & _ & _ & Hs & _).
  exists updated, b'. split; [done|]. split; [done|].
  unfold patchStore.getOpenPatchByAnchor, bind, ret.
  destruct (patchStore.getPatches documentId b') as [l b3|] eqn:Hg; [|done].
  simpl in Hget'. injection Hget' as ->. simpl. do 2 f_equal.
  pose proof (find_first
    (λ p, bool_decide (AIPatch.anchorId p = anchorId) && bool_decide (AIPatch.status p = open))
    (<[i := updated]> old)) as Hf.
  destruct (List.find _ _) as [p|]; [|done].
  destruct Hf as (j & Hj & Hpj & _). exfalso.
  apply andb_true_iff in Hpj as [Hpa Hps]. apply bool_decide_eq_true in Hpa, Hps.
  destruct (decide (j = i)) as [->|Hne].
  - rewrite list_lookup_insert_eq in Hj by (by eapply lookup_lt_Some).
    injection Hj as <-. simpl in Hs. congruence.
  - rewrite list_lookup_insert_ne in Hj by done.
    assert (Hin : In p old) by (apply list_elem_of_In, list_elem_of_lookup; by exists j).
    specialize (Honly p Hin Hpa Hps).
    apply Hne. eapply NoDup_lookup; [exact Hnd| |].
    + by rewrite list_lookup_fmap, Hj.
    + by rewrite list_lookup_fmap, Hi; simpl; congruence.
Qed.

Lemma X6_witness :
  ∃ updated b',
    patchStore.updatePatch "d" "p1" (Updates.only_status rejected)
      (browser_with (T:=CommentThread.t) true true
         (Some (Json {[ "d" := [patch_spaced; patch1] ]})) None) = Return (Some updated) b' ∧
    returned (patchStore.getOpenPatchByAnchor "d" "t1" b') = Some None.
Proof.
  destruct (X6_decided_patch_is_not_open
              (browser_with (T:=CommentThread.t) true true
                 (Some (Json {[ "d" := [patch_spaced; patch1] ]})) None)
              "d" "p1" "t1" rejected [patch_spaced; patch1])
    as (updated & b' & Hrun & _ & Hnone).
  - repeat split.
  - discriminate.
  - reflexivity.
  - right. by left.
  - simpl. repeat constructor; set_solver.
  - intros q [<-|[<-|[]]]; simpl; [discriminate|reflexivity].
  - discriminate.
  - exists updated, b'. split; [exact Hrun|exact Hnone].
Defined.

(** X7. The two stores are independent: no operation of the patch store
    touches the stored comments, and no operation of the comment store
    touches the stored patches, whatever the state of storage is; in
    particular deleting a comment leaves the patches anchored to it in
    place. *)
Theorem X7_stores_independent :
  (∀ T (b : Browser T) d a o p pid u,
     comments_item (final (patchStore.getPatches d b)) = comments_item b ∧
     comments_item (final (patchStore.getOpenPatchByAnchor d a b)) = comments_item b ∧
     comments_item (final (patchStore.createPatch d a o p b)) = comments_item b ∧
     comments_item (final (patchStore.updatePatch d pid u b)) = comments_item b ∧
     comments_item (final (patchStore.deletePatch d pid b)) = comments_item b) ∧
  (∀ T (HT : Stored T) (b : Browser T) d i l,
     patches_item (final (commentStore.readFromStorage b)) = patches_item b ∧
     patches_item (final (commentStore.writeToStorage l b)) = patches_item b ∧
     patches_item (final (commentStore.getDocumentComments d b)) = patches_item b ∧
     patches_item (final (commentStore.getComment i b)) = patches_item b ∧
     patches_item (final (commentStore.deleteComment i b)) = patches_item b ∧
     patches_item (final (commentStore.deleteDocumentComments d b)) = patches_item b) ∧
  (∀ (b : Browser Comment.t) d c h i,
     patches_item (final (commentStore.createComment d c h b)) = patches_item b ∧
     patches_item (final (commentStore.updateComment i c b)) = patches_item b).
Proof.
  split; [|split].
  - intros. repeat split; store_cases b.
  - intros. repeat split; store_cases b.
  - intros. repeat split; store_cases b.
Qed.

(** ** The comment store *)

(** On working storage a read gives what is stored, nothing for a string
    that does not parse, and touches the console at most. *)
Lemma readFromStorage_healthy {T} `{Stored T} (b : Browser T) :
  healthy b →
  ∃ b', commentStore.readFromStorage b = Return (comments_of b) b' ∧
        healthy b' ∧ comments_of b' = comments_of b ∧
        patches_item b' = patches_item b ∧ now b' = now b ∧
        generated b' = generated b ∧
        (comments_parse b → b' = b).
Proof.
  intros (Hw & Hr & Hwr). rewrite readFromStorage_run, Hw, Hr. simpl.
  unfold comments_of, comments_parse, healthy.
  destruct b as [hw rd wr nw rn gn cs pit cit]; simpl in *. subst.
  destruct cit as [[| |stored]|]; eexists; (split; [reflexivity|]); simpl; naive_solver.
Qed.

Lemma writeToStorage_healthy {T} `{Stored T} (b : Browser T) l :
  healthy b →
  commentStore.writeToStorage l b = Return tt (with_comments_item (Some (Json l)) b).
Proof. intros (Hw & _ & Hwr). by rewrite writeToStorage_run, Hw, Hwr. Qed.



Lemma insert_by_createdAt_Permutation {T} `{Stored T} (x : T) l :
  commentStore.insert_by_createdAt x l ≡ₚ x :: l.
Proof.
  induction l as [|y r IH]; simpl; [done|].
  destruct (rec_createdAt x <=? rec_createdAt y); [done|].
  rewrite IH. apply Permutation_swap.
Qed.

Lemma sort_by_createdAt_Permutation {T} `{Stored T} (l : list T) :
  commentStore.sort_by_createdAt l ≡ₚ l.
Proof.
  induction l as [|x r IH]; simpl; [done|].
  by rewrite insert_by_createdAt_Permutation, IH.
Qed.

(** The records of one creation time keep their order through the sort. *)
Lemma insert_by_createdAt_stable {T} `{Stored T} (x : T) l k :
  List.filter (λ c, rec_createdAt c =? k) (commentStore.insert_by_createdAt x l) =
  List.filter (λ c, rec_createdAt c =? k) (x :: l).
Proof.
  induction l as [|y r IH]; [done|].
  cbn [commentStore.insert_by_createdAt].
  destruct (rec_createdAt x <=? rec_createdAt y) eqn:Hle; [done|].
  apply Nat.leb_gt in Hle.
  cbn [List.filter]. rewrite IH. cbn [List.filter].
  destruct (rec_createdAt y =? k) eqn:Hy, (rec_createdAt x =? k) eqn:Hx; try done.
  apply Nat.eqb_eq in Hy, Hx. lia.
Qed.

Lemma sort_by_createdAt_stable {T} `{Stored T} (l : list T) k :
  List.filter (λ c, rec_createdAt c =? k) (commentStore.sort_by_createdAt l) =
  List.filter (λ c, rec_createdAt c =? k) l.
Proof.
  induction l as [|x r IH]; [done|].
  cbn [commentStore.sort_by_createdAt foldr].
  rewrite insert_by_createdAt_stable. cbn [List.filter].
  fold (commentStore.sort_by_createdAt r). by rewrite IH.
Qed.



(** X9. On working storage [getDocumentComments] returns exactly the stored
    records of the document, each as often as it is stored, and the sort is
    stable: records created at the same time come in the order in which
    they are stored. *)
Theorem X9_getDocumentComments_stable {T} `{Stored T} (b : Browser T) (documentId : string) :
  healthy b →
  ∃ l b',
    commentStore.getDocumentComments documentId b = Return l b' ∧
    l ≡ₚ List.filter (λ c, bool_decide (rec_documentId c = documentId)) (comments_of b) ∧
    ∀ k, List.filter (λ c, rec_createdAt c =? k) l =
         List.filter (λ c, rec_createdAt c =? k)
           (List.filter (λ c, bool_decide (rec_documentId c = documentId)) (comments_of b)).
Proof.
  intros Hh. destruct (readFromStorage_healthy b Hh) as (b' & Hread & _).
  unfold commentStore.getDocumentComments, bind, ret. rewrite Hread.
  eexists _, _. split; [reflexivity|].
  split; [apply sort_by_createdAt_Permutation|]. intros k. apply sort_by_createdAt_stable.
Qed.

Lemma X9_witness :
  ∃ l b',
    commentStore.getDocumentComments "d"
      (browser_with true true None
         (Some (Json [thread1 true; ai_thread; thread1 false]))) = Return l b' ∧
    List.filter (λ c, rec_createdAt c =? CommentThread.createdAt (thread1 true)) l =
    List.filter (λ c, rec_createdAt c =? CommentThread.createdAt (thread1 true))
      (List.filter (λ c, bool_decide (rec_documentId c = "d"))
         [thread1 true; ai_thread; thread1 false]).
Proof.
  destruct (X9_getDocumentComments_stable
              (browser_with true true None
                 (Some (Json [thread1 true; ai_thread; thread1 false]))) "d")
    as (l & b' & Hrun & _ & Hstable).
  - repeat split.
  - exists l, b'. split; [exact Hrun|]. apply Hstable.
Defined.

Lemma find_snoc_fresh {A} (f : A → bool) (l : list A) x :
  Forall (λ y, f y = false) l → f x = true → List.find f (l ++ [x]) = Some x.
Proof.
  intros Hl Hx. induction Hl as [|y r Hy _ IH]; simpl; [by rewrite Hx|by rewrite Hy].
Qed.

(** X10. On working storage [createComment] returns a comment with the
    generated identifier, the given document, content and highlighted text,
    and the current time as both of its times, and appends it to what is
    stored; the stored patches are untouched. When the identifier is new,
    [getComment] then finds the comment under it. *)
Theorem X10_createComment_appends (b : Browser Comment.t)
    (documentId content highlightedText : string) :
  healthy b →
  Forall (λ c, Comment.id c ≠ generated b) (comments_of b) →
  ∃ newComment b',
    commentStore.createComment documentId content highlightedText b =
      Return newComment b' ∧
    newComment = {| Comment.id := generated b; Comment.documentId := documentId;
                    Comment.content := content;
                    Comment.highlightedText := highlightedText;
                    Comment.createdAt := now b; Comment.updatedAt := now b |} ∧
    comments_of b' = comments_of b ++ [newComment] ∧
    patches_item b' = patches_item b ∧
    returned (commentStore.getComment (Comment.id newComment) b') = Some (Some newComment).
Proof.
  intros Hh Hfresh.
  destruct (readFromStorage_healthy b Hh) as (b1 & Hread & Hh1 & Hof1 & Hp1 & _).
  unfold commentStore.createComment, bind, ret, Date_now. rewrite Hread.
  rewrite (writeToStorage_healthy b1 _ Hh1).
  eexists _, _. split; [reflexivity|]. split; [done|]. split; [done|]. split; [done|].
  set (b' := with_comments_item _ b1).
  assert (Hh' : healthy b') by (by apply healthy_with_comments_item).
  destruct (readFromStorage_healthy b' Hh') as (b2 & Hread' & _).
  unfold commentStore.getComment, bind, ret. rewrite Hread'. simpl. do 2 f_equal.
  apply find_snoc_fresh; [|by apply bool_decide_eq_true_2].
  eapply Forall_impl; [exact Hfresh|]. intros c Hc. by apply bool_decide_eq_false_2.
Qed.

Lemma X10_witness :
  ∃ newComment b',
    commentStore.createComment "d" "why?" "foo"
      (browser_with true true None (Some (Json []))) = Return newComment b' ∧
    comments_of b' = [newComment] ∧ Comment.id newComment = "c7".
Proof.
  destruct (X10_createComment_appends
              (browser_with true true None (Some (Json []))) "d" "why?" "foo")
    as (newComment & b' & Hrun & Hnew & Hof & _).
  - repeat split.
  - constructor.
  - exists newComment, b'. split; [exact Hrun|]. split; [exact Hof|]. by rewrite Hnew.
Defined.

Lemma find_filter_excluded {A} (f keep : A → bool) l :
  (∀ x, keep x = true → f x = false) → List.find f (List.filter keep l) = None.
Proof.
  intros Hex. induction l as [|x r IH]; simpl; [done|].
  destruct (keep x) eqn:Hk; simpl; [|done]. by rewrite (Hex x Hk).
Qed.

Lemma find_filter_kept {A} (f keep : A → bool) l :
  (∀ x, f x = true → keep x = true) → List.find f (List.filter keep l) = List.find f l.
Proof.
  intros Hin. induction l as [|x r IH]; simpl; [done|].
  destruct (f x) eqn:Hf.
  - by rewrite (Hin x Hf); simpl; rewrite Hf.
  - destruct (keep x); simpl; [by rewrite Hf|done].
Qed.

(** X11. On working storage [deleteComment] removes every stored record
    with the identifier and keeps the others in their order, so that
    [getComment] no longer finds the identifier and finds every other one
    as before; the stored patches, those anchored to the comment among
    them, are untouched, and deleting again changes nothing. *)
Theorem X11_deleteComment_removes {T} `{Stored T} (b : Browser T) (id : string) :
  healthy b →
  ∃ b',
    commentStore.deleteComment id b = Return tt b' ∧
    comments_of b' = List.filter (λ c, negb (bool_decide (rec_id c = id))) (comments_of b) ∧
    returned (commentStore.getComment id b') = Some None ∧
    (∀ other, other ≠ id →
       returned (commentStore.getComment other b') =
       returned (commentStore.getComment other b)) ∧
    patches_item b' = patches_item b ∧
    commentStore.deleteComment id b' = Return tt b'.
Proof.
  intros Hh.
  destruct (readFromStorage_healthy b Hh) as (b1 & Hread & Hh1 & Hof1 & Hp1 & _).
  unfold commentStore.deleteComment at 1. unfold bind. rewrite Hread.
  rewrite (writeToStorage_healthy b1 _ Hh1).
  set (keep := λ c : T, negb (bool_decide (rec_id c = id))).
  set (b' := with_comments_item _ b1).
  assert (Hh' : healthy b') by (by apply healthy_with_comments_item).
  assert (Hparse : comments_parse b') by done.
  destruct (readFromStorage_healthy b' Hh') as (b2 & Hread' & _ & _ & _ & _ & _ & Hsame).
  rewrite (Hsame Hparse) in Hread'. clear b2 Hsame.
  assert (Hof' : comments_of b' = List.filter keep (comments_of b)) by done.
  exists b'. split; [done|]. split; [done|]. split; [|split; [|split; [done|]]].
  - unfold commentStore.getComment, bind, ret. rewrite Hread', Hof'. simpl. f_equal.
    apply find_filter_excluded. intros c. unfold keep. by destruct (bool_decide _).
  - intros other Hne. unfold commentStore.getComment, bind, ret.
    rewrite Hread', Hread, Hof'. simpl. f_equal.
    apply find_filter_kept. intros c Hc. apply bool_decide_eq_true in Hc.
    unfold keep. by rewrite bool_decide_eq_false_2 by congruence.
  - unfold commentStore.deleteComment, bind. rewrite Hread'.
    rewrite (writeToStorage_healthy b' _ Hh'). f_equal.
    rewrite Hof', filter_filter.
    replace (List.filter (λ x, keep x && negb (bool_decide (rec_id x = id))) (comments_of b))
      with (List.filter keep (comments_of b))
      by (apply filter_ext; intros c; unfold keep; by rewrite andb_diag).
    done.
Qed.

Lemma X11_witness :
  ∃ b',
    commentStore.deleteComment "t1"
      (browser_with true true (Some (Json {[ "d" := [patch1] ]}))
         (Some (Json [thread1 false; ai_thread]))) = Return tt b' ∧
    comments_of b' = [ai_thread] ∧
    patches_item b' = Some (Json {[ "d" := [patch1] ]}).
Proof.
  destruct (X11_deleteComment_removes
              (browser_with true true (Some (Json {[ "d" := [patch1] ]}))
                 (Some (Json [thread1 false; ai_thread]))) "t1")
    as (b' & Hrun & Hof & _ & _ & Hp & _).
  - repeat split.
  - exists b'. split; [exact Hrun|]. split; [exact Hof|exact Hp].
Defined.

Lemma filter_none {A} (f : A → bool) l :
  (∀ x, f x = false) → List.filter f l = [].
Proof. intros Hf. induction l as [|x r IH]; simpl; [done|]. by rewrite Hf. Qed.

(** X12. On working storage [deleteDocumentComments] leaves the document
    without comments and every other document with the comments it had. *)
Theorem X12_deleteDocumentComments_clears {T} `{Stored T} (b : Browser T)
    (documentId : string) :
  healthy b →
  ∃ b',
    commentStore.deleteDocumentComments documentId b = Return tt b' ∧
    returned (commentStore.getDocumentComments documentId b') = Some [] ∧
    (∀ d, d ≠ documentId →
       returned (commentStore.getDocumentComments d b') =
       returned (commentStore.getDocumentComments d b)) ∧
    patches_item b' = patches_item b.
Proof.
  intros Hh.
  destruct (readFromStorage_healthy b Hh) as (b1 & Hread & Hh1 & Hof1 & Hp1 & _).
  unfold commentStore.deleteDocumentComments. unfold bind at 1. rewrite Hread.
  rewrite (writeToStorage_healthy b1 _ Hh1).
  set (keep := λ c : T, negb (bool_decide (rec_documentId c = documentId))).
  set (b' := with_comments_item _ b1).
  assert (Hh' : healthy b') by (by apply healthy_with_comments_item).
  destruct (readFromStorage_healthy b' Hh') as (b2 & Hread' & _).
  assert (Hof' : comments_of b' = List.filter keep (comments_of b)) by done.
  exists b'. split; [done|]. split; [|split; [|done]].
  - unfold commentStore.getDocumentComments, bind, ret. rewrite Hread', Hof'. simpl.
    rewrite filter_filter.
    rewrite filter_none; [done|].
    intros c. unfold keep. by destruct (bool_decide (rec_documentId c = documentId)).
  - intros d Hne. unfold commentStore.getDocumentComments, bind, ret.
    rewrite Hread', Hread, Hof'. simpl. do 2 f_equal.
    rewrite filter_filter. apply filter_ext. intros c. unfold keep.
    destruct (bool_decide (rec_documentId c = d)) eqn:Hd; [|by rewrite andb_false_r].
    apply bool_decide_eq_true in Hd. by rewrite bool_decide_eq_false_2 by congruence.
Qed.

Lemma X12_witness :
  ∃ b',
    commentStore.deleteDocumentComments "d"
      (browser_with true true None (Some (Json [thread1 false; ai_thread]))) =
      Return tt b' ∧
    returned (commentStore.getDocumentComments "d" b') = Some [].
Proof.
  destruct (X12_deleteDocumentComments_clears
              (browser_with true true None (Some (Json [thread1 false; ai_thread]))) "d")
    as (b' & Hrun & Hnone & _).
  - repeat split.
  - exists b'. split; [exact Hrun|exact Hnone].
Defined.

Lemma findIndex_Exists {A} (f : A → bool) l :
  Exists (λ x, f x = true) l →
  ∃ i x, findIndex f l = Some i ∧ l !! i = Some x ∧ f x = true ∧
         ∀ j y, j < i → l !! j = Some y → f y = false.
Proof.
  intros Hex. destruct (findIndex f l) as [i|] eqn:Hidx.
  - destruct (findIndex_Some _ _ _ Hidx) as (x & Hx & Hfx & Hfirst). by exists i, x.
  - apply findIndex_None in Hidx. apply Exists_exists in Hex as (x & Hx & Hfx).
    rewrite Forall_forall in Hidx. specialize (Hidx x Hx). congruence.
Qed.

(** X13. On working storage [updateComment] rewrites the first stored
    comment that has the identifier, and only that one: its content becomes
    the given one and its update time the current time, while identifier,
    document, highlighted text and creation time stay; the stored patches
    are untouched. *)
Theorem X13_updateComment_rewrites_first (b : Browser Comment.t) (id content : string) :
  healthy b →
  Exists (λ c, Comment.id c = id) (comments_of b) →
  ∃ i old b',
    commentStore.updateComment id content b = Return tt b' ∧
    comments_of b !! i = Some old ∧
    Comment.id old = id ∧
    (∀ j c, j < i → comments_of b !! j = Some c → Comment.id c ≠ id) ∧
    comments_of b' =
      <[i := {| Comment.id := Comment.id old;
                Comment.documentId := Comment.documentId old;
                Comment.content := content;
                Comment.highlightedText := Comment.highlightedText old;
                Comment.createdAt := Comment.createdAt old;
                Comment.updatedAt := now b |}]> (comments_of b) ∧
    patches_item b' = patches_item b.
Proof.
  intros Hh Hex.
  destruct (readFromStorage_healthy b Hh) as (b1 & Hread & Hh1 & Hof1 & Hp1 & Hnow & _).
  destruct (findIndex_Exists (λ c, bool_decide (Comment.id c = id)) (comments_of b))
    as (i & old & Hidx & Hold & Hid & Hfirst).
  { eapply Exists_impl; [exact Hex|]. intros c Hc. by apply bool_decide_eq_true_2. }
  apply bool_decide_eq_true in Hid.
  unfold commentStore.updateComment, bind, Date_now. rewrite Hread, Hidx, Hold.
  rewrite (writeToStorage_healthy b1 _ Hh1), Hnow.
  eexists i, old, _. split; [reflexivity|]. split; [done|]. split; [done|].
  split; [|done].
  intros j c Hj Hc Hcid. specialize (Hfirst j c Hj Hc).
  by rewrite bool_decide_eq_true_2 in Hfirst.
Qed.

Lemma X13_witness :
  ∃ b',
    commentStore.updateComment "c1" "new"
      (browser_with true true None
         (Some (Json [Comment.mk "c1" "d" "old" "foo" 1 1;
                      Comment.mk "c1" "d" "twin" "bar" 2 2]))) = Return tt b' ∧
    comments_of b' = [Comment.mk "c1" "d" "new" "foo" 1 5;
                      Comment.mk "c1" "d" "twin" "bar" 2 2].
Proof.
  destruct (X13_updateComment_rewrites_first
              (browser_with true true None
                 (Some (Json [Comment.mk "c1" "d" "old" "foo" 1 1;
                              Comment.mk "c1" "d" "twin" "bar" 2 2]))) "c1" "new")
    as (i & old & b' & Hrun & Hold & Hid & Hfirst & Hof & _).
  - repeat split.
  - by left.
  - exists b'. split; [exact Hrun|].
    destruct i as [|[|i]]; [| |done].
    + injection Hold as <-. exact Hof.
    + exfalso. by apply (Hfirst 0 (Comment.mk "c1" "d" "old" "foo" 1 1)); [lia| |].
Defined.

(** X14. An update that finds no patch writes nothing, whatever the state
    of storage: when no stored patch of the document has the identifier,
    [updatePatch] returns null and leaves both stores as they are. *)
Theorem X14_updatePatch_missing_writes_nothing {T} (b : Browser T)
    (documentId patchId : string) (updates : Updates.t) :
  Forall (λ p, AIPatch.id p ≠ patchId) (default [] (patches_of b !! documentId)) →
  returned (patchStore.updatePatch documentId patchId updates b) = Some None ∧
  same_items b (final (patchStore.updatePatch documentId patchId updates b)).
Proof.
  intros Hmiss.
  assert (Hidx : ∀ storage patches, patches_item b = Some (Json storage) →
            storage !! documentId = Some patches →
            findIndex (λ p, bool_decide (AIPatch.id p = patchId)) patches = None).
  { intros storage patches Hitem Hd. apply findIndex_missing.
    unfold patches_of in Hmiss. rewrite Hitem, Hd in Hmiss. simpl in Hmiss.
    eapply Forall_impl; [exact Hmiss|]. intros p Hp. by apply bool_decide_eq_false_2. }
  rewrite updatePatch_run.
  destruct b as [hw rd wr nw rn gn cs pit cit]; simpl in *.
  destruct hw, rd; simpl; try done;
    destruct pit as [[| |storage]|]; try done.
  destruct (storage !! documentId) as [patches|] eqn:Hd;
    [|by destruct (inherited documentId)].
  by rewrite (Hidx storage patches eq_refl Hd).
Qed.

Lemma X14_witness :
  returned (patchStore.updatePatch "d" "p7" (Updates.only_status accepted)
              (browser_with (T:=Comment.t) true false
                 (Some (Json {[ "d" := [patch1] ]})) None)) = Some None.
Proof.
  apply X14_updatePatch_missing_writes_nothing.
  vm_compute. repeat constructor. discriminate.
Defined.

(** X15. [updateComment] with an identifier that no stored comment has
    returns without writing, whatever the state of storage: both stores
    are as they were. *)
Theorem X15_updateComment_missing_writes_nothing (b : Browser Comment.t)
    (id content : string) :
  Forall (λ c, Comment.id c ≠ id) (comments_of b) →
  returned (commentStore.updateComment id content b) = Some tt ∧
  same_items b (final (commentStore.updateComment id content b)).
Proof.
  intros Hmiss.
  unfold commentStore.updateComment, bind, ret. rewrite readFromStorage_run.
  unfold comments_of in Hmiss.
  destruct b as [hw rd wr nw rn gn cs pit cit]; simpl in *.
  destruct hw, rd; simpl; try done;
    destruct cit as [[| |stored]|]; try done.
  rewrite findIndex_missing; [done|].
  eapply Forall_impl; [exact Hmiss|]. intros c Hc. by apply bool_decide_eq_false_2.
Qed.

Lemma X15_witness :
  same_items
    (browser_with true true None (Some (Json [Comment.mk "c1" "d" "old" "foo" 1 1])))
    (final (commentStore.updateComment "c9" "new"
              (browser_with true true None
                 (Some (Json [Comment.mk "c1" "d" "old" "foo" 1 1]))))).
Proof.
  apply X15_updateComment_missing_writes_nothing.
  vm_compute. repeat constructor. discriminate.
Defined.

(** ** Anchor resolution: where the range lies *)

(** Every node of the walk lies within the fragment walked, and the
    matching text nodes do not overlap: in the order of the walk each ends
    where the next starts, or before. *)
Lemma visits_matching_ordered X (l : list Node) :
  ∀ pos,
    StronglySorted (λ u v : Node * nat, u.2 + nodeSize u.1 ≤ v.2)
      (List.filter (λ v, carries X v.1) (visits pos l)) ∧
    Forall (λ v, pos ≤ v.2 ∧ v.2 + nodeSize v.1 ≤ pos + fragSize l) (visits pos l).
Proof.
  assert (Hnode : ∀ n pos,
    StronglySorted (λ u v : Node * nat, u.2 + nodeSize u.1 ≤ v.2)
      (List.filter (λ v, carries X v.1) (visits_node pos n)) ∧
    Forall (λ v, pos ≤ v.2 ∧ v.2 + nodeSize v.1 ≤ pos + nodeSize n) (visits_node pos n)).
  { induction n as [s marks|c IH|b t] using Node_nested_ind; intros pos.
    - split.
      + simpl. destruct (existsb _ marks); repeat constructor.
      + repeat constructor; simpl; lia.
    - rewrite visits_node_Elem, nodeSize_Elem.
      assert (Hfrag : ∀ p,
        StronglySorted (λ u v : Node * nat, u.2 + nodeSize u.1 ≤ v.2)
          (List.filter (λ v, carries X v.1) (visits p c)) ∧
        Forall (λ v, p ≤ v.2 ∧ v.2 + nodeSize v.1 ≤ p + fragSize c) (visits p c)).
      { induction IH as [|x r Hx _ IHr]; intros p; [by split; constructor|].
        rewrite visits_cons, List.filter_app.
        destruct (Hx p) as [Hs1 Hb1]. destruct (IHr (p + nodeSize x)) as [Hs2 Hb2].
        rewrite Forall_forall in Hb1, Hb2. split.
        - apply StronglySorted_app_2; [|done..].
          intros u v Hu Hv.
          apply list_elem_of_In, filter_In in Hu as [Hu _].
          apply list_elem_of_In, filter_In in Hv as [Hv _].
          apply list_elem_of_In in Hu, Hv.
          specialize (Hb1 u Hu). specialize (Hb2 v Hv). lia.
        - apply Forall_app. split; apply Forall_forall; intros v Hv.
          + specialize (Hb1 v Hv). simpl. lia.
          + specialize (Hb2 v Hv). simpl. lia. }
      destruct (Hfrag (S pos)) as [Hs Hb]. split; [done|].
      constructor; [cbn [fst snd]; rewrite ?nodeSize_Elem; lia|].
      eapply Forall_impl; [exact Hb|]. simpl. intros; lia.
    - split; [constructor|]. repeat constructor; simpl; lia. }
  induction l as [|x r IHr]; intros p; [by split; constructor|].
  rewrite visits_cons, List.filter_app.
  destruct (Hnode x p) as [Hs1 Hb1]. destruct (IHr (p + nodeSize x)) as [Hs2 Hb2].
  rewrite Forall_forall in Hb1, Hb2. split.
  - apply StronglySorted_app_2; [|done..].
    intros u v Hu Hv.
    apply list_elem_of_In, filter_In in Hu as [Hu _].
    apply list_elem_of_In, filter_In in Hv as [Hv _].
    apply list_elem_of_In in Hu, Hv.
    specialize (Hb1 u Hu). specialize (Hb2 v Hv). lia.
  - apply Forall_app. split; apply Forall_forall; intros v Hv.
    + specialize (Hb1 v Hv). simpl. lia.
    + specialize (Hb2 v Hv). simpl. lia.
Qed.

Lemma last_In {A} (l : list A) d : In (List.last l d) (d :: l).
Proof.
  revert d. induction l as [|x r IH]; intros d; [by left|].
  rewrite last_cons. right. apply IH.
Qed.

(** In a list ordered in this way every entry ends before the last does. *)
Lemma ordered_last (l : list (Node * nat)) (d : Node * nat) :
  StronglySorted (λ u v : Node * nat, u.2 + nodeSize u.1 ≤ v.2) (d :: l) →
  ∀ v, In v (d :: l) →
       v.2 + nodeSize v.1 ≤ (List.last l d).2 + nodeSize (List.last l d).1.
Proof.
  revert d. induction l as [|x r IH]; intros d Hs v Hv.
  - destruct Hv as [<-|[]]. done.
  - rewrite last_cons. apply StronglySorted_cons in Hs as [Hd Hs].
    destruct Hv as [<-|Hv]; [|by apply IH].
    pose proof (last_In r x) as Hl. apply list_elem_of_In in Hl.
    rewrite Forall_forall in Hd. specialize (Hd _ Hl). lia.
Qed.

(** X16. For an identifier that is present as an annotation,
    [findAnchorRange] returns a range, the range lies within the document
    and is not reversed, and every text node that carries the annotation
    lies within the range. *)
Theorem X16_findAnchorRange_covers (e : Editor) (X : string) :
  annotated X (doc e) = true →
  ∃ from to,
    findAnchorRange (Some e) X = Some (from, to) ∧
    from ≤ to ∧ to ≤ fragSize (doc e) ∧
    ∀ n pos, In (n, pos) (matching X (doc e)) → from ≤ pos ∧ pos + nodeSize n ≤ to.
Proof.
  intros Ha. rewrite findAnchorRange_matching.
  destruct (visits_matching_ordered X (doc e) 0) as [Hs Hb].
  pose proof (matching_some X (doc e) 0 Ha) as Hne.
  unfold matching in *.
  assert (Hsub : ∀ v, In v (List.filter (λ v, carries X v.1) (visits 0 (doc e))) →
                      v.2 + nodeSize v.1 ≤ fragSize (doc e)).
  { intros v Hv. apply filter_In in Hv as [Hv _]. apply list_elem_of_In in Hv.
    rewrite Forall_forall in Hb. apply (Hb v Hv). }
  destruct (List.filter _ _) as [|first rest]; [done|]. clear Hne.
  pose proof (ordered_last rest first Hs) as Hlast.
  eexists _, _. split; [reflexivity|]. cbv zeta.
  split; [|split].
  - specialize (Hlast first (or_introl eq_refl)). lia.
  - apply Hsub, last_In.
  - intros n pos Hin. split; [|apply (Hlast (n, pos) Hin)].
    destruct Hin as [->|Hin]; [done|].
    apply StronglySorted_cons in Hs as [Hd _].
    rewrite Forall_forall in Hd. apply list_elem_of_In in Hin.
    specialize (Hd _ Hin). simpl in *. lia.
Qed.

Lemma X16_witness :
  ∃ from to,
    findAnchorRange (Some (editor_of doc_disjoint)) "t1" = Some (from, to) ∧
    from ≤ to ∧ to ≤ fragSize doc_disjoint.
Proof.
  destruct (X16_findAnchorRange_covers (editor_of doc_disjoint) "t1")
    as (from & to & Hrun & Hle & Hin & _).
  - reflexivity.
  - exists from, to. split; [exact Hrun|]. split; [exact Hle|exact Hin].
Defined.

(** ** The panel: the patch map, the order of the threads, the sections *)



Lemma insert_by_position_Permutation data x l :
  insert_by_position data x l ≡ₚ x :: l.
Proof.
  induction l as [|y r IH]; simpl; [done|].
  destruct (position_le _ _); [done|]. rewrite IH. apply Permutation_swap.
Qed.

Lemma position_le_trans a b c :
  position_le a b = true → position_le b c = true → position_le a c = true.
Proof.
  destruct a, b, c; simpl; try done. rewrite !Nat.leb_le. lia.
Qed.

Lemma position_le_total a b : position_le a b = false → position_le b a = true.
Proof.
  destruct a, b; simpl; try done. rewrite Nat.leb_gt, Nat.leb_le. lia.
Qed.

Lemma insert_by_position_sorted data x l :
  StronglySorted (λ a c, position_le (position_of data a) (position_of data c) = true) l →
  StronglySorted (λ a c, position_le (position_of data a) (position_of data c) = true)
    (insert_by_position data x l).
Proof.
  induction 1 as [|y r Hr IH Hy]; simpl.
  - repeat constructor.
  - destruct (position_le (position_of data x) (position_of data y)) eqn:Hle.
    + constructor; [by constructor|]. constructor; [done|].
      eapply Forall_impl; [exact Hy|]. simpl. intros z Hz.
      by eapply position_le_trans.
    + constructor; [done|]. rewrite insert_by_position_Permutation.
      constructor; [by apply position_le_total|done].
Qed.

Lemma insert_by_position_stable data x l k :
  List.filter (λ t, bool_decide (position_of data t = k)) (insert_by_position data x l) =
  List.filter (λ t, bool_decide (position_of data t = k)) (x :: l).
Proof.
  induction l as [|y r IH]; [done|].
  cbn [insert_by_position].
  destruct (position_le (position_of data x) (position_of data y)) eqn:Hle; [done|].
  cbn [List.filter]. rewrite IH. cbn [List.filter].
  destruct (bool_decide (position_of data y = k)) eqn:Hy,
           (bool_decide (position_of data x = k)) eqn:Hx; try done.
  apply bool_decide_eq_true in Hy, Hx. rewrite Hy, Hx in Hle.
  destruct k; simpl in Hle; [|done]. apply Nat.leb_gt in Hle. lia.
Qed.

(** X18. The panel lists the threads in the order of their positions in
    the document, those without a position last; the list has the threads
    of the panel, each as often as before, and threads of equal position,
    the unanchored ones among them, keep the order they had. *)
Theorem X18_sortedThreads_by_position (data : gmap string (string * nat))
    (threads : list CommentThread.t) :
  sortedThreads data threads ≡ₚ threads ∧
  StronglySorted (λ a c, position_le (position_of data a) (position_of data c) = true)
    (sortedThreads data threads) ∧
  (∀ before a between c after,
     sortedThreads data threads = before ++ a :: between ++ c :: after →
     position_of data a = None → position_of data c = None) ∧
  (∀ k, List.filter (λ t, bool_decide (position_of data t = k)) (sortedThreads data threads) =
        List.filter (λ t, bool_decide (position_of data t = k)) threads).
Proof.
  assert (Hsorted : StronglySorted
            (λ a c, position_le (position_of data a) (position_of data c) = true)
            (sortedThreads data threads)).
  { induction threads as [|x r IH]; [constructor|]. by apply insert_by_position_sorted. }
  split; [|split; [done|split]].
  - clear Hsorted. induction threads as [|x r IH]; [done|].
    cbn [sortedThreads foldr]. rewrite insert_by_position_Permutation.
    by apply Permutation_skip.
  - intros before a between c after Heq Ha. rewrite Heq in Hsorted.
    apply StronglySorted_app_1_r, StronglySorted_cons in Hsorted as [Hfa _].
    rewrite Forall_forall in Hfa. specialize (Hfa c). rewrite Ha in Hfa.
    destruct (position_of data c); [|done].
    assert (Hc : c ∈ between ++ c :: after) by set_solver.
    by specialize (Hfa Hc).
  - clear Hsorted. intros k. induction threads as [|x r IH]; [done|].
    cbn [sortedThreads foldr]. rewrite insert_by_position_stable.
    cbn [List.filter]. fold (sortedThreads data r). by rewrite IH.
Qed.

(** X19. Every thread of the panel is shown in one of its three sections
    at least: awaiting a prompt, unresolved, resolved. No thread is both
    under the unresolved and under the resolved ones, nor both unresolved
    and awaiting a prompt; but a resolved AI thread without messages is
    shown twice, as awaiting a prompt and as resolved. *)
Theorem X19_sections (sorted : list CommentThread.t) (t : CommentThread.t) :
  In t sorted →
  (In t (aiThreadsAwaitingPrompt sorted) ∨ In t (unresolvedThreads sorted) ∨
   In t (resolvedThreads sorted)) ∧
  ¬ (In t (unresolvedThreads sorted) ∧ In t (resolvedThreads sorted)) ∧
  ¬ (In t (unresolvedThreads sorted) ∧ In t (aiThreadsAwaitingPrompt sorted)) ∧
  (awaitsPrompt t = true → CommentThread.resolved t = true →
   In t (aiThreadsAwaitingPrompt sorted) ∧ In t (resolvedThreads sorted)).
Proof.
  intros Hin. unfold aiThreadsAwaitingPrompt, unresolvedThreads, resolvedThreads.
  rewrite !filter_In.
  destruct (awaitsPrompt t), (CommentThread.resolved t); simpl; naive_solver.
Qed.

Lemma X19_witness :
  In (CommentThread.mk "t5" "d" "foo" [] true 1 1 (Some true) None)
     (aiThreadsAwaitingPrompt [CommentThread.mk "t5" "d" "foo" [] true 1 1 (Some true) None]) ∧
  In (CommentThread.mk "t5" "d" "foo" [] true 1 1 (Some true) None)
     (resolvedThreads [CommentThread.mk "t5" "d" "foo" [] true 1 1 (Some true) None]).
Proof.
  apply (X19_sections [CommentThread.mk "t5" "d" "foo" [] true 1 1 (Some true) None]).
  - by left.
  - reflexivity.
  - reflexivity.
Defined.

(** X20. [toggleExpanded] flips the expansion of the one thread and of no
    other, so that toggling twice gives back the set of expanded threads. *)
Theorem X20_toggleExpanded_flips (threadId : string) (prev : gset string) :
  (threadId ∈ toggleExpanded threadId prev ↔ threadId ∉ prev) ∧
  (∀ other, other ≠ threadId →
     (other ∈ toggleExpanded threadId prev ↔ other ∈ prev)) ∧
  toggleExpanded threadId (toggleExpanded threadId prev) = prev.
Proof.
  assert (Hself : threadId ∈ toggleExpanded threadId prev ↔ threadId ∉ prev).
  { unfold toggleExpanded. destruct (decide (threadId ∈ prev)); set_solver. }
  assert (Hother : ∀ other, other ≠ threadId →
            (other ∈ toggleExpanded threadId prev ↔ other ∈ prev)).
  { intros other Hne. unfold toggleExpanded.
    destruct (decide (threadId ∈ prev)); set_solver. }
  split; [done|]. split; [done|].
  apply set_eq. intros x. unfold toggleExpanded at 1.
  destruct (decide (threadId ∈ toggleExpanded threadId prev)) as [Hin|Hnin].
  - apply Hself in Hin. destruct (decide (x = threadId)) as [->|Hne]; [set_solver|].
    rewrite elem_of_difference, Hother by done. set_solver.
  - assert (threadId ∈ prev).
    { destruct (decide (threadId ∈ prev)); [done|]. exfalso. by apply Hnin, Hself. }
    destruct (decide (x = threadId)) as [->|Hne]; [set_solver|].
    rewrite elem_of_union, Hother by done. set_solver.
Qed.

(** X21. While the panel is being resized, the width that a mouse move
    sets is never below 280 nor above 800 pixels, and it is the distance
    of the pointer from the right edge of the window whenever that lies
    within these bounds; a mouse move outside a resize leaves the width. *)
Theorem X21_handleMouseMove_bounds (innerWidth clientX panelWidth : Z) :
  handleMouseMove false innerWidth clientX panelWidth = panelWidth ∧
  (280 ≤ handleMouseMove true innerWidth clientX panelWidth ≤ 800)%Z ∧
  ((280 ≤ innerWidth - clientX ≤ 800)%Z →
   handleMouseMove true innerWidth clientX panelWidth = (innerWidth - clientX)%Z).
Proof. unfold handleMouseMove. simpl. split; [done|]. split; [lia|]. intros; lia. Qed.

(** ** The first comment panel: [formatTime] *)

(** X22. [formatTime] reads "just now" for less than a minute, a time in
    the future included; a whole number of minutes from 1 to 59 below an
    hour, a whole number of hours from 1 to 23 below a day, both rounded
    down; and the date from a day on. *)
Theorem X22_formatTime_buckets (toLocaleDateString : Z → string) (now timestamp : Z) :
  ((now - timestamp < 60000)%Z →
   formatTime toLocaleDateString now timestamp = "just now") ∧
  ((60000 ≤ now - timestamp < 3600000)%Z →
   ∃ m, (1 ≤ m ≤ 59)%Z ∧ (m * 60000 ≤ now - timestamp < (m + 1) * 60000)%Z ∧
        formatTime toLocaleDateString now timestamp = pretty m +:+ "m ago") ∧
  ((3600000 ≤ now - timestamp < 86400000)%Z →
   ∃ h, (1 ≤ h ≤ 23)%Z ∧ (h * 3600000 ≤ now - timestamp < (h + 1) * 3600000)%Z ∧
        formatTime toLocaleDateString now timestamp = pretty h +:+ "h ago") ∧
  ((86400000 ≤ now - timestamp)%Z →
   formatTime toLocaleDateString now timestamp = toLocaleDateString timestamp).
Proof.
  unfold formatTime. cbv zeta. set (diff := (now - timestamp)%Z).
  split; [|split; [|split]].
  - intros Hd. by rewrite (proj2 (Z.ltb_lt _ _) Hd).
  - intros [Hlo Hhi].
    rewrite (proj2 (Z.ltb_ge _ _) Hlo), (proj2 (Z.ltb_lt _ _) Hhi).
    exists (diff / 60000)%Z. split; [|split; [|done]].
    + split; [apply Z.div_le_lower_bound; lia|].
      apply Z.lt_succ_r, Z.div_lt_upper_bound; lia.
    + pose proof (Z.mul_div_le diff 60000 ltac:(lia)).
      pose proof (Z.mul_succ_div_gt diff 60000 ltac:(lia)). lia.
  - intros [Hlo Hhi].
    rewrite (proj2 (Z.ltb_ge diff 60000) ltac:(lia)).
    rewrite (proj2 (Z.ltb_ge _ _) Hlo), (proj2 (Z.ltb_lt _ _) Hhi).
    exists (diff / 3600000)%Z. split; [|split; [|done]].
    + split; [apply Z.div_le_lower_bound; lia|].
      apply Z.lt_succ_r, Z.div_lt_upper_bound; lia.
    + pose proof (Z.mul_div_le diff 3600000 ltac:(lia)).
      pose proof (Z.mul_succ_div_gt diff 3600000 ltac:(lia)). lia.
  - intros Hd.
    rewrite (proj2 (Z.ltb_ge diff 60000) ltac:(lia)).
    rewrite (proj2 (Z.ltb_ge diff 3600000) ltac:(lia)).
    by rewrite (proj2 (Z.ltb_ge _ _) Hd).
Qed.

Lemma X22_witness :
  formatTime (λ _, "1/1/2026") 7200000 0 = "2h ago" ∧
  formatTime (λ _, "1/1/2026") 0 7200000 = "just now".
Proof.
  destruct (X22_formatTime_buckets (λ _, "1/1/2026") 7200000 0) as (_ & _ & Hh & _).
  destruct (X22_formatTime_buckets (λ _, "1/1/2026") 0 7200000) as (Hnow & _).
  split.
  - destruct Hh as (h & Hb & Hr & ->); [lia|].
    assert (h = 2%Z) as -> by lia. reflexivity.
  - apply Hnow. lia.
Defined.

(** ** The selection bubble *)

(** What holds of the bubble at all times: while it is shown, the selected
    text it holds has two characters at least once trimmed, and so has
    every text it has passed on. *)
Lemma bubble_step_invariant {Pos} (s : SelectionBubble.State Pos)
    (ev : SelectionBubble.Event Pos) :
  (is_Some (SelectionBubble.position s) →
   2 ≤ String.length (trim (SelectionBubble.selectedText s))) →
  Forall (λ text, 2 ≤ String.length (trim text)) (SelectionBubble.added s) →
  (is_Some (SelectionBubble.position (SelectionBubble.step s ev)) →
   2 ≤ String.length (trim (SelectionBubble.selectedText (SelectionBubble.step s ev)))) ∧
  Forall (λ text, 2 ≤ String.length (trim text))
    (SelectionBubble.added (SelectionBubble.step s ev)).
Proof.
  intros Hshown Hadded.
  assert (Hupdate : ∀ r,
    (is_Some (SelectionBubble.position (SelectionBubble.updatePosition r s)) →
     2 ≤ String.length
           (trim (SelectionBubble.selectedText (SelectionBubble.updatePosition r s)))) ∧
    Forall (λ text, 2 ≤ String.length (trim text))
      (SelectionBubble.added (SelectionBubble.updatePosition r s))).
  { intros r. unfold SelectionBubble.updatePosition.
    destruct (SelectionBubble.editor_selection r) as [[[from to] text]|]; simpl.
    - destruct (from =? to); simpl; [split; [by intros [? ?]|done]|].
      destruct (String.length (trim text) <? 2) eqn:Hlen; simpl.
      + split; [by intros [? ?]|done].
      + apply Nat.ltb_ge in Hlen. by split.
    - split; [by intros [? ?]|done]. }
  destruct ev as [r| |r| |]; cbn [SelectionBubble.step].
  - apply Hupdate.
  - unfold SelectionBubble.handleBlur.
    destruct (SelectionBubble.isClicking s); [by split|]. simpl.
    split; [by intros [? ?]|done].
  - destruct (SelectionBubble.position s) eqn:Hp; [apply Hupdate|].
    split; [|done]. rewrite Hp. by intros [? ?].
  - destruct (SelectionBubble.position s) eqn:Hp.
    + split; [|done]. simpl. intros _. apply Hshown. rewrite ?Hp. by eexists.
    + split; [|done]. rewrite Hp. by intros [? ?].
  - destruct (SelectionBubble.position s) eqn:Hp.
    + assert (Hlen : 2 ≤ String.length (trim (SelectionBubble.selectedText s)))
        by (apply Hshown; rewrite ?Hp; by eexists).
      unfold SelectionBubble.handleClick.
      destruct (SelectionBubble.selectedText s) as [|a text] eqn:Ht; simpl.
      * vm_compute in Hlen. lia.
      * split; [by intros [? ?]|]. apply Forall_app. split; [done|].
        by constructor.
    + split; [|done]. rewrite Hp. by intros [? ?].
Qed.

(** X23. Whatever the sequence of selection updates, blurs, scrolls and
    clicks, the bubble is shown only for a selection that has two
    characters at least once trimmed, and every text it passes to
    [onAddComment] is such a selection: it never proposes a comment on an
    empty or blank selection. *)
Theorem X23_bubble_never_adds_short {Pos} (events : list (SelectionBubble.Event Pos)) :
  (is_Some (SelectionBubble.position (SelectionBubble.run events)) →
   2 ≤ String.length (trim (SelectionBubble.selectedText (SelectionBubble.run events)))) ∧
  Forall (λ text, 2 ≤ String.length (trim text))
    (SelectionBubble.added (SelectionBubble.run events)).
Proof.
  unfold SelectionBubble.run.
  assert (Hinit :
    (is_Some (SelectionBubble.position (@SelectionBubble.initial Pos)) →
     2 ≤ String.length (trim (SelectionBubble.selectedText (@SelectionBubble.initial Pos)))) ∧
    Forall (λ text, 2 ≤ String.length (trim text))
      (SelectionBubble.added (@SelectionBubble.initial Pos))).
  { split; [by intros [? ?]|constructor]. }
  revert Hinit. generalize (@SelectionBubble.initial Pos).
  induction events as [|ev r IH]; intros s Hs; [done|].
  simpl. apply IH. destruct Hs as [H1 H2]. by apply bubble_step_invariant.
Qed.

(** ** Deciding through the card *)

(** After a decision that reaches the store, the panel holds the patch of
    the thread with the status decided. *)
Lemma decision_reaches_card d t p st w storage ps :
  healthy (browser w) →
  patches_item (browser w) = Some (Json storage) →
  storage !! d = Some ps →
  In p ps → NoDup (map AIPatch.id ps) →
  AIPatch.anchorId p = t →
  (∀ q, In q ps → AIPatch.anchorId q = t → q = p) →
  ∃ w1 p1,
    record_decision d t p st w = Return tt w1 ∧
    editor w1 = editor w ∧
    patches w1 !! t = Some p1 ∧
    AIPatch.status p1 = st ∧
    AIPatch.proposedText p1 = AIPatch.proposedText p.
Proof.
  intros (Hw & Hr & Hwr) Hitem Hd Hin Hnd Ha Honly.
  unfold record_decision, bind at 1, liftB at 1.
  rewrite updatePatch_run, Hw, Hr, Hwr, Hitem, Hd. cbn [andb].
  destruct (findIndex (λ q, bool_decide (AIPatch.id q = AIPatch.id p)) ps) as [i|] eqn:Hidx.
  2:{ apply findIndex_None in Hidx. rewrite Forall_forall in Hidx.
      rewrite <- list_elem_of_In in Hin. specialize (Hidx p Hin).
      by rewrite bool_decide_eq_true_2 in Hidx. }
  destruct (findIndex_Some _ _ _ Hidx) as (old & Hold & Hid & _).
  apply bool_decide_eq_true in Hid. rewrite Hold. cbv zeta.
  assert (old = p) as ->.
  { apply (NoDup_ids_inj AIPatch.id ps); [done| |done..].
    apply list_elem_of_In, list_elem_of_lookup. by exists i. }
  set (p' := patchStore.with_updatedAt _ _).
  set (b1 := with_patches_item _ _).
  unfold bind at 1, liftB at 1. cbn [browser with_browser].
  destruct (toggleResolveThread_flags b1 t) as (b2 & -> & Hp2 & Hw2 & Hr2).
  unfold loadPatches, bind at 1 2, liftB at 1. cbn [browser with_browser].
  rewrite getPatches_run, Hw2, Hr2, Hp2. cbn [b1 has_window readable patches_item
    with_patches_item negb]. rewrite Hw, Hr, lookup_insert_eq. cbn [default].
  unfold setPatches, loadThreads, bind, liftB, id.
  cbn [negb browser with_browser editor events threads commentData patches].
  match goal with |- context [commentStore.getDocumentComments d ?b] =>
    destruct (getDocumentComments_frame b d) as (l' & b4 & -> & _) end.
  unfold setThreads. eexists _, p'. split; [reflexivity|]. cbn [editor patches].
  split; [done|]. split; [|done].
  apply (patchMap_unique _ _ _ i).
  - apply list_lookup_insert_eq. by eapply lookup_lt_Some.
  - exact Ha.
  - intros j y Hy Hj Hay. rewrite list_lookup_insert_ne in Hy by done.
    assert (y = p) as ->.
    { apply Honly; [|done]. apply list_elem_of_In, list_elem_of_lookup. by exists j. }
    apply Hj. eapply NoDup_lookup; [|exact Hy|exact Hold].
    by eapply NoDup_fmap_1.
Qed.

(** X24. A click on Reject on the card of an open patch, with the editor
    at hand and storage that works, closes the card: the panel then holds
    the patch as rejected, the card offers neither button, so that a click
    on Accept changes nothing, and the Resolve button of the thread is
    disabled. The text of the document is as it was. *)
Theorem X24_reject_closes_card (documentId threadId : string) (patch : AIPatch.t)
    (w : World) (e : Editor) (storage : PatchStorage) (ps : list AIPatch.t) :
  patches w !! threadId = Some patch →
  AIPatch.status patch = open →
  editor w = Some e →
  healthy (browser w) →
  patches_item (browser w) = Some (Json storage) →
  storage !! documentId = Some ps →
  In patch ps → NoDup (map AIPatch.id ps) →
  AIPatch.anchorId patch = threadId →
  (∀ q, In q ps → AIPatch.anchorId q = threadId → q = patch) →
  ∃ w1 rejectedPatch,
    click RejectButton (threadPatchCard documentId threadId w) w = Return tt w1 ∧
    patches w1 !! threadId = Some rejectedPatch ∧
    AIPatch.status rejectedPatch = rejected ∧
    threadPatchCard documentId threadId w1 = [] ∧
    resolveDisabled (patches w1 !! threadId) = true ∧
    click AcceptButton (threadPatchCard documentId threadId w1) w1 = Return tt w1 ∧
    (getText <$> editor w1) = Some (getText e).
Proof.
  intros Hp Hs He Hh Hitem Hd Hin Hnd Ha Honly.
  unfold threadPatchCard at 1, PatchCard. rewrite Hp, Hs. cbn [click List.find bool_decide
    decide_rel fst snd negb].
  change (click RejectButton _ w) with (handleRejectPatch documentId threadId patch w).
  rewrite (handleRejectPatch_run _ _ _ _ _ He).
  set (w0 := match findAnchorRange (Some e) threadId with
             | Some range => with_editor (Some (run (reject_chain range) e)) w
             | None => w
             end).
  assert (Hb0 : browser w0 = browser w) by (unfold w0; by destruct (findAnchorRange _ _)).
  assert (Hed0 : (getText <$> editor w0) = Some (getText e)).
  { unfold w0. destruct (findAnchorRange _ _) as [range|]; [|by rewrite He].
    cbn [editor with_editor fmap option_fmap option_map]. simpl. f_equal.
    apply reject_chain_keeps. }
  destruct (decision_reaches_card documentId threadId patch rejected w0 storage ps)
    as (w1 & p1 & Hrun & Hed & Hp1 & Hs1 & _); rewrite ?Hb0; try done.
  exists w1, p1. split; [done|]. split; [done|]. split; [done|].
  assert (Hcard : threadPatchCard documentId threadId w1 = []).
  { unfold threadPatchCard, PatchCard. by rewrite Hp1, Hs1. }
  split; [done|]. split; [by rewrite Hp1; simpl; rewrite Hs1|].
  split; [by rewrite Hcard|]. by rewrite Hed.
Qed.

Lemma X24_witness :
  ∃ w1,
    click RejectButton (threadPatchCard "d" "t1" world_loaded) world_loaded = Return tt w1 ∧
    threadPatchCard "d" "t1" w1 = [] ∧
    (getText <$> editor w1) = Some "Hello world".
Proof.
  destruct (X24_reject_closes_card "d" "t1" patch_world world_loaded
              (editor_of doc_hello_world) {[ "d" := [patch_world] ]} [patch_world])
    as (w1 & p1 & Hrun & _ & _ & Hcard & _ & _ & Htext).
  - apply lookup_singleton_eq.
  - reflexivity.
  - reflexivity.
  - repeat split.
  - reflexivity.
  - apply lookup_singleton_eq.
  - by left.
  - repeat constructor. set_solver.
  - reflexivity.
  - intros q [<-|[]] _. reflexivity.
  - exists w1. split; [exact Hrun|]. split; [exact Hcard|exact Htext].
Defined.

(** ** Refreshing the comment data *)

(** [refreshCommentData] with the editor at hand and storage that works,
    step by step. *)
Lemma refreshCommentData_run (documentId : string) (w : World) (e : Editor)
    (stored : list CommentThread.t) :
  editor w = Some e →
  healthy (browser w) →
  comments_item (browser w) = Some (Json stored) →
  refreshCommentData documentId w =
  Return tt
    (let data := getAllCommentData e in
     let orphans :=
       List.filter
         (λ thread, negb (isAI thread) &&
                    negb (bool_decide (is_Some (data !! CommentThread.id thread))))
         (commentStore.sort_by_createdAt
            (List.filter (λ c, bool_decide (CommentThread.documentId c = documentId))
               stored)) in
     match orphans with
     | [] =>
         {| editor := Some e; browser := browser w; events := events w;
            threads := threads w; commentData := data; patches := patches w |}
     | _ :: _ =>
         {| editor := Some e;
            browser := with_comments_item
                         (Some (Json (List.filter (survives orphans) stored))) (browser w);
            events := events w ++
                      map (λ t, onDeleteComment (CommentThread.id t)) orphans;
            threads := commentStore.sort_by_createdAt
                         (List.filter
                            (λ c, bool_decide (CommentThread.documentId c = documentId))
                            (List.filter (survives orphans) stored));
            commentData := data; patches := patches w |}
     end).
Proof.
  intros He Hh Hitem. cbv zeta.
  unfold refreshCommentData, bind at 1, getEditorInstance. rewrite He.
  unfold bind at 1, setCommentData. unfold bind at 1, liftB at 1. simpl browser.
  rewrite (getDocumentComments_healthy _ _ stored) by done.
  set (data := getAllCommentData e).
  set (orphans := List.filter _ (commentStore.sort_by_createdAt _)).
  destruct orphans as [|o r] eqn:Eo; [simpl; unfold ret; by rewrite He|].
  change (0 <? length (o :: r)) with true. cbv iota.
  unfold bind at 1. rewrite (forEach_delete _ _ stored) by done.
  unfold bind, liftB. simpl browser.
  rewrite (getDocumentComments_healthy _ _ (List.filter (survives (o :: r)) stored));
    [|by destruct Hh|done].
  simpl. by rewrite He.
Qed.

(** X25. A refresh of the comment data, with the editor at hand and
    storage that works, leaves nothing for a second refresh to do: run
    again on its own result, it changes nothing. When every stored thread
    of the document that is not an AI thread has its entry in the data of
    the editor, the first refresh already deletes nothing and tells nobody:
    it updates the comment data only. *)
Theorem X25_refresh_idempotent (documentId : string) (w : World) (e : Editor)
    (stored : list CommentThread.t) :
  editor w = Some e →
  healthy (browser w) →
  comments_item (browser w) = Some (Json stored) →
  ∃ w',
    refreshCommentData documentId w = Return tt w' ∧
    commentData w' = getAllCommentData e ∧
    refreshCommentData documentId w' = Return tt w' ∧
    ((∀ t, In t stored → CommentThread.documentId t = documentId → isAI t = false →
           is_Some (getAllCommentData e !! CommentThread.id t)) →
     browser w' = browser w ∧ events w' = events w ∧ threads w' = threads w).
Proof.
  intros He Hh Hitem.
  rewrite (refreshCommentData_run documentId w e stored He Hh Hitem). cbv zeta.
  set (data := getAllCommentData e).
  set (orphanP := λ thread : CommentThread.t,
         negb (isAI thread) &&
         negb (bool_decide (is_Some (data !! CommentThread.id thread)))).
  set (inDoc := λ c : CommentThread.t,
         bool_decide (CommentThread.documentId c = documentId)).
  set (orphans := List.filter orphanP
                    (commentStore.sort_by_createdAt (List.filter inDoc stored))).
  assert (Horph : ∀ t, In t orphans ↔ In t stored ∧ inDoc t = true ∧ orphanP t = true).
  { intros t. unfold orphans. rewrite filter_In, sort_by_createdAt_In, filter_In.
    naive_solver. }
  destruct orphans as [|o r] eqn:Eo.
  - eexists. split; [reflexivity|]. split; [done|]. split; [|done].
    rewrite (refreshCommentData_run documentId _ e stored); [|done..]. cbv zeta.
    fold data orphanP inDoc. cbn [browser events threads patches].
    change (List.filter orphanP _) with orphans. by rewrite Eo.
  - rewrite <- Eo. eexists. split; [reflexivity|]. split; [done|]. split.
    + set (stored' := List.filter (survives orphans) stored).
      rewrite (refreshCommentData_run documentId _ e stored');
        [|done|by apply healthy_with_comments_item|done].
      cbv zeta. fold data orphanP inDoc.
      set (orphans' := List.filter orphanP
                         (commentStore.sort_by_createdAt (List.filter inDoc stored'))).
      assert (Hnone : orphans' = []).
      { destruct orphans' as [|t r'] eqn:Eo'; [done|]. exfalso.
        assert (Ht : In t orphans') by (rewrite Eo'; by left).
        unfold orphans' in Ht.
        rewrite filter_In, sort_by_createdAt_In, filter_In in Ht.
        destruct Ht as [[Hst Hdoc] Hop]. unfold stored' in Hst.
        apply filter_In in Hst as [Hst Hsurv].
        assert (Hto : In t orphans) by (rewrite Eo; by apply Horph).
        unfold survives in Hsurv. rewrite forallb_forall in Hsurv.
        specialize (Hsurv t Hto). by rewrite bool_decide_eq_true_2 in Hsurv. }
      by rewrite Hnone.
    + intros Hall. exfalso.
      assert (Ho : In o (o :: r)) by (by left).
      apply Horph in Ho as (Hst & Hdoc & Hop).
      unfold orphanP in Hop. apply andb_true_iff in Hop as [Hai Hno].
      apply negb_true_iff in Hai, Hno. apply bool_decide_eq_false in Hno.
      apply Hno, Hall; [done| |done]. by apply bool_decide_eq_true in Hdoc.
Qed.

Lemma X25_witness :
  ∃ w',
    refreshCommentData "d"
      (world_with (replaceRange 7 12 "" doc_hello_world)
         (browser_with true true None (Some (Json [thread1 false; ai_thread])))) =
      Return tt w' ∧
    refreshCommentData "d" w' = Return tt w'.
Proof.
  destruct (X25_refresh_idempotent "d"
              (world_with (replaceRange 7 12 "" doc_hello_world)
                 (browser_with true true None (Some (Json [thread1 false; ai_thread]))))
              (editor_of (replaceRange 7 12 "" doc_hello_world))
              [thread1 false; ai_thread])
    as (w' & Hrun & _ & Hagain & _).
  - reflexivity.
  - repeat split.
  - reflexivity.
  - exists w'. split; [exact Hrun|exact Hagain].
Defined.

(** ** Accepting while storage cannot be written *)


